(** * AgriDrone-Server: the LLM-mediated guidance pipeline

    A shallow embedding of [services/llmAdapter.js], [routes/chat.js],
    [routes/recommendations.js], [models/Recommendation.js] and
    [models/ChatMessage.js], then of the parts of [middleware/validation.js],
    [middleware/errorHandler.js], [middleware/security.js],
    [utils/logger.js] and [index.js] around them, followed by the
    properties of the guidance pipeline that the specification states
    about them and by further properties of the code. *)

From Stdlib Require Import ZArith NArith Ascii String Lia.
From Stdlib Require DecimalString.
From stdpp Require Import base option list sorting gmap.

Local Open Scope N_scope.
Set Warnings "-register-all".

(** ** JavaScript strings

    A JavaScript string is a sequence of UTF-16 code units.  Every text
    constant of the sources is ASCII except the dashes of the disclaimer and
    of the chat system prompt and the cross mark of the streaming error
    text, which are given by their code units. *)
Module JsString.

Definition jsstring := list N.

(** An ASCII literal as code units. *)
Definition u (s : string) : jsstring :=
  map N_of_ascii (list_ascii_of_string s).

(** An ASCII literal in which [~] stands for the double quote. *)
Definition tq (s : string) : jsstring :=
  map (fun c => if c =? 126 then 34 else c) (u s).

Definition em_dash : N := 8212.
Definition en_dash : N := 8211.
Definition cross_mark : N := 10060.
Definition nl : jsstring := [10].

(** LineTerminator: LF, CR, LS, PS. *)
Definition isLineTerminator (c : N) : bool :=
  (c =? 10) || (c =? 13) || (c =? 8232) || (c =? 8233).

(** WhiteSpace and LineTerminator, the class of [\s] and of [trim]. *)
Definition isSpace (c : N) : bool :=
  (c =? 9) || (c =? 11) || (c =? 12) || (c =? 32) || (c =? 160)
  || (c =? 5760) || ((8192 <=? c) && (c <=? 8202)) || (c =? 8239)
  || (c =? 8287) || (c =? 12288) || (c =? 65279) || isLineTerminator c.

Fixpoint trimStart (s : jsstring) : jsstring :=
  match s with
  | c :: s' => if isSpace c then trimStart s' else s
  | [] => []
  end.

Definition trimEnd (s : jsstring) : jsstring := rev (trimStart (rev s)).

Definition trim (s : jsstring) : jsstring := trimEnd (trimStart s).

Fixpoint startsWith (pat s : jsstring) : bool :=
  match pat, s with
  | [], _ => true
  | p :: pat', c :: s' => (c =? p) && startsWith pat' s'
  | _ :: _, [] => false
  end.

(** [s.includes(pat)] *)
Fixpoint includes (s pat : jsstring) : bool :=
  startsWith pat s ||
  match s with
  | [] => false
  | _ :: s' => includes s' pat
  end.

Definition eqb (a b : jsstring) : bool := bool_decide (a = b).

(** [toLowerCase] on the ASCII letters; other code units are left as they
    are (the case tables of Unicode are not part of the sources, and the
    request validator admits only [a-z0-9-] in a disease key). *)
Definition lowerUnit (c : N) : N :=
  if (65 <=? c) && (c <=? 90) then c + 32 else c.

Definition toLowerCase (s : jsstring) : jsstring := map lowerUnit s.

End JsString.
Import JsString.

(** ** Regular expressions

    The fragment the sources use: a sequence of atoms, each a single code
    unit of a class, an optional one or a greedy repetition of one.
    Matching is the backtracking search of the language: leftmost start,
    greedy choices first. *)
Module RegExp.

Inductive atom :=
| One (p : N -> bool)
| Opt (p : N -> bool)
| Star (p : N -> bool).

Definition regex := list atom.

(** A greedy repetition of the class [p] followed by the rest of the
    pattern [k]: the longest run first, then shorter ones. *)
Fixpoint starLoop (p : N -> bool) (k : jsstring -> option jsstring) (s : jsstring)
  : option jsstring :=
  match s with
  | c :: s' =>
      if p c then
        match starLoop p k s' with
        | Some t => Some t
        | None => k s
        end
      else k s
  | [] => k []
  end.

(** The remainder of [s] after the first match of [r] anchored at the
    start of [s]. *)
Fixpoint execHere (r : regex) (s : jsstring) {struct r} : option jsstring :=
  match r with
  | [] => Some s
  | One p :: r' =>
      match s with
      | c :: s' => if p c then execHere r' s' else None
      | [] => None
      end
  | Opt p :: r' =>
      match s with
      | c :: s' =>
          if p c then
            match execHere r' s' with
            | Some t => Some t
            | None => execHere r' s
            end
          else execHere r' s
      | [] => execHere r' []
      end
  | Star p :: r' => starLoop p (execHere r') s
  end.

(** A match: the text before it, the matched text, the text after it. *)
Record found := Found { before : jsstring; matched : jsstring; after : jsstring }.

(** [r.exec(s)] without the sticky or global flag. *)
Fixpoint exec (r : regex) (s : jsstring) : option found :=
  match execHere r s with
  | Some rest => Some (Found [] (take (length s - length rest) s) rest)
  | None =>
      match s with
      | [] => None
      | c :: s' =>
          match exec r s' with
          | Some (Found b m a) => Some (Found (c :: b) m a)
          | None => None
          end
      end
  end.

(** [r.test(s)] *)
Definition test (r : regex) (s : jsstring) : bool :=
  match exec r s with Some _ => true | None => false end.

(** [s.match(r)[0]] for a pattern without the global flag. *)
Definition matchFirst (r : regex) (s : jsstring) : option jsstring :=
  matched <$> exec r s.

(** [s.replace(r, rep)] for a pattern with the global flag and a constant
    replacement: after an empty match the search moves on by one code
    unit. *)
Fixpoint replaceLoop (fuel : nat) (r : regex) (rep s : jsstring) : jsstring :=
  match fuel with
  | O => s
  | S fuel' =>
      match exec r s with
      | None => s
      | Some (Found b [] a) =>
          b ++ rep ++
          match a with
          | [] => []
          | c :: a' => c :: replaceLoop fuel' r rep a'
          end
      | Some (Found b (_ :: _) a) => b ++ rep ++ replaceLoop fuel' r rep a
      end
  end.

Definition replaceAll (r : regex) (rep s : jsstring) : jsstring :=
  replaceLoop (S (length s)) r rep s.

(** Character classes. *)
Definition dot (c : N) : bool := negb (isLineTerminator c).
Definition anyUnit (c : N) : bool := true.
Definition unit (p : N) (c : N) : bool := c =? p.

(** Canonicalize of a pattern without the unicode flag, on an ASCII
    pattern unit: a code unit outside ASCII never folds onto an ASCII
    one. *)
Definition canonicalize (c : N) : N :=
  if (97 <=? c) && (c <=? 122) then c - 32 else c.
Definition unitIgnoreCase (p : N) (c : N) : bool :=
  canonicalize c =? canonicalize p.

Definition lit (s : string) : regex := map (fun p => One (unit p)) (u s).
Definition litIgnoreCase (s : string) : regex :=
  map (fun p => One (unitIgnoreCase p)) (u s).

End RegExp.
Import RegExp.

(** ** JavaScript values and [JSON.parse] *)
Module Json.

(** A number is kept as the decimal its text denotes,
    [(-1)^neg * digits * 10^exp10]; the sources apply no arithmetic to a
    parsed number, only [ToBoolean]. *)
Inductive value :=
| VUndefined
| VNull
| VBool (b : bool)
| VNum (neg : bool) (digits : N) (exp10 : Z)
| VStr (s : jsstring)
| VArr (xs : list value)
| VObj (props : list (jsstring * value)).

(** Own property lookup, [o[k]]. *)
Fixpoint lookupProp (k : jsstring) (props : list (jsstring * value)) : value :=
  match props with
  | [] => VUndefined
  | (k', v) :: props' => if JsString.eqb k' k then v else lookupProp k props'
  end.

(** [o[k] = v] on the own properties: an existing key keeps its place. *)
Fixpoint setProp (k : jsstring) (v : value) (props : list (jsstring * value))
  : list (jsstring * value) :=
  match props with
  | [] => [(k, v)]
  | (k', v') :: props' =>
      if JsString.eqb k' k then (k, v) :: props' else (k', v') :: setProp k v props'
  end.

(** [{...a, ...b}] *)
Definition spread (a b : list (jsstring * value)) : list (jsstring * value) :=
  fold_left (fun acc kv => setProp kv.1 kv.2 acc) b a.

(** [v.k] for a named (non-index, non-builtin) property [k] of a value
    that is neither [null] nor [undefined]. *)
Definition get (v : value) (k : jsstring) : value :=
  match v with
  | VObj props => lookupProp k props
  | _ => VUndefined
  end.

(** [v[0]] for a value that is neither [null] nor [undefined]. *)
Definition getIndex0 (v : value) : value :=
  match v with
  | VArr (x :: _) => x
  | VStr (c :: _) => VStr [c]
  | VObj props => lookupProp (u "0") props
  | _ => VUndefined
  end.

Definition isNullish (v : value) : bool :=
  match v with VUndefined | VNull => true | _ => false end.

(** A decimal rounds to the double zero iff it is at most [2^-1075] in
    magnitude (ties go to the even significand). *)
Definition roundsToZero (digits : N) (exp10 : Z) : bool :=
  (digits =? 0) ||
  ((exp10 <? 0)%Z && (Z.of_N digits * 2 ^ 1075 <=? 10 ^ (- exp10))%Z).

Definition toBoolean (v : value) : bool :=
  match v with
  | VUndefined | VNull => false
  | VBool b => b
  | VNum _ d e => negb (roundsToZero d e)
  | VStr s => negb (bool_decide (s = []))
  | VArr _ | VObj _ => true
  end.

(** [a || b] *)
Definition orElse (a b : value) : value := if toBoolean a then a else b.

(** *** The JSON grammar *)

Definition isJsonWs (c : N) : bool :=
  (c =? 32) || (c =? 9) || (c =? 10) || (c =? 13).

Fixpoint skipWs (s : jsstring) : jsstring :=
  match s with
  | c :: s' => if isJsonWs c then skipWs s' else s
  | [] => []
  end.

Definition isDigit (c : N) : bool := (48 <=? c) && (c <=? 57).

Definition hexValue (c : N) : option N :=
  if isDigit c then Some (c - 48)
  else if (97 <=? c) && (c <=? 102) then Some (c - 87)
  else if (65 <=? c) && (c <=? 70) then Some (c - 55)
  else None.

Definition escapeUnit (c : N) : option N :=
  if c =? 34 then Some 34          (* quote *)
  else if c =? 92 then Some 92     (* backslash *)
  else if c =? 47 then Some 47     (* solidus *)
  else if c =? 98 then Some 8      (* b: backspace *)
  else if c =? 102 then Some 12    (* f: form feed *)
  else if c =? 110 then Some 10    (* n: line feed *)
  else if c =? 114 then Some 13    (* r: carriage return *)
  else if c =? 116 then Some 9     (* t: tab *)
  else None.

(** The characters of a string after its opening quote, up to and
    including the closing quote. *)
Fixpoint parseChars (s : jsstring) : option (jsstring * jsstring) :=
  match s with
  | [] => None
  | c :: s1 =>
      if c =? 34 then Some ([], s1)
      else if c =? 92 then
        match s1 with
        | [] => None
        | e :: s2 =>
            if e =? 117 then
              match s2 with
              | h1 :: h2 :: h3 :: h4 :: s3 =>
                  match hexValue h1, hexValue h2, hexValue h3, hexValue h4 with
                  | Some a, Some b, Some c', Some d =>
                      match parseChars s3 with
                      | Some (cs, rest) =>
                          Some ((((a * 16 + b) * 16 + c') * 16 + d) :: cs, rest)
                      | None => None
                      end
                  | _, _, _, _ => None
                  end
              | _ => None
              end
            else
              match escapeUnit e with
              | Some x =>
                  match parseChars s2 with
                  | Some (cs, rest) => Some (x :: cs, rest)
                  | None => None
                  end
              | None => None
              end
        end
      else if c <? 32 then None
      else
        match parseChars s1 with
        | Some (cs, rest) => Some (c :: cs, rest)
        | None => None
        end
  end.

(** A maximal run of digits, as a number, with its length. *)
Fixpoint digitsFrom (acc : N) (n : nat) (s : jsstring) : N * nat * jsstring :=
  match s with
  | c :: s' => if isDigit c then digitsFrom (acc * 10 + (c - 48)) (S n) s' else (acc, n, s)
  | [] => (acc, n, [])
  end.

(** A number: an optional minus, then a zero or a run of digits that does
    not start with zero, then an optional fraction (a point and at least
    one digit), then an optional exponent (e or E, an optional sign, at
    least one digit). *)
Definition parseNumber (s : jsstring) : option (value * jsstring) :=
  let '(neg, s0) :=
    match s with
    | c :: s' => if c =? 45 then (true, s') else (false, s)
    | [] => (false, s)
    end in
  let intPart :=
    match s0 with
    | c :: s' =>
        if c =? 48 then Some (0, s')
        else if isDigit c then
          let '(n, _, rest) := digitsFrom 0 0 s0 in Some (n, rest)
        else None
    | [] => None
    end in
  match intPart with
  | None => None
  | Some (ip, s1) =>
      let frac :=
        match s1 with
        | c :: s' =>
            if c =? 46 then
              match digitsFrom ip 0 s' with
              | (_, O, _) => None
              | (n, k, rest) => Some (n, k, rest)
              end
            else Some (ip, O, s1)
        | [] => Some (ip, O, s1)
        end in
      match frac with
      | None => None
      | Some (m, k, s2) =>
          let plain := Some (VNum neg m (- Z.of_nat k), s2) in
          match s2 with
          | c :: s' =>
              if (c =? 101) || (c =? 69) then
                let '(eneg, s3) :=
                  match s' with
                  | d :: s'' =>
                      if d =? 45 then (true, s'')
                      else if d =? 43 then (false, s'')
                      else (false, s')
                  | [] => (false, s')
                  end in
                match digitsFrom 0 0 s3 with
                | (_, O, _) => None
                | (e, _, rest) =>
                    let ez := if eneg then (- Z.of_N e)%Z else Z.of_N e in
                    Some (VNum neg m (ez - Z.of_nat k), rest)
                end
              else plain
          | [] => plain
          end
      end
  end.

Definition keyword (w : string) (v : value) (s : jsstring) : option (value * jsstring) :=
  if startsWith (u w) s then Some (v, drop (length (u w)) s) else None.

(** Recursive descent; every call consumes fuel, and two calls in a row
    consume at least one code unit. *)
Fixpoint parseValue (fuel : nat) (s : jsstring) : option (value * jsstring) :=
  match fuel with
  | O => None
  | S fuel' =>
      match skipWs s with
      | [] => None
      | c :: s1 =>
          if c =? 123 then
            match skipWs s1 with
            | d :: s2 =>
                if d =? 125 then Some (VObj [], s2)
                else parseMembers fuel' [] s1
            | [] => None
            end
          else if c =? 91 then
            match skipWs s1 with
            | d :: s2 =>
                if d =? 93 then Some (VArr [], s2)
                else parseElements fuel' [] s1
            | [] => None
            end
          else if c =? 34 then
            match parseChars s1 with
            | Some (cs, rest) => Some (VStr cs, rest)
            | None => None
            end
          else if c =? 116 then keyword "true" (VBool true) (c :: s1)
          else if c =? 102 then keyword "false" (VBool false) (c :: s1)
          else if c =? 110 then keyword "null" VNull (c :: s1)
          else parseNumber (c :: s1)
      end
  end
with parseMembers (fuel : nat) (acc : list (jsstring * value)) (s : jsstring)
  : option (value * jsstring) :=
  match fuel with
  | O => None
  | S fuel' =>
      match skipWs s with
      | q :: s1 =>
          if q =? 34 then
            match parseChars s1 with
            | Some (k, s2) =>
                match skipWs s2 with
                | colon :: s3 =>
                    if colon =? 58 then
                      match parseValue fuel' s3 with
                      | Some (v, s4) =>
                          match skipWs s4 with
                          | d :: s5 =>
                              if d =? 44 then parseMembers fuel' (setProp k v acc) s5
                              else if d =? 125 then Some (VObj (setProp k v acc), s5)
                              else None
                          | [] => None
                          end
                      | None => None
                      end
                    else None
                | [] => None
                end
            | None => None
            end
          else None
      | [] => None
      end
  end
with parseElements (fuel : nat) (acc : list value) (s : jsstring)
  : option (value * jsstring) :=
  match fuel with
  | O => None
  | S fuel' =>
      match parseValue fuel' s with
      | Some (v, s1) =>
          match skipWs s1 with
          | d :: s2 =>
              if d =? 44 then parseElements fuel' (acc ++ [v]) s2
              else if d =? 93 then Some (VArr (acc ++ [v]), s2)
              else None
          | [] => None
          end
      | None => None
      end
  end.

(** [JSON.parse(s)]: [None] is the SyntaxError. *)
Definition parse (s : jsstring) : option value :=
  match parseValue (2 * length s + 2) s with
  | Some (v, rest) =>
      match skipWs rest with
      | [] => Some v
      | _ :: _ => None
      end
  | None => None
  end.

End Json.
Import Json.

(** ** Documents, requests to the external API, and effects *)
Module Effects.

Inductive role := User | Assistant | System.

Definition role_eqb (a b : role) : bool :=
  match a, b with
  | User, User | Assistant, Assistant | System, System => true
  | _, _ => false
  end.

(** [{ role, content }], an entry of the list sent to the model. *)
Record message := Message { role_of : role; content_of : jsstring }.

(** A ChatMessage document (models/ChatMessage.js); [createdAt] in
    milliseconds since the epoch. *)
Record chatMessage := ChatMessage {
  sessionId : jsstring;
  msgRole : role;
  msgContent : jsstring;
  createdAt : Z
}.

(** A Recommendation document (models/Recommendation.js), without the
    bookkeeping fields of the database (_id, __v, timestamps). *)
Record recommendation := Recommendation {
  diseaseKey : jsstring;
  displayName : jsstring;
  summary : jsstring;
  symptoms : list jsstring;
  causes : list jsstring;
  treatmentSteps : list jsstring;
  preventionSteps : list jsstring;
  severity : jsstring;
  whenToEscalate : list jsstring;
  references : list jsstring
}.

(** The body of the POST to [/chat/completions]. *)
Record payload := Payload {
  p_model : value;
  p_messages : list message;
  p_temperature : value;
  p_max_tokens : value;
  p_top_p : value;
  p_stream : bool
}.

(** What [fetch] does with a request: it rejects (network failure,
    timeout), or resolves to a response whose body is JSON text or not. *)
Inductive fetchResult :=
| Rejects
| Resolves (ok : bool) (status : N) (statusText : jsstring) (json : option value).

Inductive exn :=
| ApiKeyNotConfigured
| FetchRejected
| GroqApiError (status : N) (statusText : jsstring)
| SyntaxError
| TypeError
| ValidationError
| NoJsonFound
| MissingRequiredFields (missing : list jsstring)
| FailedToGenerate (cause : exn).

Inductive completion (A : Type) :=
| Return (a : A)
| Throw (e : exn).
Arguments Return {A} a.
Arguments Throw {A} e.

(** The state a request runs against: the ChatMessage collection, and the
    requests sent to the external API so far (oldest first). *)
Record world := World {
  chatMessages : list chatMessage;
  sent : list payload
}.

Definition M (A : Type) : Type := world -> completion A * world.

#[export] Instance M_ret : MRet M := fun A a w => (Return a, w).
#[export] Instance M_bind : MBind M := fun A B f m w =>
  match m w with
  | (Return a, w') => f a w'
  | (Throw e, w') => (Throw e, w')
  end.

Definition throw {A} (e : exn) : M A := fun w => (Throw e, w).

(** [try { m } catch (error) { h error }] *)
Definition tryCatch {A} (m : M A) (h : exn -> M A) : M A := fun w =>
  match m w with
  | (Return a, w') => (Return a, w')
  | (Throw e, w') => h e w'
  end.

(** The configuration and the surroundings of the process. *)
Record env := Env {
  groqApiKey : option jsstring;
  defaultModel : jsstring;
  fetch : payload -> fetchResult;
  recommendations : gmap jsstring recommendation;
  now : Z;
  nowISO : jsstring;
  elapsed : Z
}.

(** [await fetch(url, { body: JSON.stringify(payload), ... })] *)
Definition doFetch (e : env) (p : payload) : M fetchResult := fun w =>
  (Return (fetch e p), World (chatMessages w) (sent w ++ [p])).

End Effects.
Import Effects.

(** ** models/Recommendation.js *)
Module RecommendationModel.

(** [/\s+/g] *)
Definition whitespaceRun : regex := [One isSpace; Star isSpace].

(** [key.toLowerCase().trim().replace(/\s+/g, '-')] *)
Definition normalizeKey (key : jsstring) : jsstring :=
  replaceAll whitespaceRun (u "-") (trim (toLowerCase key)).

Definition strings (xs : list jsstring) : value := VArr (VStr <$> xs).

(** [this.toObject()], on the fields of the schema. *)
Definition toObject (r : recommendation) : list (jsstring * value) :=
  [ (u "diseaseKey", VStr (diseaseKey r));
    (u "displayName", VStr (displayName r));
    (u "summary", VStr (summary r));
    (u "symptoms", strings (symptoms r));
    (u "causes", strings (causes r));
    (u "treatmentSteps", strings (treatmentSteps r));
    (u "preventionSteps", strings (preventionSteps r));
    (u "severity", VStr (severity r));
    (u "whenToEscalate", strings (whenToEscalate r));
    (u "references", strings (references r)) ].

Definition modelDisclaimer : jsstring :=
  u "This is guidance only. Always consult an agriculture expert for professional diagnosis and treatment confirmation.".

(** [{ ...this.toObject(), disclaimer: "This is guidance only. ..." }] *)
Definition getSafeRecommendation (r : recommendation) : list (jsstring * value) :=
  spread (toObject r) [(u "disclaimer", VStr modelDisclaimer)].

(** [Recommendation.findOne({ diseaseKey: key })]; the schema makes
    [diseaseKey] unique. *)
Definition findOne (e : env) (key : jsstring) : option recommendation :=
  recommendations e !! key.

End RecommendationModel.

(** ** models/ChatMessage.js *)
Module ChatMessageModel.

(** [.sort({ createdAt: -1 })]: newest first; documents with equal
    [createdAt] stay in the order of the collection. *)
Fixpoint insertDesc (x : chatMessage) (l : list chatMessage) : list chatMessage :=
  match l with
  | [] => [x]
  | y :: l' =>
      if (createdAt y <=? createdAt x)%Z then x :: l else y :: insertDesc x l'
  end.

Definition sortDesc (l : list chatMessage) : list chatMessage :=
  foldr insertDesc [] l.

(** [.limit(n)]: a limit of zero is no limit. *)
Definition limit (n : nat) (l : list chatMessage) : list chatMessage :=
  match n with
  | O => l
  | S _ => take n l
  end.

(** [this.find({ sessionId })] *)
Definition findSession (sid : jsstring) (l : list chatMessage) : list chatMessage :=
  filter (fun m => sessionId m = sid) l.

(** [getRecentContext(sessionId, limit)] *)
Definition getRecentContext (sid : jsstring) (n : nat) : M (list chatMessage) :=
  fun w => (Return (limit n (sortDesc (findSession sid (chatMessages w)))), w).






(** [new ChatMessage({ sessionId, role, content }).save()]: the schema
    requires a content of 1 to 4000 code units; [createdAt] defaults to
    the clock. *)
Definition save (e : env) (sid : jsstring) (r : role) (content : value) : M () :=
  fun w =>
    match content with
    | VStr s =>
        if bool_decide (1 <= length s <= 4000)%nat
        then (Return (), World (chatMessages w ++ [ChatMessage sid r s (now e)]) (sent w))
        else (Throw ValidationError, w)
    | _ => (Throw ValidationError, w)
    end.

End ChatMessageModel.

(** ** services/llmAdapter.js *)
Module LLMAdapter.

Definition disclaimer : jsstring :=
  u "Guidance only " ++ [em_dash] ++
  u " confirm with a local agriculture technician/DA office for accurate diagnosis and treatment.".

Definition guidanceOnly : jsstring := u "Guidance only".

(** The content of the reply to an unsafe request. *)
Definition refusal : jsstring :=
  u "I cannot provide that information as it may be unsafe. I don't share or request API keys, passwords, or secrets. For chemical-specific questions (exact dosages, mixing ratios), please consult a licensed agriculture professional or your local DA office."
  ++ nl ++ nl ++ disclaimer.

(** [this.unsafePatterns] *)
Definition unsafePatterns : list regex :=
  [ litIgnoreCase "api" ++ [Opt dot] ++ litIgnoreCase "key";
    litIgnoreCase "secret";
    litIgnoreCase "password";
    litIgnoreCase "token";
    litIgnoreCase "credential";
    litIgnoreCase "mixing" ++ [Star dot] ++ litIgnoreCase "chemical";
    litIgnoreCase "chemical" ++ [Star dot] ++ litIgnoreCase "mix";
    litIgnoreCase "exact" ++ [Star dot] ++ litIgnoreCase "dosage";
    litIgnoreCase "pesticide" ++ [Star dot] ++ litIgnoreCase "combination";
    litIgnoreCase "combine" ++ [Star dot] ++ litIgnoreCase "pesticide" ].

(** [isUnsafeRequest(message)] *)
Definition isUnsafeRequest (message : jsstring) : bool :=
  existsb (fun pattern => test pattern message) unsafePatterns.

(** The [options] argument; an absent option is [VUndefined].  The
    [stream] option of the callers is never read. *)
Record options := Options {
  o_model : value;
  o_temperature : value;
  o_max_tokens : value;
  o_top_p : value
}.

(** What [generateChatCompletion] returns. *)
Record reply := Reply {
  content : value;
  model : value;
  created : value;
  done : bool;
  usage : value
}.

(** [formatMessages(messages)] *)
Definition formatMessages (messages : list message) : list message :=
  map (fun msg => Message (role_of msg) (content_of msg)) messages.

Definition liftC {A} (c : completion A) : M A := fun w => (c, w).

(** [result.choices?.[0]?.message?.content || ''] *)
Definition extractContent (result : value) : completion value :=
  if isNullish result then Throw TypeError
  else
    let choices := get result (u "choices") in
    let found :=
      if isNullish choices then VUndefined
      else
        let first := getIndex0 choices in
        if isNullish first then VUndefined
        else
          let message := get first (u "message") in
          if isNullish message then VUndefined
          else get message (u "content") in
    Return (orElse found (VStr [])).

(** [content.includes(text)]: on a string, on an array, and a TypeError
    on the other values a truthy content can be. *)
Definition contentIncludes (content : value) (text : jsstring) : completion bool :=
  match content with
  | VStr s => Return (includes s text)
  | VArr xs =>
      Return (existsb (fun x => match x with
                                | VStr t => JsString.eqb t text
                                | _ => false
                                end) xs)
  | _ => Throw TypeError
  end.

(** [content.trim()] *)
Definition contentTrim (content : value) : completion jsstring :=
  match content with
  | VStr s => Return (trim s)
  | _ => Throw TypeError
  end.

(** The statement that ensures the disclaimer:
    [if (!content.includes(disclaimer) && !content.includes("Guidance only"))
       content = content.trim() + "\n\n" + disclaimer] *)
Definition ensureDisclaimer (content : value) : completion value :=
  match contentIncludes content disclaimer with
  | Throw e => Throw e
  | Return true => Return content
  | Return false =>
      match contentIncludes content guidanceOnly with
      | Throw e => Throw e
      | Return true => Return content
      | Return false =>
          match contentTrim content with
          | Throw e => Throw e
          | Return t => Return (VStr (t ++ nl ++ nl ++ disclaimer))
          end
      end
  end.

Definition isUser (m : message) : bool := role_eqb (role_of m) User.

(** [messages.find(m => m.role === 'user')] *)
Definition findUser (messages : list message) : option message :=
  List.find isUser messages.

Definition refusalReply (e : env) : reply :=
  Reply (VStr refusal) (VStr (defaultModel e)) (VStr (nowISO e)) true VUndefined.

Definition buildPayload (e : env) (messages : list message) (o : options) : payload :=
  Payload (orElse (o_model o) (VStr (defaultModel e)))
          (formatMessages messages)
          (orElse (o_temperature o) (VNum false 7 (-1)))
          (orElse (o_max_tokens o) (VNum false 600 0))
          (orElse (o_top_p o) (VNum false 9 (-1)))
          false.

(** The request to the external API and the reading of its answer. *)
Definition callGroq (e : env) (messages : list message) (o : options) : M reply :=
  response ← doFetch e (buildPayload e messages o);
  match response with
  | Rejects => throw FetchRejected
  | Resolves false status statusText _ => throw (GroqApiError status statusText)
  | Resolves true _ _ None => throw SyntaxError
  | Resolves true _ _ (Some result) =>
      c0 ← liftC (extractContent result);
      c1 ← liftC (ensureDisclaimer c0);
      mret (Reply c1 (get result (u "model")) (get result (u "created"))
                  true (get result (u "usage")))
  end.

(** The body of the [try] of [generateChatCompletion]. *)
Definition attemptChatCompletion (e : env) (messages : list message) (o : options)
  : M reply :=
  match groqApiKey e with
  | None | Some [] => throw ApiKeyNotConfigured
  | Some (_ :: _) =>
      let lastUserMessage := findUser messages in
      if match lastUserMessage with
         | Some m => isUnsafeRequest (content_of m)
         | None => false
         end
      then mret (refusalReply e)
      else callGroq e messages o
  end.

(** [generateChatCompletion(messages, options)] *)
Definition generateChatCompletion (e : env) (messages : list message) (o : options)
  : M reply :=
  tryCatch (attemptChatCompletion e messages o)
           (fun error => throw (FailedToGenerate error)).

(** The [context] of a recommendation request: an object, of which the
    prompt reads three properties (each given by the text it renders as,
    [None] when absent or falsy) and to which the route adds
    [existingRecommendation] (summary and severity); or a string, which
    is what the request validator admits. *)
Record contextObject := ContextObject {
  c_severity : option jsstring;
  c_confidence : option jsstring;
  c_userContext : option jsstring;
  c_existingRecommendation : option (jsstring * jsstring)
}.

Inductive context :=
| CtxObject (o : contextObject)
| CtxString (s : jsstring).

Definition emptyContext : context := CtxObject (ContextObject None None None None).

Definition readContext (f : contextObject -> option jsstring) (c : context)
  : option jsstring :=
  match c with
  | CtxObject o => f o
  | CtxString _ => None
  end.

(** [${x ? `label${x}suffix` : ''}] *)
Definition optionalLine (label : jsstring) (x : option jsstring) (suffix : jsstring)
  : jsstring :=
  match x with
  | Some (c :: t) => label ++ (c :: t) ++ suffix
  | Some [] | None => []
  end.

(** [diseaseNames[diseaseKey] || diseaseKey], on the keys of the table. *)
Definition diseaseName (diseaseKey : jsstring) : jsstring :=
  if JsString.eqb diseaseKey (u "healthy") then u "Healthy Citrus"
  else if JsString.eqb diseaseKey (u "black-spot") then u "Citrus Black Spot"
  else if JsString.eqb diseaseKey (u "canker") then u "Citrus Canker"
  else if JsString.eqb diseaseKey (u "greening") then u "Citrus Greening (HLB)"
  else diseaseKey.

(** The fixed part of the prompt, from the blank line on. *)
Definition promptTail : jsstring :=
  tq "
Provide a JSON response with this structure:
{
  ~summary~: ~Brief 1-2 sentence overview using 'likely' or 'possible'~,
  ~symptoms~: [~symptom1~, ~symptom2~, ~symptom3~],
  ~causes~: [~cause1~, ~cause2~],
  ~treatmentSteps~: [~safe step1~, ~safe step2~, ~safe step3~],
  ~preventionSteps~: [~prevention1~, ~prevention2~, ~prevention3~],
  ~whenToEscalate~: [~escalation1~, ~escalation2~],
  ~additionalNotes~: ~Farmer-specific advice~
}

RULES:
- Use ~likely~ or ~possible~ - never claim certainty
- NO exact chemical dosages or mixing ratios
- Focus on IPM and sanitation first
- Recommend consulting DA office for chemical specifics
".

(** [buildRecommendationPrompt(diseaseKey, context)] *)
Definition buildRecommendationPrompt (diseaseKey : jsstring) (c : context) : jsstring :=
  nl ++ u "Generate agricultural guidance for " ++ diseaseName diseaseKey
     ++ u " in dalandan/citrus crops." ++ nl
  ++ optionalLine (u "Detected severity: ") (readContext c_severity c) [] ++ nl
  ++ optionalLine (u "Model confidence: ") (readContext c_confidence c) (u "%") ++ nl
  ++ optionalLine (u "Additional context: ") (readContext c_userContext c) [] ++ nl
  ++ promptTail.

(** [getRecommendationSystemPrompt()] *)
Definition getRecommendationSystemPrompt : jsstring :=
  tq "You are DalandanCare Assistant generating structured disease recommendations.

SAFETY RULES:
- Never provide exact chemical dosages or mixing ratios
- Always use ~likely/possible~ for diagnosis
- Recommend consulting professionals for chemical specifics
- Prioritize IPM and sanitation approaches
- Include organic options when available

Respond ONLY with valid JSON format as requested.".

(** The object of the [catch] of [parseRecommendationResponse]. *)
Definition fallbackRecommendation : value :=
  VObj
    [ (u "summary", VStr (u "Based on the analysis, this may indicate a citrus health issue that requires further assessment."));
      (u "symptoms", VArr
         [ VStr (u "Observe leaf discoloration, spots, or unusual growth patterns");
           VStr (u "Check for lesions or abnormal textures");
           VStr (u "Note any yellowing or wilting") ]);
      (u "causes", VArr
         [ VStr (u "Various environmental factors");
           VStr (u "Possible pathogenic infection") ]);
      (u "treatmentSteps", VArr
         [ VStr (u "Remove and dispose of severely affected leaves properly");
           VStr (u "Improve air circulation around the plant");
           VStr (u "Ensure proper watering (not too wet/dry)");
           VStr (u "Consult local DA office for specific treatment recommendations") ]);
      (u "preventionSteps", VArr
         [ VStr (u "Maintain proper plant spacing");
           VStr (u "Regular monitoring and inspection");
           VStr (u "Practice good sanitation (clean tools, remove debris)") ]);
      (u "whenToEscalate", VArr
         [ VStr (u "If symptoms spread rapidly to other plants");
           VStr (u "If conventional treatments show no improvement after 2 weeks") ]);
      (u "disclaimer", VStr disclaimer) ].

(** The fence patterns: three backquotes and [json], or three backquotes,
    each with the white space after it. *)
Definition jsonFence : regex := lit "```json" ++ [Star isSpace].
Definition anyFence : regex := lit "```" ++ [Star isSpace].

(** An opening brace, any code units, a closing brace. *)
Definition braceSpan : regex := lit "{" ++ [Star anyUnit] ++ lit "}".

Definition cleanContent (content : jsstring) : jsstring :=
  trim (replaceAll anyFence [] (replaceAll jsonFence [] content)).

Definition required : list jsstring :=
  [u "summary"; u "symptoms"; u "causes"; u "treatmentSteps"; u "preventionSteps"].

(** [!parsed[field] || (Array.isArray(parsed[field]) && parsed[field].length === 0)] *)
Definition isMissing (parsed : value) (field : jsstring) : bool :=
  negb (toBoolean (get parsed field)) ||
  match get parsed field with
  | VArr [] => true
  | _ => false
  end.

(** The body of the [try] of [parseRecommendationResponse], on a string. *)
Definition attemptParse (content : jsstring) : completion value :=
  match matchFirst braceSpan (cleanContent content) with
  | None => Throw NoJsonFound
  | Some jsonMatch =>
      match Json.parse jsonMatch with
      | None => Throw SyntaxError
      | Some parsed =>
          let missing := List.filter (isMissing parsed) required in
          if (0 <? length missing)%nat then Throw (MissingRequiredFields missing)
          else
            match parsed with
            | VObj props => Return (VObj (setProp (u "disclaimer") (VStr disclaimer) props))
            | _ => Throw TypeError
            end
      end
  end.

(** [parseRecommendationResponse(content)].  A content that is not a
    string raises in the [try] ([content.replace]) and again in the
    [catch] ([content.substring]), and that second error leaves the
    function. *)
Definition parseRecommendationResponse (content : value) : completion value :=
  match content with
  | VStr s =>
      match attemptParse s with
      | Return parsed => Return parsed
      | Throw _ => Return fallbackRecommendation
      end
  | _ => Throw TypeError
  end.

(** [generateRecommendation(diseaseKey, context)] *)
Definition generateRecommendation (e : env) (diseaseKey : jsstring) (c : context)
  : M value :=
  let prompt := buildRecommendationPrompt diseaseKey c in
  tryCatch
    (result ← generateChatCompletion e
               [ Message System getRecommendationSystemPrompt;
                 Message User prompt ]
               (Options VUndefined (VNum false 3 (-1)) (VNum false 800 0) VUndefined);
     liftC (parseRecommendationResponse (content result)))
    (fun error => throw error).

End LLMAdapter.

(** ** routes/chat.js and routes/recommendations.js *)
Module Routes.
Import LLMAdapter RecommendationModel ChatMessageModel.

(** What a handler leaves the client with: a JSON response, a streamed
    text, or an error passed on to the error middleware. *)
Inductive response :=
| Json (status : N) (body : value)
| Streamed (status : N) (text : jsstring)
| ToErrorHandler (e : exn).

(** [asyncHandler(fn)] *)
Definition asyncHandler (h : M response) (w : world) : response * world :=
  match h w with
  | (Return r, w') => (r, w')
  | (Throw e, w') => (ToErrorHandler e, w')
  end.

(** The system message of [addSystemMessage]. *)
Definition chatSystemPrompt : jsstring :=
  tq "You are DalandanCare Assistant, a safety-focused agriculture guidance chatbot for dalandan/citrus leaf issues.

NON-NEGOTIABLE RULES (YOU MUST FOLLOW):
1) NEVER reveal or request secrets (API keys, tokens, passwords). If the user asks, refuse and explain it's unsafe.
2) Do NOT claim a certain diagnosis from a single image or minimal info. Use ~likely/possible~ and ask 1"
  ++ [en_dash] ++
  tq "3 clarifying questions when needed.
3) Do NOT invent facts, research, or citations. If unsure, say you are unsure and request more details.
4) Do NOT provide hazardous instructions, including:
   - Chemical mixing ratios, exact dosages, brand-specific pesticide directions, or combinations
   - Instructions that could harm people/animals/environment
   If asked, provide safe alternatives (IPM, sanitation) and advise consulting a licensed agriculture professional for chemical specifics.
5) ALWAYS end your response with this disclaimer (exactly one sentence):
   ~" ++ disclaimer ++
  tq "~

STYLE REQUIREMENTS:
- Practical, short, step-by-step bullets
- Simple English. If the user asks for Tagalog, switch to Tagalog
- Focus on: what to do today, what to monitor, prevention, and when to escalate

AREAS OF EXPERTISE:
- Dalandan (Philippine citrus) diseases: Citrus Black Spot, Citrus Canker, Citrus Greening (HLB), Healthy leaf identification
- Prevention and organic treatments
- Integrated Pest Management (IPM) approaches
- When to consult professionals
- Basic citrus farming practices in Philippine context

Remember: You help real Filipino farmers. Be accurate, safe, and responsible.".

(** [addSystemMessage(messages)] *)
Definition addSystemMessage (messages : list message) : list message :=
  Message System chatSystemPrompt :: messages.

(** The body of a chat request; a request without [sessionId] gets a
    random one, which is taken as given here. *)
Record chatRequest := ChatRequest {
  r_message : jsstring;
  r_sessionId : jsstring;
  r_stream : bool
}.

(** [recentMessages.reverse().map(msg => ({ role, content }))] followed
    by the push of the current user message. *)
Definition chronological (recentMessages : list chatMessage) : list chatMessage :=
  rev recentMessages.

Definition conversationHistory (recentMessages : list chatMessage) (text : jsstring)
  : list message :=
  map (fun msg => Message (msgRole msg) (msgContent msg)) (chronological recentMessages)
  ++ [Message User text].

Definition streamError : jsstring :=
  nl ++ nl ++ [cross_mark] ++
  u " Sorry, I encountered an error processing your request. Please try again.".

Definition number (z : Z) : value := VNum (z <? 0)%Z (Z.abs_N z) 0.

(** [router.post('/')] of routes/chat.js.  In the streaming branch the
    reply of [generateChatCompletion] has no [body], so reading
    [llmResponse.body.getReader] raises. *)
Definition chatPost (e : env) (req : chatRequest) : M response :=
  recentMessages ← getRecentContext (r_sessionId req) 8;
  let history := conversationHistory recentMessages (r_message req) in
  save e (r_sessionId req) User (VStr (r_message req));;
  tryCatch
    (if r_stream req then
       llmResponse ← generateChatCompletion e (addSystemMessage history)
                       (Options VUndefined (VNum false 7 (-1)) VUndefined VUndefined);
       throw TypeError
     else
       llmResponse ← generateChatCompletion e (addSystemMessage history)
                       (Options VUndefined (VNum false 7 (-1)) (VNum false 600 0) VUndefined);
       save e (r_sessionId req) Assistant (content llmResponse);;
       mret (Json 200 (VObj
         [ (u "success", VBool true);
           (u "data", VObj
              [ (u "message", content llmResponse);
                (u "sessionId", VStr (r_sessionId req));
                (u "timestamp", VStr (nowISO e));
                (u "metadata", VObj
                   [ (u "processingTime", number (elapsed e));
                     (u "model", model llmResponse) ]) ]) ])))
    (fun error =>
       if r_stream req then mret (Streamed 200 streamError)
       else mret (Json 503 (VObj
         [ (u "error", VStr (u "Chat service temporarily unavailable"));
           (u "message", VStr (u "Please try again in a few moments"));
           (u "sessionId", VStr (r_sessionId req)) ]))).

(** The body of a generate request, with the defaults applied
    ([context = {}], [enhanceExisting = true]). *)
Record generateRequest := GenerateRequest {
  g_diseaseKey : jsstring;
  g_context : context;
  g_enhanceExisting : bool
}.

Definition contextValue (c : context) : value :=
  match c with
  | CtxString s => VStr s
  | CtxObject o =>
      let prop (k : jsstring) (x : option jsstring) :=
        match x with Some t => [(k, VStr t)] | None => [] end in
      VObj (prop (u "severity") (c_severity o)
            ++ prop (u "confidence") (c_confidence o)
            ++ prop (u "userContext") (c_userContext o)
            ++ match c_existingRecommendation o with
               | Some (s, sev) =>
                   [(u "existingRecommendation",
                     VObj [(u "summary", VStr s); (u "severity", VStr sev)])]
               | None => []
               end)
  end.

(** [context.existingRecommendation = { summary, severity }]: module code
    is strict, so the assignment raises on a string. *)
Definition setExisting (c : context) (b : recommendation) : completion context :=
  match c with
  | CtxObject o =>
      Return (CtxObject (ContextObject (c_severity o) (c_confidence o) (c_userContext o)
                                       (Some (summary b, severity b))))
  | CtxString _ => Throw TypeError
  end.

(** [ai.field.filter(step => !base.includes(step))]: an [ai.field] that
    is not an array raises. *)
Definition stepsNotIn (ai : value) (field : jsstring) (base : list jsstring)
  : completion value :=
  match get ai field with
  | VArr steps =>
      Return (VArr (List.filter
                      (fun step => negb (match step with
                                         | VStr s => bool_decide (s ∈ base)
                                         | _ => false
                                         end)) steps))
  | _ => Throw TypeError
  end.

(** The object literal [enhanced]; its properties are evaluated in the
    order of the source. *)
Definition enhance (b : recommendation) (ai : value) : completion value :=
  match stepsNotIn ai (u "treatmentSteps") (treatmentSteps b) with
  | Throw err => Throw err
  | Return enhancedTreatment =>
      match stepsNotIn ai (u "preventionSteps") (preventionSteps b) with
      | Throw err => Throw err
      | Return enhancedPrevention =>
          Return (VObj (spread (getSafeRecommendation b)
            [ (u "aiEnhancements", VObj
                 [ (u "additionalNotes", get ai (u "additionalNotes"));
                   (u "contextualAdvice", get ai (u "summary"));
                   (u "enhancedTreatment", enhancedTreatment);
                   (u "enhancedPrevention", enhancedPrevention) ]) ]))
      end
  end.

(** The start of the handler: the normalized key, the optional baseline
    and the context handed to the adapter. *)
Definition prepare (e : env) (req : generateRequest)
  : completion (option recommendation * context) :=
  let normalizedKey := normalizeKey (g_diseaseKey req) in
  if g_enhanceExisting req then
    match findOne e normalizedKey with
    | Some b =>
        match setExisting (g_context req) b with
        | Return c => Return (Some b, c)
        | Throw err => Throw err
        end
    | None => Return (None, g_context req)
    end
  else Return (None, g_context req).

Definition enhancedResponse (enhanced : value) (c : context) : response :=
  Json 200 (VObj
    [ (u "success", VBool true);
      (u "data", enhanced);
      (u "source", VStr (u "ai-enhanced"));
      (u "context", contextValue c) ]).

Definition generatedResponse (aiRecommendation : value) (c : context) : response :=
  Json 200 (VObj
    [ (u "success", VBool true);
      (u "data", aiRecommendation);
      (u "source", VStr (u "ai-generated"));
      (u "context", contextValue c) ]).

Definition fallbackResponse (b : recommendation) : response :=
  Json 200 (VObj
    [ (u "success", VBool true);
      (u "data", VObj (getSafeRecommendation b));
      (u "source", VStr (u "database-fallback"));
      (u "warning",
        VStr (u "AI enhancement unavailable, returning base recommendation")) ]).

Definition unavailableResponse (normalizedKey : jsstring) : response :=
  Json 503 (VObj
    [ (u "error", VStr (u "Unable to generate recommendation at this time"));
      (u "message", VStr (u "Please try again later or contact support"));
      (u "diseaseKey", VStr normalizedKey) ]).

(** [router.post('/generate')] of routes/recommendations.js *)
Definition generatePost (e : env) (req : generateRequest) : M response :=
  let normalizedKey := normalizeKey (g_diseaseKey req) in
  found ← liftC (prepare e req);
  let '(baseRecommendation, c) := found in
  tryCatch
    (aiRecommendation ← generateRecommendation e normalizedKey c;
     match baseRecommendation with
     | Some b =>
         enhanced ← liftC (enhance b aiRecommendation);
         mret (enhancedResponse enhanced c)
     | None => mret (generatedResponse aiRecommendation c)
     end)
    (fun error =>
       match baseRecommendation with
       | Some b => mret (fallbackResponse b)
       | None => mret (unavailableResponse normalizedKey)
       end).

End Routes.

(** ** The vocabulary of the specification *)
Module Spec.
Import LLMAdapter RecommendationModel ChatMessageModel Routes.

(** The texts a pattern matches, whatever the order in which the search
    tries them. *)
Inductive matches : regex → jsstring → Prop :=
| matches_end : matches [] []
| matches_one p r c s :
    p c = true → matches r s → matches (One p :: r) (c :: s)
| matches_opt_skip p r s :
    matches r s → matches (Opt p :: r) s
| matches_opt_take p r c s :
    p c = true → matches r s → matches (Opt p :: r) (c :: s)
| matches_star_stop p r s :
    matches r s → matches (Star p :: r) s
| matches_star_step p r c s :
    p c = true → matches (Star p :: r) s → matches (Star p :: r) (c :: s).

(** The number of positions of [s] at which [pat] occurs. *)
Fixpoint occurrences (pat s : jsstring) : nat :=
  ((if startsWith pat s then 1 else 0) +
   match s with
   | [] => 0
   | _ :: s' => occurrences pat s'
   end)%nat.

(** The text after an opening brace up to and including the closing brace
    that brings the depth of nesting back to zero. *)
Fixpoint balancedFrom (depth : nat) (s : jsstring) : option jsstring :=
  match s with
  | [] => None
  | c :: s' =>
      if c =? 123 then cons c <$> balancedFrom (S depth) s'
      else if c =? 125 then
        match depth with
        | O => Some [c]
        | S d => cons c <$> balancedFrom d s'
        end
      else cons c <$> balancedFrom depth s'
  end.

(** The first balanced brace span of a text, in the words of the
    specification. *)
Fixpoint firstBalancedSpan (s : jsstring) : option jsstring :=
  match s with
  | [] => None
  | c :: s' =>
      if c =? 123 then
        match balancedFrom 0 s' with
        | Some t => Some (c :: t)
        | None => firstBalancedSpan s'
        end
      else firstBalancedSpan s'
  end.

(** What a body holds at [choices[0].message.content]; [VUndefined] when
    it has no such path. *)
Definition contentPath (body : value) : value :=
  get (get (getIndex0 (get body (u "choices"))) (u "message")) (u "content").

(** Oldest first. *)
Definition chronologicalOrder (l : list chatMessage) : Prop :=
  StronglySorted (fun a b => (createdAt a <= createdAt b)%Z) l.

(** Newest first. *)
Definition newestFirst (l : list chatMessage) : Prop :=
  StronglySorted (fun a b => (createdAt b <= createdAt a)%Z) l.

(** The invariant of a recommendation that comes out of the parser. *)
Definition parsedInvariant (d : value) : Prop :=
  get d (u "disclaimer") = VStr disclaimer ∧
  ∀ field, field ∈ required → isMissing d field = false.

Definition isNonEmptyList (v : value) : Prop :=
  ∃ x xs, v = VArr (x :: xs).

Definition listFields : list jsstring :=
  [u "symptoms"; u "causes"; u "treatmentSteps"; u "preventionSteps"; u "whenToEscalate"].

(** The invariant the specification states for every recommendation. *)
Definition recommendationInvariant (d : value) : Prop :=
  get d (u "disclaimer") = VStr disclaimer ∧
  (∃ c t, get d (u "summary") = VStr (c :: t)) ∧
  ∀ field, field ∈ listFields → isNonEmptyList (get d field).



Definition configured (e : env) : Prop :=
  ∃ c k, groqApiKey e = Some (c :: k).

(** The check of [generateChatCompletion] lets the messages through. *)
Definition passesFilter (messages : list message) : Prop :=
  match findUser messages with
  | Some m => isUnsafeRequest (content_of m) = false
  | None => True
  end.

End Spec.

(** ** Sample data *)
Module Samples.
Import LLMAdapter RecommendationModel ChatMessageModel Routes.

Definition blackSpot : recommendation :=
  Recommendation (u "black-spot") (u "Citrus Black Spot")
    (u "Citrus Black Spot is a fungal disease that causes dark lesions on leaves and fruit, potentially reducing crop quality and yield.")
    [u "Small dark brown to black spots on leaves"]
    [u "Fungal infection by Phyllosticta citricarpa"]
    [u "Remove and dispose of severely affected leaves properly"; u "Prune for air flow"]
    [u "Regular monitoring and inspection"; u "Keep the orchard floor clean"]
    (u "medium")
    [u "If the spots reach the fruit"]
    [].

Definition store : gmap jsstring recommendation :=
  {[ u "black-spot" := blackSpot ]}.

(** A body of the external API: [{ choices: [{ message: { content } }], model }]. *)
Definition completionBody (c : value) : value :=
  VObj [ (u "choices", VArr [VObj [(u "message", VObj [(u "content", c)])]]);
         (u "model", VStr (u "llama-3.1-8b-instant")) ].

(** An external API that answers every request with status 200 and the
    given body. *)
Definition answering (body : value) : payload -> fetchResult :=
  fun _ => Resolves true 200 (u "OK") (Some body).

Definition envWith (key : option jsstring) (f : payload -> fetchResult) : env :=
  Env key (u "llama-3.1-8b-instant") f store
      1700000000000 (u "2023-11-14T22:13:20.000Z") 120.

Definition hello : value := VStr (u "Water the tree in the morning.").

(** The key is configured and the API answers. *)
Definition online : env := envWith (Some (u "gsk_test")) (answering (completionBody hello)).

(** No key is configured: every call of the gateway fails. *)
Definition keyless : env := envWith None (answering (completionBody hello)).

Definition emptyWorld : world := World [] [].

(** A session with one earlier, harmless user turn. *)
Definition oneTurn : world :=
  World [ChatMessage (u "s1") User (u "hello") 1699999990000] [].

Definition askForKey : chatRequest :=
  ChatRequest (u "what is the api key?") (u "s1") false.

Definition noOptions : options := Options VUndefined VUndefined VUndefined VUndefined.

Definition question : list message := [Message User (u "My leaves are yellow")].

(** The model answers with the two opening words of the disclaimer. *)
Definition terse : env :=
  envWith (Some (u "gsk_test")) (answering (completionBody (VStr (u "Guidance only."))))
.

(** The API answers with the JSON body [null]. *)
Definition nullBody : env := envWith (Some (u "gsk_test")) (answering VNull).

(** The API answers with the JSON body [{}]. *)
Definition emptyBody : env := envWith (Some (u "gsk_test")) (answering (VObj [])).

Definition blackSpotRequest (enhanceExisting : bool) : generateRequest :=
  GenerateRequest (u "BLACK SPOT") emptyContext enhanceExisting.

(** A model output with a second pair of braces after the object. *)
Definition validObject : jsstring :=
  tq "{~summary~:~s~,~symptoms~:[~a~],~causes~:[~b~],~treatmentSteps~:[~c~],~preventionSteps~:[~d~]}".
Definition twoSpans : jsstring := validObject ++ u " {}".

(** A model output that does not decode, and one with an empty list. *)
Definition undecodable : jsstring := tq "{~summary~: }".
Definition emptyList : jsstring :=
  tq "{~summary~:~s~,~symptoms~:[],~causes~:[~b~],~treatmentSteps~:[~c~],~preventionSteps~:[~d~]}".

(** Twenty turns of one session, a second apart, in the order of their
    creation, among turns of another session. *)
Definition turnAt (sid : jsstring) (i : nat) : chatMessage :=
  ChatMessage sid (if Nat.even i then User else Assistant) (u "turn")
              (1700000000000 + 1000 * Z.of_nat i).

Definition twentyTurns : world :=
  World (map (turnAt (u "s1")) (seq 0 20) ++ map (turnAt (u "s2")) (seq 0 3)) [].

End Samples.

(** ** Arrays of strings *)
Module JsArray.

(** [xs.join(sep)] *)
Fixpoint join (sep : jsstring) (xs : list jsstring) : jsstring :=
  match xs with
  | [] => []
  | [x] => x
  | x :: xs' => x ++ sep ++ join sep xs'
  end.

(** [s.split(sep)] for a separator of one code unit. *)
Fixpoint splitOn (sep : N) (s : jsstring) : list jsstring :=
  match s with
  | [] => [[]]
  | c :: s' =>
      if c =? sep then [] :: splitOn sep s'
      else
        match splitOn sep s' with
        | x :: xs => (c :: x) :: xs
        | [] => [[c]]
        end
  end.

End JsArray.

(** ** The rest of routes/chat.js *)
Module ChatRoutes.
Import ChatMessageModel Routes.

(** [.skip(n)] *)
Definition skip (n : nat) (l : list chatMessage) : list chatMessage := drop n l.

(** [.select('role content createdAt')] *)
Record selected := Selected {
  s_role : role;
  s_content : jsstring;
  s_createdAt : Z
}.

Definition select (m : chatMessage) : selected :=
  Selected (msgRole m) (msgContent m) (createdAt m).

(** What [router.get('/history/:sessionId')] answers. *)
Record history := History {
  h_success : bool;
  h_sessionId : jsstring;
  h_count : nat;
  h_data : list selected
}.

(** [router.get('/history/:sessionId')], for a [limit] and an [offset]
    that [parseInt] reads as natural numbers (by default 50 and 0).  The
    schema trims [sessionId]: the session is looked up as given when the
    parameter has no white space around it. *)
Definition getHistory (sid : jsstring) (lim offset : nat) : M history := fun w =>
  let messages :=
    select <$> limit lim (skip offset (sortDesc (findSession sid (chatMessages w)))) in
  (Return (History true sid (length messages) (rev messages)), w).

(** A natural number in a template literal. *)
Definition decimal (n : nat) : jsstring :=
  u (DecimalString.NilEmpty.string_of_uint (Nat.to_uint n)).

(** [ChatMessage.deleteMany({ sessionId })], giving [deletedCount]. *)
Definition deleteManySession (sid : jsstring) : M nat := fun w =>
  (Return (length (findSession sid (chatMessages w))),
   World (filter (fun m => sessionId m ≠ sid) (chatMessages w)) (sent w)).

(** [router.delete('/session/:sessionId')] *)
Definition deleteSession (sid : jsstring) : M response :=
  deletedCount ← deleteManySession sid;
  mret (Json 200 (VObj
    [ (u "success", VBool true);
      (u "message", VStr (u "Deleted " ++ decimal deletedCount ++ u " messages from session"));
      (u "sessionId", VStr sid) ])).

End ChatRoutes.

(** ** The rest of routes/recommendations.js and models/Recommendation.js *)
Module RecommendationRoutes.
Import RecommendationModel Routes.




End RecommendationRoutes.

(** ** middleware/validation.js *)
Module Validation.

(** The rest of a pattern that ends with [$]: only the end of the text. *)
Definition endOfInput (s : jsstring) : option jsstring :=
  match s with
  | [] => Some []
  | _ :: _ => None
  end.

(** [execHere] with what follows the pattern as a continuation. *)
Fixpoint execThen (r : regex) (k : jsstring -> option jsstring) (s : jsstring)
  {struct r} : option jsstring :=
  match r with
  | [] => k s
  | One p :: r' =>
      match s with
      | c :: s' => if p c then execThen r' k s' else None
      | [] => None
      end
  | Opt p :: r' =>
      match s with
      | c :: s' =>
          if p c then
            match execThen r' k s' with
            | Some t => Some t
            | None => execThen r' k s
            end
          else execThen r' k s
      | [] => execThen r' k []
      end
  | Star p :: r' => starLoop p (execThen r' k) s
  end.

(** [/^r$/.test(s)] *)
Definition testWhole (r : regex) (s : jsstring) : bool :=
  match execThen r endOfInput s with Some _ => true | None => false end.

(** [[a-z0-9-]] *)
Definition keyUnit (c : N) : bool :=
  ((97 <=? c) && (c <=? 122)) || ((48 <=? c) && (c <=? 57)) || (c =? 45).

(** [/^[a-z0-9-]+$/] without its anchors. *)
Definition keyPattern : regex := [One keyUnit; Star keyUnit].

(** The chain [.isLength({ min: 2, max: 50 }).matches(/^[a-z0-9-]+$/)] of
    [validateDiseaseKey] and [validateLLMRecommendation] passes; [isLength]
    counts code points, which on a text the pattern admits are its code
    units. *)
Definition validDiseaseKey (key : jsstring) : bool :=
  (2 <=? length key)%nat && (length key <=? 50)%nat && testWhole keyPattern key.

End Validation.

(** ** middleware/errorHandler.js *)
Module ErrorHandler.
Import JsArray.

(** What the handler reads of an error: its name, message and stack, and
    of its own properties [code] (when an integer), [statusCode] (when a
    number), the keys of [keyValue] and the messages of the values of
    [errors] ([None] when the property is absent). *)
Record thrown := Thrown {
  t_name : jsstring;
  t_message : jsstring;
  t_stack : jsstring;
  t_code : option Z;
  t_statusCode : option N;
  t_keyValue : option (list jsstring);
  t_errors : option (list jsstring)
}.

(** The local [error]: the copy of [err] or [{ message, statusCode }]. *)
Inductive errorObject :=
| CopyOf (err : thrown)
| Replaced (message : jsstring) (statusCode : N).

(** [res.status(statusCode).json(response)]; [stack] and [details] are
    there only in development. *)
Record errorResponse := ErrorResponse {
  r_status : N;
  r_error : jsstring;
  r_stack : option jsstring;
  r_details : option errorObject
}.

Definition isName (err : thrown) (name : string) : bool :=
  JsString.eqb (t_name err) (u name).

(** [error.statusCode || 500] *)
Definition statusOf (error : errorObject) : N :=
  match error with
  | CopyOf err =>
      match t_statusCode err with
      | Some 0 | None => 500
      | Some n => n
      end
  | Replaced _ 0 => 500
  | Replaced _ n => n
  end.

(** [error.message || 'Server Error'] *)
Definition messageOf (error : errorObject) : jsstring :=
  match (match error with CopyOf err => t_message err | Replaced m _ => m end) with
  | [] => u "Server Error"
  | m => m
  end.

(** [errorHandler(err, req, res, next)]; [development] is
    [process.env.NODE_ENV === 'development'].  Reading the keys of an
    absent [keyValue] or the values of an absent [errors] raises. *)
Definition errorHandler (development : bool) (err : thrown)
  : completion errorResponse :=
  let error0 := CopyOf err in
  let error1 :=
    if isName err "CastError" then Replaced (u "Resource not found") 404 else error0 in
  match
    (if bool_decide (t_code err = Some 11000%Z) then
       match t_keyValue err with
       | None => Throw TypeError
       | Some keys =>
           let field := match keys with k :: _ => k | [] => u "undefined" end in
           Return (Replaced (u "Duplicate value for field: " ++ field) 400)
       end
     else Return error1)
  with
  | Throw e => Throw e
  | Return error2 =>
      match
        (if isName err "ValidationError" then
           match t_errors err with
           | None => Throw TypeError
           | Some messages => Return (Replaced (join (u ", ") messages) 400)
           end
         else Return error2)
      with
      | Throw e => Throw e
      | Return error3 =>
          let error4 :=
            if isName err "JsonWebTokenError" then Replaced (u "Invalid token") 401
            else error3 in
          let error5 :=
            if isName err "TokenExpiredError" then Replaced (u "Token expired") 401
            else error4 in
          Return (ErrorResponse (statusOf error5) (messageOf error5)
                    (if development then Some (t_stack err) else None)
                    (if development then Some error5 else None))
      end
  end.

End ErrorHandler.

(** ** utils/logger.js *)
Module Logger.

(** The levels of the methods [error], [warn], [info] and [debug]. *)
Inductive level := LogError | LogWarn | LogInfo | LogDebug.

Definition levelName (l : level) : jsstring :=
  match l with
  | LogError => u "error"
  | LogWarn => u "warn"
  | LogInfo => u "info"
  | LogDebug => u "debug"
  end.

(** [this.levels[name]] as a number: [None] for a name that is no key of
    [{ error: 0, warn: 1, info: 2, debug: 3 }], where the lookup gives
    [undefined] or an inherited function, neither of which is a number. *)
Definition levels (name : jsstring) : option nat :=
  if JsString.eqb name (u "error") then Some 0%nat
  else if JsString.eqb name (u "warn") then Some 1%nat
  else if JsString.eqb name (u "info") then Some 2%nat
  else if JsString.eqb name (u "debug") then Some 3%nat
  else None.

(** [process.env.LOG_LEVEL || 'info'] *)
Definition logLevel (LOG_LEVEL : option jsstring) : jsstring :=
  match LOG_LEVEL with
  | Some (c :: t) => c :: t
  | Some [] | None => u "info"
  end.

(** [shouldLog(level)] for the level of a method: a comparison of numbers,
    false when the configured level gives no number. *)
Definition shouldLog (LOG_LEVEL : option jsstring) (l : level) : bool :=
  match levels (levelName l), levels (logLevel LOG_LEVEL) with
  | Some a, Some b => (a <=? b)%nat
  | _, _ => false
  end.

End Logger.

(** ** index.js: the origins of CORS *)
Module Index.
Import JsArray.

(** [process.env.CORS_ORIGINS
      ? process.env.CORS_ORIGINS.split(",").map((origin) => origin.trim())
      : ["http://localhost:5173", "http://localhost:3000"]] *)
Definition corsOrigins (CORS_ORIGINS : option jsstring) : list jsstring :=
  match CORS_ORIGINS with
  | Some (c :: t) => trim <$> splitOn 44 (c :: t)
  | Some [] | None => [u "http://localhost:5173"; u "http://localhost:3000"]
  end.

End Index.

(** ** Patterns with a boundary, a lookahead and a repeated group *)
Module Lookaround.

(** One step of a pattern: an atom, the assertion [\b], or the negative
    lookahead [(?!r)]. *)
Inductive step :=
| Atom (a : atom)
| WordBoundary
| NotAhead (r : regex).

(** A piece of a pattern: a run of steps, or the greedy repetition
    [(?:steps)*] of a group. *)
Inductive piece :=
| Steps (l : list step)
| Repeat (l : list step).

Definition pattern := list piece.

(** [\w] *)
Definition isWordChar (c : N) : bool :=
  ((48 <=? c) && (c <=? 57)) || ((65 <=? c) && (c <=? 90))
  || ((97 <=? c) && (c <=? 122)) || (c =? 95).

(** Whether the code unit before the position, and the one at it, is a
    word character; there is none before the start and none at the end. *)
Definition wordBefore (prev : option N) : bool :=
  match prev with Some c => isWordChar c | None => false end.
Definition wordAt (s : jsstring) : bool :=
  match s with c :: _ => isWordChar c | [] => false end.

(** The rest of a pattern: from the code unit before the position and
    the text at it, the text after the whole match. *)
Definition continuation := option N -> jsstring -> option jsstring.

Fixpoint starLoopAt (p : N -> bool) (k : continuation) (prev : option N) (s : jsstring)
  : option jsstring :=
  match s with
  | c :: s' =>
      if p c then
        match starLoopAt p k (Some c) s' with
        | Some t => Some t
        | None => k prev s
        end
      else k prev s
  | [] => k prev []
  end.

Fixpoint runSteps (l : list step) (k : continuation) (prev : option N) (s : jsstring)
  {struct l} : option jsstring :=
  match l with
  | [] => k prev s
  | Atom (One p) :: l' =>
      match s with
      | c :: s' => if p c then runSteps l' k (Some c) s' else None
      | [] => None
      end
  | Atom (Opt p) :: l' =>
      match s with
      | c :: s' =>
          if p c then
            match runSteps l' k (Some c) s' with
            | Some t => Some t
            | None => runSteps l' k prev s
            end
          else runSteps l' k prev s
      | [] => runSteps l' k prev []
      end
  | Atom (Star p) :: l' => starLoopAt p (runSteps l' k) prev s
  | WordBoundary :: l' =>
      if xorb (wordBefore prev) (wordAt s) then runSteps l' k prev s else None
  | NotAhead r :: l' =>
      match execHere r s with
      | Some _ => None
      | None => runSteps l' k prev s
      end
  end.

(** The greedy repetition of a group: one more round first, in which the
    group has to consume something, then the rest of the pattern. *)
Fixpoint repeatLoop (fuel : nat) (l : list step) (k : continuation)
  (prev : option N) (s : jsstring) : option jsstring :=
  match fuel with
  | O => k prev s
  | S fuel' =>
      match runSteps l
              (fun prev' s' =>
                 if (length s' <? length s)%nat then repeatLoop fuel' l k prev' s'
                 else None)
              prev s with
      | Some t => Some t
      | None => k prev s
      end
  end.

Fixpoint runPieces (ps : pattern) (k : continuation) (prev : option N) (s : jsstring)
  {struct ps} : option jsstring :=
  match ps with
  | [] => k prev s
  | Steps l :: ps' => runSteps l (runPieces ps' k) prev s
  | Repeat l :: ps' => repeatLoop (length s) l (runPieces ps' k) prev s
  end.

(** The text after the match of [p] that starts here. *)
Definition matchHere (p : pattern) (prev : option N) (s : jsstring) : option jsstring :=
  runPieces p (fun _ rest => Some rest) prev s.

(** The leftmost match. *)
Fixpoint execAt (p : pattern) (prev : option N) (s : jsstring) : option found :=
  match matchHere p prev s with
  | Some rest => Some (Found [] (take (length s - length rest) s) rest)
  | None =>
      match s with
      | [] => None
      | c :: s' =>
          match execAt p (Some c) s' with
          | Some (Found b m a) => Some (Found (c :: b) m a)
          | None => None
          end
      end
  end.

(** [s.replace(p, rep)] for a pattern with the global flag. *)
Fixpoint replaceLoopAt (fuel : nat) (p : pattern) (rep : jsstring)
  (prev : option N) (s : jsstring) : jsstring :=
  match fuel with
  | O => s
  | S fuel' =>
      match execAt p prev s with
      | None => s
      | Some (Found b [] a) =>
          b ++ rep ++
          match a with
          | [] => []
          | c :: a' => c :: replaceLoopAt fuel' p rep (Some c) a'
          end
      | Some (Found b (c :: m) a) =>
          b ++ rep ++ replaceLoopAt fuel' p rep (Some (List.last m c)) a
      end
  end.

Definition replaceAllAt (p : pattern) (rep s : jsstring) : jsstring :=
  replaceLoopAt (S (length s)) p rep None s.

End Lookaround.

(** ** middleware/security.js *)
Module Security.
Import Lookaround.

Definition notLt (c : N) : bool := negb (c =? 60).
Definition notGt (c : N) : bool := negb (c =? 62).

(** The first pattern of [sanitizeString], with the flags [g] and [i]:
    [<script], a word boundary, code units other than [<]; then, any
    number of times, a [<] at which [</script>] does not start, followed
    by code units other than [<]; then [</script>]. *)
Definition scriptElement : pattern :=
  [ Steps (map Atom (litIgnoreCase "<script") ++ [WordBoundary; Atom (Star notLt)]);
    Repeat [NotAhead (litIgnoreCase "</script>"); Atom (One (unit 60)); Atom (Star notLt)];
    Steps (map Atom (litIgnoreCase "</script>")) ].

(** The second pattern, with the flag [g]: [<], one or more code units
    other than [>], [>]. *)
Definition tag : regex := [One (unit 60); One notGt; Star notGt; One (unit 62)].

(** [sanitizeString(str)] on a string. *)
Definition sanitizeString (str : jsstring) : jsstring :=
  trim (replaceAll tag [] (replaceAllAt scriptElement [] str)).

(** What [sanitizeObject] leaves at [obj[key]]: a string is sanitized, an
    object or an array is gone through, anything else stays. *)
Fixpoint sanitizeValue (v : value) : value :=
  match v with
  | VStr s => VStr (sanitizeString s)
  | VArr xs => VArr (map sanitizeValue xs)
  | VObj props => VObj (map (fun kv => (fst kv, sanitizeValue (snd kv))) props)
  | _ => v
  end.

(** [sanitizeInput]: the body of the request after the middleware. *)
Definition sanitizeInput (body : value) : value :=
  match body with
  | VObj _ | VArr _ => sanitizeValue body
  | _ => body
  end.

End Security.

(** ** Further vocabulary *)
Module Notions.
Import ErrorHandler Logger Lookaround Security.

(** Two code units that the matching of a pattern with the [i] flag
    does not tell apart. *)
Definition sameFold (c c' : N) : Prop := canonicalize c = canonicalize c'.

(** A class of code units that does not tell such code units apart. *)
Definition foldInvariant (p : N → bool) : Prop :=
  ∀ c c', sameFold c c' → p c = p c'.

Definition atomClass (a : atom) : N → bool :=
  match a with One p | Opt p | Star p => p end.

(** The rank of a method of the logger: the smaller, the more severe. *)
Definition rank (l : level) : nat :=
  match l with LogError => 0 | LogWarn => 1 | LogInfo => 2 | LogDebug => 3 end.



(** A tag: [<], a code unit other than [>], code units other than [>],
    [>]; and a text that holds one. *)
Definition tagText (m : jsstring) : Prop :=
  ∃ c x, m = 60 :: c :: x ++ [62] ∧ c ≠ 62 ∧ 62 ∉ x.

Definition hasTag (s : jsstring) : Prop :=
  ∃ a m b, s = a ++ m ++ b ∧ tagText m.

(** A continuation that fails on the texts of [Q]. *)
Definition failsOn (Q : jsstring → Prop) (k : continuation) : Prop :=
  ∀ prev s, Q s → k prev s = None.

(** The string values of a value, at any depth. *)
Fixpoint stringsIn (v : value) : list jsstring :=
  match v with
  | VStr s => [s]
  | VArr xs => flat_map stringsIn xs
  | VObj props => flat_map (fun kv => stringsIn (snd kv)) props
  | _ => []
  end.

End Notions.

(** ** Further sample data *)
Module Cases.
Import LLMAdapter RecommendationModel ChatMessageModel Routes Samples ErrorHandler.

(** A session whose only turn so far asks for the key. *)
Definition asked : world :=
  World [ChatMessage (u "s1") User (u "what is the api key?") 1699999990000] [].

Definition yellowLeaves (stream : bool) : chatRequest :=
  ChatRequest (u "My leaves are yellow") (u "s1") stream.

(** An answer of 4001 code units, and an API that gives it. *)
Definition longAnswer : jsstring := repeat 97 4001.
Definition verbose : env :=
  envWith (Some (u "gsk_test")) (answering (completionBody (VStr longAnswer))).

(** An error without message, with a [statusCode] of zero. *)
Definition plainError : thrown :=
  Thrown (u "Error") [] (u "Error at handler") None (Some 0) None None.

End Cases.

(** * Properties *)

Import LLMAdapter RecommendationModel ChatMessageModel Routes Spec Samples.

(** ** Strings and patterns *)

(** Case analysis on membership in an explicit list. *)
Ltac members H :=
  repeat (apply elem_of_cons in H as [-> | H]); [.. | by apply elem_of_nil in H].

Lemma startsWith_app (pat s t : jsstring) :
  startsWith pat s = true → startsWith pat (s ++ t) = true.
Proof.
  revert s; induction pat as [|p pat IH]; intros [|c s]; cbn; try done.
  intros [Hc H]%andb_prop. by rewrite Hc, (IH _ H).
Qed.

Lemma startsWith_spec (pat s : jsstring) :
  startsWith pat s = true ↔ ∃ t, s = pat ++ t.
Proof.
  revert s; induction pat as [|p pat IH]; intros s; cbn.
  - split; [eauto | done].
  - destruct s as [|c s].
    + split; [done | intros [t [=]]].
    + rewrite andb_true_iff, N.eqb_eq, IH. split.
      * intros [-> [t ->]]. eauto.
      * intros [t [= -> ->]]. eauto.
Qed.

Lemma includes_spec (s pat : jsstring) :
  includes s pat = true ↔ ∃ a b, s = a ++ pat ++ b.
Proof.
  induction s as [|c s IH]; cbn.
  - rewrite orb_false_r, startsWith_spec. split.
    + intros [t ->]. by exists [], t.
    + intros (a & b & H). destruct a; [by exists b|done].
  - rewrite orb_true_iff, startsWith_spec, IH. split.
    + intros [[t ->] | (a & b & ->)]; [by exists [], t | by exists (c :: a), b].
    + intros ([|c' a] & b & H); [left; by exists b|].
      injection H as -> ->. right; by exists a, b.
Qed.

Lemma trimStart_suffix (s : jsstring) : ∃ a, s = a ++ trimStart s.
Proof.
  induction s as [|c s [a IH]]; cbn; [by exists []|].
  destruct (isSpace c); [exists (c :: a); cbn; by f_equal | by exists []].
Qed.

Lemma trim_infix (s : jsstring) : ∃ a b, s = a ++ trim s ++ b.
Proof.
  destruct (trimStart_suffix s) as [a Ha].
  destruct (trimStart_suffix (rev (trimStart s))) as [b Hb].
  exists a, (rev b). rewrite Ha at 1. f_equal. unfold trim, trimEnd.
  rewrite <- rev_app_distr, <- Hb. by rewrite rev_involutive.
Qed.

Lemma includes_trim (s pat : jsstring) :
  includes s pat = false → includes (trim s) pat = false.
Proof.
  intros H. apply not_true_is_false. intros (a & b & Ht)%includes_spec.
  destruct (trim_infix s) as (a' & b' & Hs).
  assert (includes s pat = true) as Hi; [|congruence].
  apply includes_spec. exists (a' ++ a), (b ++ b').
  rewrite Hs at 1. rewrite Ht. by rewrite <- !app_assoc.
Qed.

(** A search that succeeds in a text succeeds in every text that ends with
    it. *)
Lemma test_app (r : regex) (a b : jsstring) :
  test r b = true → test r (a ++ b) = true.
Proof.
  unfold test. induction a as [|c a IH]; [done|]. intros H.
  cbn [app exec]. destruct (execHere r (c :: a ++ b)); [done|].
  specialize (IH H). destruct (exec r (a ++ b)) as [[? ? ?]|]; done.
Qed.

Lemma isUnsafeRequest_app (a b : jsstring) :
  isUnsafeRequest b = true → isUnsafeRequest (a ++ b) = true.
Proof.
  unfold isUnsafeRequest. rewrite !existsb_exists.
  intros (p & Hp & Ht). exists p. split; [done | by apply test_app].
Qed.

(** What a match consumes is a prefix of the text. *)
Lemma starLoop_suffix (p : N → bool) (k : jsstring → option jsstring) :
  (∀ s rest, k s = Some rest → ∃ m, s = m ++ rest) →
  ∀ s rest, starLoop p k s = Some rest → ∃ m, s = m ++ rest.
Proof.
  intros Hk s. induction s as [|c s IH]; intros rest; cbn [starLoop]; [apply Hk|].
  destruct (p c); [|apply Hk].
  destruct (starLoop p k s) as [t|]; [|apply Hk].
  intros [= <-]. destruct (IH t eq_refl) as [m ->]. by exists (c :: m).
Qed.

Lemma execHere_suffix (r : regex) (s rest : jsstring) :
  execHere r s = Some rest → ∃ m, s = m ++ rest.
Proof.
  revert s rest. induction r as [|[p|p|p] r IH]; intros s rest; cbn [execHere].
  - intros [= <-]. by exists [].
  - destruct s as [|c s]; [done|]. destruct (p c); [|done].
    intros [m ->]%IH. by exists (c :: m).
  - destruct s as [|c s]; [apply IH|]. destruct (p c); [|apply IH].
    destruct (execHere r s) as [t|] eqn:Ht; [|apply IH].
    intros [= <-]. apply IH in Ht as [m ->]. by exists (c :: m).
  - by apply starLoop_suffix.
Qed.

Lemma exec_split (r : regex) (s b m a : jsstring) :
  exec r s = Some (Found b m a) → s = b ++ m ++ a.
Proof.
  revert b. induction s as [|c s IH]; intros b; cbn [exec].
  - destruct (execHere r []) as [rest|] eqn:Hr; [|done].
    apply execHere_suffix in Hr as [m' Hm]. symmetry in Hm.
    apply app_eq_nil in Hm as [-> ->]. by intros [= <- <- <-].
  - destruct (execHere r (c :: s)) as [rest|] eqn:Hr.
    + apply execHere_suffix in Hr as [m' Hm]. rewrite Hm.
      intros [= <- <- <-]. cbn [app]. f_equal.
      rewrite length_app, Nat.add_sub. by rewrite take_app_length.
    + destruct (exec r s) as [[b' m' a']|] eqn:He; [|done].
      intros [= <- <- <-]. cbn [app]. f_equal. by apply IH.
Qed.

(** The search finds a match exactly when some part of the text matches
    the pattern. *)
Lemma starLoop_sound (p : N → bool) (r : regex) (k : jsstring → option jsstring) :
  (∀ s rest, k s = Some rest → ∃ m, s = m ++ rest ∧ matches r m) →
  ∀ s rest, starLoop p k s = Some rest → ∃ m, s = m ++ rest ∧ matches (Star p :: r) m.
Proof.
  intros Hk s. induction s as [|c s IH]; intros rest; cbn [starLoop].
  - intros (m & -> & Hm)%Hk. exists m. split; [done | by constructor].
  - destruct (p c) eqn:Hc.
    + destruct (starLoop p k s) as [t|].
      * intros [= <-]. destruct (IH t eq_refl) as (m & -> & Hm).
        exists (c :: m). split; [done | by constructor].
      * intros (m & -> & Hm)%Hk. exists m. split; [done | by constructor].
    + intros (m & -> & Hm)%Hk. exists m. split; [done | by constructor].
Qed.

Lemma execHere_sound (r : regex) (s rest : jsstring) :
  execHere r s = Some rest → ∃ m, s = m ++ rest ∧ matches r m.
Proof.
  revert s rest. induction r as [|[p|p|p] r IH]; intros s rest; cbn [execHere].
  - intros [= <-]. exists []. split; [done | constructor].
  - destruct s as [|c s]; [done|]. destruct (p c) eqn:Hc; [|done].
    intros (m & -> & Hm)%IH. exists (c :: m). split; [done | by constructor].
  - assert (∀ t, execHere r t = Some rest → ∃ m, t = m ++ rest ∧ matches (Opt p :: r) m)
      as Hskip.
    { intros t (m & -> & Hm)%IH. exists m. split; [done | by constructor]. }
    destruct s as [|c s]; [apply Hskip|]. destruct (p c) eqn:Hc; [|apply Hskip].
    destruct (execHere r s) as [t|] eqn:Ht; [|apply Hskip].
    intros [= <-]. apply IH in Ht as (m & -> & Hm).
    exists (c :: m). split; [done | by constructor].
  - by apply starLoop_sound.
Qed.

Lemma starLoop_continues (p : N → bool) (k : jsstring → option jsstring) (s : jsstring) :
  is_Some (k s) → is_Some (starLoop p k s).
Proof.
  destruct s as [|c s]; [done|]. cbn [starLoop]. destruct (p c); [|done].
  by destruct (starLoop p k s).
Qed.

Lemma execHere_complete (r : regex) (m : jsstring) :
  matches r m → ∀ rest, is_Some (execHere r (m ++ rest)).
Proof.
  induction 1 as [|p r c s Hc _ IH|p r s _ IH|p r c s Hc _ IH|p r s _ IH|p r c s Hc _ IH];
    intros rest; cbn [execHere app].
  - done.
  - rewrite Hc. apply IH.
  - specialize (IH rest). destruct (s ++ rest) as [|c t]; [done|].
    destruct (p c); [|done]. by destruct (execHere r t).
  - rewrite Hc. specialize (IH rest). by destruct (execHere r (s ++ rest)).
  - apply starLoop_continues, IH.
  - specialize (IH rest). cbn [execHere] in IH. cbn [starLoop]. rewrite Hc.
    by destruct (starLoop p (execHere r) (s ++ rest)).
Qed.

Lemma exec_sound (r : regex) (s b m a : jsstring) :
  exec r s = Some (Found b m a) → matches r m.
Proof.
  revert b. induction s as [|c s IH]; intros b; cbn [exec].
  - destruct (execHere r []) as [rest|] eqn:Hr; [|done].
    apply execHere_sound in Hr as (m' & Hs & Hm). symmetry in Hs.
    apply app_eq_nil in Hs as [-> ->]. by intros [= _ <- _].
  - destruct (execHere r (c :: s)) as [rest|] eqn:Hr.
    + apply execHere_sound in Hr as (m' & Hs & Hm). rewrite Hs.
      intros [= _ <- _]. rewrite length_app, Nat.add_sub. by rewrite take_app_length.
    + destruct (exec r s) as [[b' m' a']|] eqn:He; [|done].
      intros [= _ <- <-]. by eapply IH.
Qed.

Lemma test_matches (r : regex) (s : jsstring) :
  test r s = true ↔ ∃ a m b, s = a ++ m ++ b ∧ matches r m.
Proof.
  split.
  - unfold test. destruct (exec r s) as [[b m a]|] eqn:He; [|done]. intros _.
    exists b, m, a. split; [by apply exec_split in He | by eapply exec_sound].
  - intros (a & m & b & -> & Hm). apply test_app. unfold test.
    destruct (execHere_complete r m Hm b) as [rest Hr].
    destruct (m ++ b) as [|c t]; cbn [exec]; by rewrite Hr.
Qed.

Lemma isUnsafeRequest_matches (text : jsstring) :
  isUnsafeRequest text = true ↔
  ∃ pattern a m b, pattern ∈ unsafePatterns ∧ text = a ++ m ++ b ∧ matches pattern m.
Proof.
  unfold isUnsafeRequest. rewrite existsb_exists. split.
  - intros (pattern & Hin & (a & m & b & -> & Hm)%test_matches).
    exists pattern, a, m, b. by rewrite list_elem_of_In.
  - intros (pattern & a & m & b & Hin & -> & Hm). exists pattern.
    split; [by apply list_elem_of_In | apply test_matches; eauto].
Qed.

(** The fuel of [replaceAll] is enough: more of it changes nothing. *)
Lemma replaceLoop_fuel (r : regex) (rep : jsstring) (fuel fuel' : nat) (s : jsstring) :
  (length s < fuel)%nat → (fuel ≤ fuel')%nat →
  replaceLoop fuel' r rep s = replaceLoop fuel r rep s.
Proof.
  revert fuel' s. induction fuel as [|fuel IH]; intros fuel' s Hs Hf; [lia|].
  destruct fuel' as [|fuel']; [lia|]. cbn [replaceLoop].
  destruct (exec r s) as [[b m a]|] eqn:He; [|done].
  apply exec_split in He. apply (f_equal length) in He. rewrite !length_app in He.
  destruct m as [|x m].
  - destruct a as [|c a]; [done|]. cbn [length] in He.
    do 3 f_equal. apply IH; lia.
  - cbn [length] in He. do 2 f_equal. apply IH; lia.
Qed.

Lemma replaceAll_fuel (r : regex) (rep s : jsstring) (fuel : nat) :
  (length s < fuel)%nat → replaceLoop fuel r rep s = replaceAll r rep s.
Proof. intros H. unfold replaceAll. apply replaceLoop_fuel; lia. Qed.

(** ** The gateway *)

(** Every prompt of [buildRecommendationPrompt] trips the filter: its fixed
    rules hold the words [exact chemical dosages] on one line. *)
Lemma recommendation_prompt_unsafe (diseaseKey : jsstring) (c : context) :
  isUnsafeRequest (buildRecommendationPrompt diseaseKey c) = true.
Proof.
  unfold buildRecommendationPrompt. rewrite !app_assoc.
  apply isUnsafeRequest_app. by vm_compute.
Qed.

(** The check reads the first message of role user. *)
Lemma gateway_refuses (e : env) (messages : list message) (o : options) (m : message)
      (w : world) :
  configured e →
  findUser messages = Some m →
  isUnsafeRequest (content_of m) = true →
  generateChatCompletion e messages o w = (Return (refusalReply e), w).
Proof.
  intros (c & k & Hk) Hm Hu.
  unfold generateChatCompletion, tryCatch, attemptChatCompletion.
  by rewrite Hk, Hm, Hu.
Qed.

Lemma gateway_unconfigured (e : env) (messages : list message) (o : options) (w : world) :
  ¬ configured e →
  generateChatCompletion e messages o w = (Throw (FailedToGenerate ApiKeyNotConfigured), w).
Proof.
  intros Hn. unfold generateChatCompletion, tryCatch, attemptChatCompletion.
  destruct (groqApiKey e) as [[|c k]|] eqn:Hk; try done.
  destruct Hn. by exists c, k.
Qed.

Lemma configured_dec (e : env) : configured e ∨ ¬ configured e.
Proof.
  unfold configured. destruct (groqApiKey e) as [[|c k]|]; eauto;
    right; intros (? & ? & [=]).
Qed.

(** [generateRecommendation] never reaches the external API: with a key it
    gets the refusal for its own prompt and parses it into the fallback
    object, without a key it fails. *)
Lemma generateRecommendation_configured (e : env) (key : jsstring) (c : context)
      (w : world) :
  configured e →
  generateRecommendation e key c w = (Return fallbackRecommendation, w).
Proof.
  intros He. unfold generateRecommendation, tryCatch.
  unfold mbind, M_bind.
  rewrite (gateway_refuses e _ _ (Message User (buildRecommendationPrompt key c)));
    [| done | done | apply recommendation_prompt_unsafe].
  by vm_compute.
Qed.

Lemma generateRecommendation_unconfigured (e : env) (key : jsstring) (c : context)
      (w : world) :
  ¬ configured e →
  generateRecommendation e key c w = (Throw (FailedToGenerate ApiKeyNotConfigured), w).
Proof.
  intros He. unfold generateRecommendation, tryCatch, mbind, M_bind.
  by rewrite gateway_unconfigured.
Qed.

Lemma findUser_history (recent : list chatMessage) (text : jsstring) :
  findUser (addSystemMessage (conversationHistory recent text)) =
  match findUser (map (fun msg => Message (msgRole msg) (msgContent msg))
                      (chronological recent)) with
  | Some m => Some m
  | None => Some (Message User text)
  end.
Proof.
  unfold addSystemMessage, conversationHistory, findUser. cbn [List.find isUser role_of role_eqb].
  induction (map _ (chronological recent)) as [|m l IH]; [done|].
  cbn [app List.find]. by destruct (isUser m).
Qed.

(** In a session without earlier turns the check does read the new
    message: an unsafe one is answered with the refusal, and nothing is
    sent. *)
Lemma chat_refuses_in_fresh_session (e : env) (req : chatRequest) (w : world) :
  configured e →
  r_stream req = false →
  findSession (r_sessionId req) (chatMessages w) = [] →
  (1 ≤ length (r_message req) ≤ 4000)%nat →
  isUnsafeRequest (r_message req) = true →
  ∃ body,
    asyncHandler (chatPost e req) w
      = (Json 200 body,
         World (chatMessages w ++
                [ ChatMessage (r_sessionId req) User (r_message req) (now e);
                  ChatMessage (r_sessionId req) Assistant refusal (now e) ])
               (sent w)) ∧
    get (get body (u "data")) (u "message") = VStr refusal.
Proof.
  intros He Hstream Hfresh Hlen Hunsafe.
  unfold asyncHandler, chatPost, mbind, M_bind, getRecentContext, tryCatch.
  rewrite Hfresh, Hstream. cbn [sortDesc foldr limit take].
  unfold save at 1. rewrite bool_decide_eq_true_2 by done.
  rewrite (gateway_refuses e _ _ (Message User (r_message req))); [| done | done | done].
  cbn [content refusalReply]. unfold save.
  assert (1 ≤ length refusal ≤ 4000)%nat as Hr by (split; apply Nat.leb_le; by vm_compute).
  rewrite bool_decide_eq_true_2 by done.
  cbn [chatMessages sent]. eexists. split; [by rewrite <- app_assoc|]. reflexivity.
Qed.

(** C1 (the check reads the first user message, not the last): in a session
    whose window holds an earlier harmless user turn, a message that asks
    for the API key matches the unsafe patterns and is nevertheless sent to
    the external API, as the last message of the one request made, and the
    reply is the model's answer, not the refusal. *)
Theorem C1_unsafe_message_reaches_api :
  isUnsafeRequest (r_message askForKey) = true ∧
  findUser (addSystemMessage (conversationHistory
              [ChatMessage (u "s1") User (u "hello") 1699999990000]
              (r_message askForKey)))
    = Some (Message User (u "hello")) ∧
  ∃ p body,
    asyncHandler (chatPost online askForKey) oneTurn
      = (Json 200 body,
         World (chatMessages oneTurn ++
                [ ChatMessage (u "s1") User (r_message askForKey) (now online);
                  ChatMessage (u "s1") Assistant
                    (u "Water the tree in the morning." ++ nl ++ nl ++ disclaimer)
                    (now online) ])
               [p]) ∧
    last (p_messages p) = Some (Message User (r_message askForKey)).
Proof.
  split; [by vm_compute|]. split; [by vm_compute|].
  do 2 eexists. split; by vm_compute.
Qed.

(** ** The disclaimer of a reply *)

Lemma startsWith_app_l (a b s : jsstring) :
  startsWith (a ++ b) s = true → startsWith a s = true.
Proof.
  rewrite !startsWith_spec. intros [t ->]. exists (b ++ t). by rewrite app_assoc.
Qed.

Lemma startsWith_before_newline (pat t r : jsstring) :
  10 ∉ pat → startsWith pat (t ++ 10 :: r) = true → startsWith pat t = true.
Proof.
  revert t; induction pat as [|p pat IH]; intros t Hp; [done|].
  destruct t as [|c t]; cbn [startsWith app].
  - intros [Hc _]%andb_prop. apply N.eqb_eq in Hc. subst p. set_solver.
  - intros [Hc H]%andb_prop. rewrite Hc. apply IH; [set_solver | done].
Qed.

Lemma includes_cons_false (c : N) (s pat : jsstring) :
  includes (c :: s) pat = false →
  startsWith pat (c :: s) = false ∧ includes s pat = false.
Proof. cbn [includes]. by intros ?%orb_false_elim. Qed.

(** Appending a text after two line feeds adds exactly its own occurrence,
    when the text before holds no occurrence of its opening words. *)
Lemma occurrences_appended (g rest t : jsstring) :
  10 ∉ g →
  includes t g = false →
  occurrences (g ++ rest) (10 :: 10 :: g ++ rest) = 1%nat →
  occurrences (g ++ rest) (t ++ 10 :: 10 :: g ++ rest) = 1%nat.
Proof.
  intros Hg Ht Hend. induction t as [|c t IH]; [done|].
  apply includes_cons_false in Ht as [Hc Ht].
  cbn [app occurrences].
  destruct (startsWith (g ++ rest) (c :: t ++ 10 :: 10 :: g ++ rest)) eqn:Hs.
  - apply startsWith_app_l in Hs.
    apply (startsWith_before_newline g (c :: t)) in Hs; [congruence | done].
  - by rewrite IH.
Qed.

Lemma disclaimer_opening : disclaimer = guidanceOnly ++ drop 13 disclaimer.
Proof. by vm_compute. Qed.

Lemma includes_disclaimer_guidanceOnly (s : jsstring) :
  includes s disclaimer = true → includes s guidanceOnly = true.
Proof.
  rewrite !includes_spec. intros (a & b & ->).
  exists a, (drop 13 disclaimer ++ b).
  rewrite disclaimer_opening at 1. by rewrite <- app_assoc.
Qed.

Lemma disclaimer_once (t : jsstring) :
  includes t guidanceOnly = false →
  occurrences disclaimer (t ++ nl ++ nl ++ disclaimer) = 1%nat.
Proof.
  intros Ht. change (t ++ nl ++ nl ++ disclaimer) with (t ++ 10 :: 10 :: disclaimer).
  rewrite disclaimer_opening.
  apply occurrences_appended; [| done | by vm_compute].
  by apply (bool_decide_unpack _).
Qed.

Lemma ensureDisclaimer_string (s : jsstring) :
  ensureDisclaimer (VStr s) =
  Return (VStr (if includes s guidanceOnly then s else trim s ++ nl ++ nl ++ disclaimer)).
Proof.
  unfold ensureDisclaimer, contentIncludes, contentTrim.
  destruct (includes s disclaimer) eqn:Hd.
  - by rewrite (includes_disclaimer_guidanceOnly _ Hd).
  - by destruct (includes s guidanceOnly).
Qed.

(** What the gateway does once the filter lets the messages through. *)
Lemma gateway_calls (e : env) (messages : list message) (o : options) (w : world) :
  configured e → passesFilter messages →
  generateChatCompletion e messages o w =
  tryCatch (callGroq e messages o) (fun error => throw (FailedToGenerate error)) w.
Proof.
  intros (c & k & Hk) Hp.
  unfold generateChatCompletion, tryCatch, attemptChatCompletion. rewrite Hk.
  unfold passesFilter in Hp. destruct (findUser messages) as [m|]; [by rewrite Hp | done].
Qed.

Lemma callGroq_answer (e : env) (messages : list message) (o : options) (w : world)
      (st : N) (tx : jsstring) (result : value) :
  fetch e (buildPayload e messages o) = Resolves true st tx (Some result) →
  callGroq e messages o w =
  (match extractContent result with
   | Throw err => Throw err
   | Return c0 =>
       match ensureDisclaimer c0 with
       | Throw err => Throw err
       | Return c1 =>
           Return (Reply c1 (get result (u "model")) (get result (u "created")) true
                         (get result (u "usage")))
       end
   end,
   World (chatMessages w) (sent w ++ [buildPayload e messages o])).
Proof.
  intros Hf. unfold callGroq, mbind, M_bind, doFetch, liftC. rewrite Hf.
  destruct (extractContent result); [|done].
  by destruct (ensureDisclaimer a).
Qed.

(** C2, as stated, fails: the model answers [Guidance only.], the gateway
    takes the opening words for the disclaimer and returns the answer as it
    is, so the successful reply holds the disclaimer sentence zero times. *)
Lemma C2_disclaimer_not_guaranteed :
  ∃ r w',
    generateChatCompletion terse question noOptions emptyWorld = (Return r, w') ∧
    length (sent w') = 1%nat ∧
    content r = VStr (u "Guidance only.") ∧
    occurrences disclaimer (u "Guidance only.") = 0%nat.
Proof. do 2 eexists. repeat split; by vm_compute. Qed.

(** C2, amended: for every reply the gateway builds from an answer of the
    external API whose content is the text [s], the returned content is [s]
    unchanged when [s] holds the words [Guidance only] (so in particular
    when it already holds the disclaimer: nothing is appended a second
    time), and otherwise the trimmed [s], a blank line and the disclaimer
    verbatim, which then holds the disclaimer exactly once. *)
Theorem C2_disclaimer_appended_unless_guidance_only
    (e : env) (messages : list message) (o : options) (w : world)
    (st : N) (tx : jsstring) (result : value) (s : jsstring) :
  configured e →
  passesFilter messages →
  fetch e (buildPayload e messages o) = Resolves true st tx (Some result) →
  extractContent result = Return (VStr s) →
  ∃ r,
    generateChatCompletion e messages o w
      = (Return r, World (chatMessages w) (sent w ++ [buildPayload e messages o])) ∧
    content r = VStr (if includes s guidanceOnly then s
                      else trim s ++ nl ++ nl ++ disclaimer) ∧
    (includes s guidanceOnly = false →
       occurrences disclaimer (trim s ++ nl ++ nl ++ disclaimer) = 1%nat) ∧
    (includes s disclaimer = true → content r = VStr s).
Proof.
  intros He Hp Hf Hc.
  rewrite (gateway_calls e messages o w He Hp). unfold tryCatch.
  rewrite (callGroq_answer e messages o w st tx result Hf), Hc, ensureDisclaimer_string.
  eexists. split; [reflexivity|]. cbn [content]. split; [done|]. split.
  - intros Hg. apply disclaimer_once, includes_trim, Hg.
  - intros Hd. by rewrite (includes_disclaimer_guidanceOnly _ Hd).
Qed.

Lemma C2_witness :
  ∃ r,
    generateChatCompletion online question noOptions emptyWorld
      = (Return r, World [] [buildPayload online question noOptions]) ∧
    content r = VStr (u "Water the tree in the morning." ++ nl ++ nl ++ disclaimer) ∧
    occurrences disclaimer (u "Water the tree in the morning." ++ nl ++ nl ++ disclaimer)
      = 1%nat.
Proof.
  destruct (C2_disclaimer_appended_unless_guidance_only
              online question noOptions emptyWorld 200 (u "OK")
              (completionBody hello) (u "Water the tree in the morning."))
    as (r & Hr & Hc & Ho & _).
  - by exists 103, (u "sk_test").
  - by vm_compute.
  - reflexivity.
  - reflexivity.
  - exists r. split; [exact Hr|]. split; [exact Hc|]. apply Ho. reflexivity.
Defined.

(** ** Bodies without content *)

(** C10, as stated, fails: the JSON body [null] has no path to a content,
    and reading [result.choices] of it raises; the gateway then fails
    instead of returning a reply. *)
Lemma C10_null_body_raises :
  contentPath VNull = VUndefined ∧
  generateChatCompletion nullBody question noOptions emptyWorld
    = (Throw (FailedToGenerate TypeError),
       World [] [buildPayload nullBody question noOptions]).
Proof. split; by vm_compute. Qed.

Lemma get_nullish (v : value) (k : jsstring) :
  isNullish v = true → get v k = VUndefined.
Proof. by destruct v. Qed.

Lemma getIndex0_nullish (v : value) :
  isNullish v = true → getIndex0 v = VUndefined.
Proof. by destruct v. Qed.

(** On a body that is not [null], the optional chain of the source reads
    the path of the specification. *)
Lemma extractContent_path (result : value) :
  isNullish result = false →
  extractContent result = Return (orElse (contentPath result) (VStr [])).
Proof.
  intros Hn. unfold extractContent, contentPath. rewrite Hn. do 2 f_equal.
  destruct (isNullish (get result (u "choices"))) eqn:H1.
  { by rewrite (getIndex0_nullish _ H1). }
  destruct (isNullish (getIndex0 (get result (u "choices")))) eqn:H2.
  { by rewrite (get_nullish _ (u "message") H2). }
  destruct (isNullish (get (getIndex0 (get result (u "choices"))) (u "message"))) eqn:H3.
  { by rewrite (get_nullish _ (u "content") H3). }
  done.
Qed.

Lemma ensureDisclaimer_nonempty (c0 c1 : value) :
  ensureDisclaimer c0 = Return c1 → c1 ≠ VStr [].
Proof.
  destruct c0 as [| | | |s|xs|]; try done.
  - rewrite ensureDisclaimer_string. intros [= <-].
    destruct (includes s guidanceOnly) eqn:Hg.
    + intros [= ->]. by vm_compute in Hg.
    + intros [= H]. by apply app_eq_nil in H as [_ [=]].
  - unfold ensureDisclaimer, contentIncludes, contentTrim.
    repeat case_match; intros [= <-]; done.
Qed.

(** The content of a reply is never the empty string. *)
Lemma reply_content_nonempty (e : env) (messages : list message) (o : options)
      (w w' : world) (r : reply) :
  generateChatCompletion e messages o w = (Return r, w') → content r ≠ VStr [].
Proof.
  unfold generateChatCompletion, tryCatch, attemptChatCompletion.
  destruct (groqApiKey e) as [[|c k]|]; try done.
  destruct (match findUser messages with
            | Some m => isUnsafeRequest (content_of m)
            | None => false
            end).
  { intros [= <- <-]. cbn [refusalReply content]. intros H. by vm_compute in H. }
  unfold callGroq, mbind, M_bind, doFetch, liftC.
  destruct (fetch e _) as [|[] st tx [result|]]; try done.
  destruct (extractContent result) as [c0|]; [|done].
  destruct (ensureDisclaimer c0) as [c1|] eqn:Hc1; [|done].
  intros [= <- <-]. cbn [content]. by eapply ensureDisclaimer_nonempty.
Qed.

(** C10, amended: when the external API answers with a 2xx response whose
    JSON body is not [null] and either has no [choices[0].message.content]
    path or holds the empty string there, the gateway returns a reply
    whose content is a blank line followed by the disclaimer; and no reply
    of the gateway has the empty string as content. *)
Theorem C10_no_content_gives_disclaimer
    (e : env) (messages : list message) (o : options) (w : world)
    (st : N) (tx : jsstring) (result : value) :
  configured e →
  passesFilter messages →
  fetch e (buildPayload e messages o) = Resolves true st tx (Some result) →
  isNullish result = false →
  contentPath result = VUndefined ∨ contentPath result = VStr [] →
  generateChatCompletion e messages o w
    = (Return (Reply (VStr (nl ++ nl ++ disclaimer))
                     (get result (u "model")) (get result (u "created")) true
                     (get result (u "usage"))),
       World (chatMessages w) (sent w ++ [buildPayload e messages o]))
  ∧ ∀ e' messages' o' w1 w2 r,
      generateChatCompletion e' messages' o' w1 = (Return r, w2) → content r ≠ VStr [].
Proof.
  intros He Hp Hf Hn Hpath. split; [|intros; by eapply reply_content_nonempty].
  rewrite (gateway_calls e messages o w He Hp). unfold tryCatch.
  rewrite (callGroq_answer e messages o w st tx result Hf), (extractContent_path _ Hn).
  by destruct Hpath as [-> | ->].
Qed.

Lemma C10_witness :
  generateChatCompletion emptyBody question noOptions emptyWorld
    = (Return (Reply (VStr (nl ++ nl ++ disclaimer)) VUndefined VUndefined true VUndefined),
       World [] [buildPayload emptyBody question noOptions]).
Proof.
  refine (proj1 (C10_no_content_gives_disclaimer
                   emptyBody question noOptions emptyWorld 200 (u "OK") (VObj [])
                   _ _ _ _ _)).
  - by exists 103, (u "sk_test").
  - by vm_compute.
  - reflexivity.
  - reflexivity.
  - left. reflexivity.
Defined.

(** ** The fuel of [JSON.parse] *)

Lemma skipWs_length (s : jsstring) : (length (skipWs s) ≤ length s)%nat.
Proof.
  induction s as [|c s IH]; cbn [skipWs]; [done|].
  destruct (isJsonWs c); cbn [length]; lia.
Qed.

Lemma parseChars_length (s cs rest : jsstring) :
  parseChars s = Some (cs, rest) → (length rest < length s)%nat.
Proof.
  assert (∀ n s cs rest, (length s ≤ n)%nat → parseChars s = Some (cs, rest) →
                         (length rest < length s)%nat) as go; [|by apply (go (length s))].
  clear. induction n as [|n IH]; intros [|c s1] cs rest Hn; try done.
  { cbn [length] in Hn. lia. }
  cbn [parseChars]. cbn [length] in Hn.
  destruct (c =? 34); [intros [= _ <-]; cbn [length]; lia|].
  destruct (c =? 92).
  - destruct s1 as [|e s2]; [done|]. cbn [length] in Hn. destruct (e =? 117).
    + destruct s2 as [|h1 [|h2 [|h3 [|h4 s3]]]]; try done. cbn [length] in Hn.
      destruct (hexValue h1), (hexValue h2), (hexValue h3), (hexValue h4); try done.
      destruct (parseChars s3) as [[cs' rest']|] eqn:H3; [|done].
      intros [= _ <-]. apply IH in H3; [|lia]. cbn [length]. lia.
    + destruct (escapeUnit e); [|done].
      destruct (parseChars s2) as [[cs' rest']|] eqn:H2; [|done].
      intros [= _ <-]. apply IH in H2; [|lia]. cbn [length]. lia.
  - destruct (c <? 32); [done|].
    destruct (parseChars s1) as [[cs' rest']|] eqn:H1; [|done].
    intros [= _ <-]. apply IH in H1; [|lia]. cbn [length]. lia.
Qed.

Lemma digitsFrom_length (acc : N) (n : nat) (s : jsstring) :
  (length (digitsFrom acc n s).2 ≤ length s)%nat.
Proof.
  revert acc n. induction s as [|c s IH]; intros acc n; cbn [digitsFrom]; [done|].
  destruct (isDigit c); cbn [length snd]; [|lia].
  specialize (IH (acc * 10 + (c - 48)) (S n)). lia.
Qed.

Lemma digitsFrom_cons_length (acc : N) (n : nat) (c : N) (s : jsstring) :
  isDigit c = true → (length (digitsFrom acc n (c :: s)).2 ≤ length s)%nat.
Proof. intros H. cbn [digitsFrom]. rewrite H. apply digitsFrom_length. Qed.

(** Turns the equations on [digitsFrom] of the context into bounds on the
    length of what is left. *)
Ltac digits_facts :=
  repeat match goal with
    | H : digitsFrom ?a ?n (?c :: ?s) = (_, _, ?r), D : isDigit ?c = true |- _ =>
        let L := fresh "L" in
        pose proof (digitsFrom_cons_length a n c s D) as L;
        rewrite H in L; cbn [snd] in L; clear H
    | H : digitsFrom ?a ?n ?s = (_, _, ?r) |- _ =>
        let L := fresh "L" in
        pose proof (digitsFrom_length a n s) as L;
        rewrite H in L; cbn [snd] in L; clear H
    end.

Lemma parseNumber_length (s rest : jsstring) (v : value) :
  parseNumber s = Some (v, rest) → (length rest < length s)%nat.
Proof.
  unfold parseNumber. repeat case_match; simplify_eq; try done;
    digits_facts; intros [= _ <-]; cbn [length] in *; lia.
Qed.

Lemma keyword_length (w : string) (v v' : value) (s rest : jsstring) :
  u w ≠ [] → keyword w v s = Some (v', rest) → (length rest < length s)%nat.
Proof.
  intros Hw. unfold keyword. destruct (startsWith (u w) s) eqn:Hs; [|done].
  apply startsWith_spec in Hs as [t ->]. intros [= _ <-].
  rewrite drop_app_length, length_app. destruct (u w); [done|]. cbn [length]. lia.
Qed.

(** A value that is parsed consumes at least one code unit. *)
Lemma parse_consumes (fuel : nat) :
  (∀ s v rest, parseValue fuel s = Some (v, rest) → (length rest < length s)%nat) ∧
  (∀ acc s v rest, parseMembers fuel acc s = Some (v, rest) →
                   (length rest < length s)%nat) ∧
  (∀ acc s v rest, parseElements fuel acc s = Some (v, rest) →
                   (length rest < length s)%nat).
Proof.
  induction fuel as [|fuel (IHv & IHm & IHe)]; [done|]. split; [|split].
  - intros s v rest. cbn [parseValue].
    pose proof (skipWs_length s) as Hs.
    destruct (skipWs s) as [|c s1]; [done|]. cbn [length] in Hs.
    destruct (c =? 123).
    { pose proof (skipWs_length s1) as Hs1.
      destruct (skipWs s1) as [|d s2]; [done|]. cbn [length] in Hs1.
      destruct (d =? 125); [intros [= _ <-]; lia|].
      intros H%IHm. lia. }
    destruct (c =? 91).
    { pose proof (skipWs_length s1) as Hs1.
      destruct (skipWs s1) as [|d s2]; [done|]. cbn [length] in Hs1.
      destruct (d =? 93); [intros [= _ <-]; lia|].
      intros H%IHe. lia. }
    destruct (c =? 34).
    { destruct (parseChars s1) as [[cs r]|] eqn:Hc; [|done].
      apply parseChars_length in Hc. intros [= _ <-]. lia. }
    destruct (c =? 116); [intros H%keyword_length; [cbn [length] in H; lia | done]|].
    destruct (c =? 102); [intros H%keyword_length; [cbn [length] in H; lia | done]|].
    destruct (c =? 110); [intros H%keyword_length; [cbn [length] in H; lia | done]|].
    intros H%parseNumber_length. cbn [length] in H. lia.
  - intros acc s v rest. cbn [parseMembers].
    pose proof (skipWs_length s) as Hs.
    destruct (skipWs s) as [|q s1]; [done|]. cbn [length] in Hs.
    destruct (q =? 34); [|done].
    destruct (parseChars s1) as [[k s2]|] eqn:Hk; [|done]. apply parseChars_length in Hk.
    pose proof (skipWs_length s2) as Hs2.
    destruct (skipWs s2) as [|colon s3]; [done|]. cbn [length] in Hs2.
    destruct (colon =? 58); [|done].
    destruct (parseValue fuel s3) as [[v0 s4]|] eqn:Hv; [|done]. apply IHv in Hv.
    pose proof (skipWs_length s4) as Hs4.
    destruct (skipWs s4) as [|d s5]; [done|]. cbn [length] in Hs4.
    destruct (d =? 44); [intros H%IHm; lia|].
    destruct (d =? 125); [intros [= _ <-]; lia | done].
  - intros acc s v rest. cbn [parseElements].
    destruct (parseValue fuel s) as [[v0 s1]|] eqn:Hv; [|done]. apply IHv in Hv.
    pose proof (skipWs_length s1) as Hs1.
    destruct (skipWs s1) as [|d s2]; [done|]. cbn [length] in Hs1.
    destruct (d =? 44); [intros H%IHe; lia|].
    destruct (d =? 93); [intros [= _ <-]; lia | done].
Qed.

(** From twice the length of the text plus two on, more fuel changes
    nothing. *)
Lemma parse_fuel (fuel : nat) :
  (∀ fuel' s, (2 * length s + 2 ≤ fuel)%nat → (fuel ≤ fuel')%nat →
              parseValue fuel' s = parseValue fuel s) ∧
  (∀ fuel' acc s, (2 * length s + 3 ≤ fuel)%nat → (fuel ≤ fuel')%nat →
                  parseMembers fuel' acc s = parseMembers fuel acc s) ∧
  (∀ fuel' acc s, (2 * length s + 3 ≤ fuel)%nat → (fuel ≤ fuel')%nat →
                  parseElements fuel' acc s = parseElements fuel acc s).
Proof.
  induction fuel as [|fuel (IHv & IHm & IHe)]; [repeat split; intros; lia|].
  split; [|split].
  - intros [|fuel'] s Hl Hf; [lia|]. cbn [parseValue].
    pose proof (skipWs_length s) as Hs.
    destruct (skipWs s) as [|c s1]; [done|]. cbn [length] in Hs.
    destruct (c =? 123).
    { destruct (skipWs s1) as [|d s2]; [done|].
      destruct (d =? 125); [done|]. apply IHm; lia. }
    destruct (c =? 91); [|done].
    destruct (skipWs s1) as [|d s2]; [done|].
    destruct (d =? 93); [done|]. apply IHe; lia.
  - intros [|fuel'] acc s Hl Hf; [lia|]. cbn [parseMembers].
    pose proof (skipWs_length s) as Hs.
    destruct (skipWs s) as [|q s1]; [done|]. cbn [length] in Hs.
    destruct (q =? 34); [|done].
    destruct (parseChars s1) as [[k s2]|] eqn:Hk; [|done]. apply parseChars_length in Hk.
    pose proof (skipWs_length s2) as Hs2.
    destruct (skipWs s2) as [|colon s3]; [done|]. cbn [length] in Hs2.
    destruct (colon =? 58); [|done].
    rewrite (IHv fuel' s3) by lia.
    destruct (parseValue fuel s3) as [[v0 s4]|] eqn:Hv; [|done].
    apply (proj1 (parse_consumes fuel)) in Hv.
    pose proof (skipWs_length s4) as Hs4.
    destruct (skipWs s4) as [|d s5]; [done|]. cbn [length] in Hs4.
    destruct (d =? 44); [apply IHm; lia | done].
  - intros [|fuel'] acc s Hl Hf; [lia|]. cbn [parseElements].
    rewrite (IHv fuel' s) by lia.
    destruct (parseValue fuel s) as [[v0 s1]|] eqn:Hv; [|done].
    apply (proj1 (parse_consumes fuel)) in Hv.
    pose proof (skipWs_length s1) as Hs1.
    destruct (skipWs s1) as [|d s2]; [done|]. cbn [length] in Hs1.
    destruct (d =? 44); [apply IHe; lia | done].
Qed.

(** [JSON.parse] of the model does not depend on its fuel: [None] is a
    text that is not JSON. *)
Lemma parse_fuel_enough (s : jsstring) (fuel : nat) :
  (2 * length s + 2 ≤ fuel)%nat →
  Json.parse s =
  match parseValue fuel s with
  | Some (v, rest) => match skipWs rest with [] => Some v | _ :: _ => None end
  | None => None
  end.
Proof.
  intros H. unfold Json.parse.
  by rewrite (proj1 (parse_fuel (2 * length s + 2)) fuel s).
Qed.

(** ** The parser of recommendations *)

Lemma lookup_setProp_eq (k : jsstring) (v : value) (props : list (jsstring * value)) :
  lookupProp k (setProp k v props) = v.
Proof.
  unfold JsString.eqb.
  induction props as [|[k1 v1] props IH]; cbn [setProp lookupProp]; unfold JsString.eqb.
  - by rewrite bool_decide_eq_true_2.
  - case_bool_decide as E; cbn [lookupProp]; unfold JsString.eqb.
    + by rewrite bool_decide_eq_true_2.
    + by rewrite bool_decide_eq_false_2.
Qed.

Lemma lookup_setProp_ne (k k' : jsstring) (v : value) (props : list (jsstring * value)) :
  k' ≠ k → lookupProp k' (setProp k v props) = lookupProp k' props.
Proof.
  intros Hne.
  induction props as [|[k1 v1] props IH]; cbn [setProp lookupProp]; unfold JsString.eqb.
  - by rewrite bool_decide_eq_false_2.
  - case_bool_decide as E; cbn [lookupProp]; unfold JsString.eqb.
    + subst k1. by rewrite !bool_decide_eq_false_2.
    + by rewrite IH.
Qed.

Lemma filter_nil_all {A} (f : A → bool) (l : list A) :
  List.filter f l = [] → ∀ x, x ∈ l → f x = false.
Proof.
  induction l as [|a l IH]; cbn [List.filter]; intros H x Hx.
  - by apply elem_of_nil in Hx.
  - destruct (f a) eqn:Ha; [done|].
    apply elem_of_cons in Hx as [-> | Hx]; [done | by apply IH].
Qed.

Lemma required_not_disclaimer (field : jsstring) :
  field ∈ required → field ≠ u "disclaimer".
Proof. intros H. members H; by vm_compute. Qed.

(** What the [try] of the parser returns satisfies the parser's check and
    carries the fixed disclaimer. *)
Lemma attemptParse_invariant (s : jsstring) (d : value) :
  attemptParse s = Return d → parsedInvariant d.
Proof.
  unfold attemptParse.
  destruct (matchFirst braceSpan (cleanContent s)) as [span|]; [|done].
  destruct (Json.parse span) as [parsed|]; [|done].
  destruct (0 <? length (List.filter (isMissing parsed) required))%nat eqn:Hm; [done|].
  destruct parsed as [| | | | | |props]; try done. intros [= <-].
  apply Nat.ltb_ge, Nat.le_0_r, nil_length_inv in Hm.
  split.
  - cbn [get]. apply lookup_setProp_eq.
  - intros field Hf. pose proof (filter_nil_all _ _ Hm field Hf) as Hfield.
    unfold isMissing in *. cbn [get] in *.
    by rewrite (lookup_setProp_ne _ _ _ _ (required_not_disclaimer _ Hf)).
Qed.

Lemma fallback_parsedInvariant : parsedInvariant fallbackRecommendation.
Proof. split; [by vm_compute|]. intros field H. members H; by vm_compute. Qed.

Lemma fallback_recommendationInvariant : recommendationInvariant fallbackRecommendation.
Proof.
  split; [by vm_compute|]. split; [by do 2 eexists; vm_compute|].
  intros field H. members H; do 2 eexists; by vm_compute.
Qed.

Lemma parse_invariant (c d : value) :
  parseRecommendationResponse c = Return d → parsedInvariant d.
Proof.
  destruct c as [| | | |s| |]; try done. cbn [parseRecommendationResponse].
  destruct (attemptParse s) as [parsed|err] eqn:Ha; intros [= <-].
  - by eapply attemptParse_invariant.
  - apply fallback_parsedInvariant.
Qed.

Lemma isMissing_absent (parsed : value) (field : jsstring) :
  get parsed field = VUndefined ∨ get parsed field = VArr [] →
  isMissing parsed field = true.
Proof. unfold isMissing. by intros [-> | ->]. Qed.

(** C4: on every text the parser returns an object and raises nothing;
    when the cleaned text holds no brace span, when the span does not
    decode, or when one of the required fields of the decoded object is
    missing or an empty list, the object returned is the canonical
    fallback; and the fallback carries the fixed disclaimer, a summary and
    five lists that are not empty. *)
Theorem C4_parser_total_with_fallback (text : jsstring) :
  (∃ d, parseRecommendationResponse (VStr text) = Return d) ∧
  (matchFirst braceSpan (cleanContent text) = None →
     parseRecommendationResponse (VStr text) = Return fallbackRecommendation) ∧
  (∀ span,
     matchFirst braceSpan (cleanContent text) = Some span →
     Json.parse span = None →
     parseRecommendationResponse (VStr text) = Return fallbackRecommendation) ∧
  (∀ span parsed field,
     matchFirst braceSpan (cleanContent text) = Some span →
     Json.parse span = Some parsed →
     field ∈ required →
     get parsed field = VUndefined ∨ get parsed field = VArr [] →
     parseRecommendationResponse (VStr text) = Return fallbackRecommendation) ∧
  recommendationInvariant fallbackRecommendation.
Proof.
  cbn [parseRecommendationResponse]. split; [|split; [|split; [|split]]].
  - destruct (attemptParse text); eauto.
  - unfold attemptParse. by intros ->.
  - unfold attemptParse. by intros span -> ->.
  - unfold attemptParse. intros span parsed field -> -> Hf Hmiss.
    apply isMissing_absent in Hmiss.
    destruct (0 <? length (List.filter (isMissing parsed) required))%nat eqn:Hm; [done|].
    apply Nat.ltb_ge, Nat.le_0_r, nil_length_inv in Hm.
    rewrite (filter_nil_all _ _ Hm field Hf) in Hmiss. done.
  - apply fallback_recommendationInvariant.
Qed.

Lemma C4_witness :
  parseRecommendationResponse (VStr undecodable) = Return fallbackRecommendation ∧
  parseRecommendationResponse (VStr emptyList) = Return fallbackRecommendation.
Proof.
  split.
  - apply (proj1 (proj2 (proj2 (C4_parser_total_with_fallback undecodable)))
             (tq "{~summary~: }")); reflexivity.
  - apply (proj1 (proj2 (proj2 (proj2 (C4_parser_total_with_fallback emptyList))))
             emptyList
             (VObj [ (u "summary", VStr (u "s")); (u "symptoms", VArr []);
                     (u "causes", VArr [VStr (u "b")]);
                     (u "treatmentSteps", VArr [VStr (u "c")]);
                     (u "preventionSteps", VArr [VStr (u "d")]) ])
             (u "symptoms")).
    + reflexivity.
    + reflexivity.
    + apply list_elem_of_In. right. left. reflexivity.
    + right. reflexivity.
Defined.

(** ** The span that is decoded *)

Lemma braceSpan_atoms : braceSpan = [One (unit 123); Star anyUnit; One (unit 125)].
Proof. reflexivity. Qed.

Lemma closeBrace_here (s : jsstring) :
  execHere [One (unit 125)] s =
  match s with
  | c :: s' => if c =? 125 then Some s' else None
  | [] => None
  end.
Proof. destruct s as [|c s]; [done|]. cbn [execHere]. unfold unit. by destruct (c =? 125). Qed.

(** The greedy repetition gives up code units until a closing brace
    follows: it fails only on a text without a closing brace ... *)
Lemma starLoop_close_None (s : jsstring) :
  starLoop anyUnit (execHere [One (unit 125)]) s = None → 125 ∉ s.
Proof.
  induction s as [|c s IH]; cbn [starLoop anyUnit]; [set_solver|].
  destruct (starLoop anyUnit _ s); [done|].
  rewrite closeBrace_here. destruct (c =? 125) eqn:Hc; [done|].
  apply N.eqb_neq in Hc. intros _. apply not_elem_of_cons. split; [congruence | by apply IH].
Qed.

(** ... and otherwise stops after the last one. *)
Lemma starLoop_close_Some (s t : jsstring) :
  starLoop anyUnit (execHere [One (unit 125)]) s = Some t →
  ∃ mid, s = mid ++ (125 :: t) ∧ 125 ∉ t.
Proof.
  revert t. induction s as [|c s IH]; intros t; cbn [starLoop anyUnit]; [done|].
  destruct (starLoop anyUnit _ s) as [t'|] eqn:Hs.
  - intros [= <-]. destruct (IH _ eq_refl) as (mid & -> & Ht).
    by exists (c :: mid).
  - rewrite closeBrace_here. destruct (c =? 125) eqn:Hc; [|done].
    apply N.eqb_eq in Hc as ->. intros [= <-]. exists [].
    split; [done | by apply starLoop_close_None].
Qed.

Lemma braceSpan_here (s : jsstring) :
  execHere braceSpan s =
  match s with
  | c :: s' =>
      if c =? 123 then starLoop anyUnit (execHere [One (unit 125)]) s' else None
  | [] => None
  end.
Proof. destruct s as [|c s]; [done|]. rewrite braceSpan_atoms. by cbn [execHere]. Qed.

(** The match of the brace pattern runs from the first opening brace of the
    text to its last closing brace. *)
Lemma exec_braceSpan_Some (s b m a : jsstring) :
  exec braceSpan s = Some (Found b m a) →
  s = b ++ m ++ a ∧ (123 ∉ b) ∧ (125 ∉ a) ∧ ∃ mid, m = 123 :: mid ++ [125].
Proof.
  revert b m a. induction s as [|c s IH]; intros b m a.
  { cbn [exec]. by rewrite braceSpan_here. }
  cbn [exec]. rewrite braceSpan_here.
  destruct (c =? 123) eqn:Hc.
  - apply N.eqb_eq in Hc as ->.
    destruct (starLoop anyUnit _ s) as [rest|] eqn:Hs.
    + apply starLoop_close_Some in Hs as (mid & -> & Hrest).
      intros [= <- Hm <-].
      assert (m = 123 :: mid ++ [125]) as ->.
      { rewrite <- Hm.
        replace (123 :: mid ++ 125 :: rest) with ((123 :: mid ++ [125]) ++ rest)
          by (cbn [app]; by rewrite <- app_assoc).
        apply take_app_length'. cbn [length]. rewrite !length_app. cbn [length]. lia. }
      repeat split; [cbn [app]; by rewrite <- app_assoc | set_solver | done | by exists mid].
    + apply starLoop_close_None in Hs.
      destruct (exec braceSpan s) as [[b' m' a']|] eqn:He; [|done].
      destruct (IH _ _ _ eq_refl) as (-> & _ & _ & mid & ->).
      exfalso. apply Hs. rewrite !elem_of_app, !elem_of_cons, !elem_of_app.
      rewrite list_elem_of_singleton. tauto.
  - apply N.eqb_neq in Hc.
    destruct (exec braceSpan s) as [[b' m' a']|] eqn:He; [|done].
    intros [= <- <- <-]. destruct (IH _ _ _ eq_refl) as (-> & Hb & Ha & Hm).
    repeat split; [|done|done].
    apply not_elem_of_cons. split; [congruence | done].
Qed.

(** The pattern fails only when no opening brace has a closing brace after
    it. *)
Lemma exec_braceSpan_None (s : jsstring) :
  exec braceSpan s = None → ∀ pre post, s = pre ++ 123 :: post → 125 ∉ post.
Proof.
  induction s as [|c s IH]; intros H pre post Hs.
  { by destruct pre. }
  cbn [exec] in H. rewrite braceSpan_here in H.
  destruct pre as [|c' pre]; injection Hs as -> ->.
  - rewrite N.eqb_refl in H.
    destruct (starLoop anyUnit _ post) eqn:Hp; [done|].
    by apply starLoop_close_None.
  - apply (IH) with pre; [|done].
    destruct (if c' =? 123 then _ else _); [done|].
    by destruct (exec braceSpan (pre ++ 123 :: post)) as [[? ? ?]|].
Qed.

(** A text that starts with an opening brace decodes to an object or not at
    all. *)
Lemma parseMembers_object (fuel : nat) (acc : list (jsstring * value)) (s rest : jsstring)
      (v : value) :
  parseMembers fuel acc s = Some (v, rest) → ∃ props, v = VObj props.
Proof.
  revert acc s. induction fuel as [|fuel IH]; intros acc s; [done|].
  cbn [parseMembers]. repeat case_match; try done.
  - apply IH.
  - intros [= <- <-]. eauto.
Qed.

Lemma parse_brace_object (mid : jsstring) (parsed : value) :
  Json.parse (123 :: mid) = Some parsed → ∃ props, parsed = VObj props.
Proof.
  unfold Json.parse. replace (2 * length (123%N :: mid) + 2)%nat
    with (S (2 * length (123%N :: mid) + 1))%nat by lia.
  destruct (parseValue _ _) as [[v rest]|] eqn:Hv; [|done].
  intros H. assert (v = parsed) as <- by (by destruct (skipWs rest); simplify_eq).
  clear H. cbn [parseValue skipWs] in Hv.
  change (isJsonWs 123) with false in Hv. cbn iota in Hv.
  change (123 =? 123) with true in Hv. cbn iota in Hv.
  destruct (skipWs mid) as [|d s2]; [done|].
  destruct (d =? 125); [injection Hv as <- _; eauto | by eapply parseMembers_object].
Qed.

(** C5, as stated, fails: on a model output that holds an object and then a
    second pair of braces, the first balanced span is the object, which
    decodes and has every required field, but the span that is decoded
    runs on to the last closing brace, does not decode, and the parser
    answers with the fallback. *)
Lemma C5_span_is_not_the_first_balanced_one :
  firstBalancedSpan (cleanContent twoSpans) = Some validObject ∧
  matchFirst braceSpan (cleanContent twoSpans) = Some (validObject ++ u " {}") ∧
  (∃ parsed, Json.parse validObject = Some parsed ∧
             List.filter (isMissing parsed) required = []) ∧
  Json.parse (validObject ++ u " {}") = None ∧
  parseRecommendationResponse (VStr twoSpans) = Return fallbackRecommendation.
Proof.
  split; [by vm_compute|]. split; [by vm_compute|].
  split; [eexists; split; by vm_compute|]. split; by vm_compute.
Qed.

(** C5, amended: the parser strips the fence markers and trims the text,
    then takes the span from the first opening brace of the cleaned text
    to its last closing brace (there is none only when no opening brace
    has a closing brace after it) and decodes exactly that span: when the
    span does not decode the answer is the fallback, and when it decodes
    the result is an object, returned with the fixed disclaimer set unless
    a required field is missing. *)
Theorem C5_decodes_first_open_to_last_close (text : jsstring) :
  match matchFirst braceSpan (cleanContent text) with
  | Some span =>
      (∃ pre mid post,
         cleanContent text = pre ++ span ++ post ∧
         span = 123 :: mid ++ [125] ∧ (123 ∉ pre) ∧ (125 ∉ post)) ∧
      match Json.parse span with
      | None => parseRecommendationResponse (VStr text) = Return fallbackRecommendation
      | Some parsed =>
          ∃ props, parsed = VObj props ∧
            parseRecommendationResponse (VStr text) =
            Return (if existsb (isMissing parsed) required then fallbackRecommendation
                    else VObj (setProp (u "disclaimer") (VStr disclaimer) props))
      end
  | None =>
      (∀ pre post, cleanContent text = pre ++ 123 :: post → 125 ∉ post) ∧
      parseRecommendationResponse (VStr text) = Return fallbackRecommendation
  end.
Proof.
  cbn [parseRecommendationResponse]. unfold attemptParse, matchFirst.
  destruct (exec braceSpan (cleanContent text)) as [[b m a]|] eqn:He; cbn [fmap option_fmap option_map matched].
  - apply exec_braceSpan_Some in He as (Hc & Hb & Ha & mid & ->).
    split; [by exists b, mid, a|].
    destruct (Json.parse (123 :: mid ++ [125])) as [parsed|] eqn:Hp; [|done].
    destruct (parse_brace_object _ _ Hp) as [props ->]. exists props. split; [done|].
    destruct (existsb (isMissing (VObj props)) required) eqn:Hex;
      destruct (List.filter (isMissing (VObj props)) required) as [|f fs] eqn:Hf;
      try done.
    + apply existsb_exists in Hex as (f & Hin & Hmiss).
      apply list_elem_of_In in Hin. by rewrite (filter_nil_all _ _ Hf f Hin) in Hmiss.
    + assert (In f (List.filter (isMissing (VObj props)) required)) as Hin
        by (rewrite Hf; by left).
      apply filter_In in Hin as [Hin Hmiss].
      assert (existsb (isMissing (VObj props)) required = true) as Hex'
        by (apply existsb_exists; by exists f).
      congruence.
  - split; [by apply exec_braceSpan_None | done].
Qed.

Lemma C5_witness :
  ∃ pre mid post,
    cleanContent twoSpans = pre ++ (123 :: mid ++ [125]) ++ post ∧ (123 ∉ pre) ∧ (125 ∉ post).
Proof.
  pose proof (C5_decodes_first_open_to_last_close twoSpans) as H.
  destruct (matchFirst braceSpan (cleanContent twoSpans)) as [span|] eqn:Hs.
  - destruct H as [(pre & mid & post & Hc & -> & Hpre & Hpost) _].
    by exists pre, mid, post.
  - exfalso. by vm_compute in Hs.
Defined.

(** ** The generate route *)

Lemma generatePost_run (e : env) (req : generateRequest) (w : world)
      (base : option recommendation) (c : context) :
  prepare e req = Return (base, c) →
  asyncHandler (generatePost e req) w =
  match generateRecommendation e (normalizeKey (g_diseaseKey req)) c w with
  | (Return ai, w') =>
      match base with
      | Some b =>
          match enhance b ai with
          | Return enhanced => (enhancedResponse enhanced c, w')
          | Throw _ => (fallbackResponse b, w')
          end
      | None => (generatedResponse ai c, w')
      end
  | (Throw _, w') =>
      match base with
      | Some b => (fallbackResponse b, w')
      | None => (unavailableResponse (normalizeKey (g_diseaseKey req)), w')
      end
  end.
Proof.
  intros Hp. unfold asyncHandler, generatePost, mbind, M_bind, liftC, tryCatch.
  rewrite Hp. destruct (generateRecommendation e _ c w) as [[ai|err] w'].
  - destruct base as [b|]; [|done]. by destruct (enhance b ai).
  - by destruct base.
Qed.

Lemma generatePost_rejected (e : env) (req : generateRequest) (w : world) (err : exn) :
  prepare e req = Throw err →
  asyncHandler (generatePost e req) w = (ToErrorHandler err, w).
Proof.
  intros Hp. unfold asyncHandler, generatePost, mbind, M_bind, liftC. by rewrite Hp.
Qed.

Lemma prepare_base (e : env) (req : generateRequest) (base : option recommendation)
      (c : context) :
  prepare e req = Return (base, c) →
  base = (if g_enhanceExisting req then findOne e (normalizeKey (g_diseaseKey req))
          else None).
Proof.
  unfold prepare. destruct (g_enhanceExisting req); [|by intros [= <- _]].
  destruct (findOne e _) as [b|]; [|by intros [= <- _]].
  destruct (setExisting _ b); [by intros [= <- _] | done].
Qed.

Lemma safe_disclaimer (b : recommendation) :
  lookupProp (u "disclaimer") (getSafeRecommendation b) = VStr modelDisclaimer.
Proof. apply lookup_setProp_eq. Qed.

Lemma safe_keeps_fields (b : recommendation) (k : jsstring) :
  k ≠ u "disclaimer" →
  lookupProp k (getSafeRecommendation b) = lookupProp k (toObject b).
Proof. intros Hk. by apply lookup_setProp_ne. Qed.

Lemma modelDisclaimer_differs : modelDisclaimer ≠ disclaimer.
Proof. by vm_compute. Qed.



Lemma enhance_data (b : recommendation) (ai enhanced : value) :
  enhance b ai = Return enhanced →
  ∃ extras,
    enhanced = VObj (setProp (u "aiEnhancements") extras (getSafeRecommendation b)).
Proof.
  unfold enhance.
  destruct (stepsNotIn ai _ (treatmentSteps b)); [|done].
  destruct (stepsNotIn ai _ (preventionSteps b)); [|done].
  intros [= <-]. eauto.
Qed.

Lemma enhance_disclaimer (b : recommendation) (ai enhanced : value) :
  enhance b ai = Return enhanced →
  get enhanced (u "disclaimer") = VStr modelDisclaimer.
Proof.
  intros (extras & ->)%enhance_data. cbn [get].
  rewrite lookup_setProp_ne; [apply safe_disclaimer | by vm_compute].
Qed.

Lemma generateRecommendation_invariant (e : env) (key : jsstring) (c : context)
      (w w' : world) (ai : value) :
  generateRecommendation e key c w = (Return ai, w') → parsedInvariant ai.
Proof.
  unfold generateRecommendation, tryCatch, mbind, M_bind, liftC.
  destruct (generateChatCompletion e _ _ w) as [[r|err] w1]; [|done].
  destruct (parseRecommendationResponse (content r)) as [d|err] eqn:Hp; [|done].
  intros [= <- <-]. by eapply parse_invariant.
Qed.



(** C3, as stated, fails: a database fallback and a merged result carry
    the disclaimer of the Recommendation model, which is another sentence
    than the fixed one; and the parser lets an object without
    [whenToEscalate] through. *)
Lemma C3_other_disclaimer_and_unchecked_list :
  (∃ body,
     asyncHandler (generatePost keyless (blackSpotRequest true)) emptyWorld
       = (Json 200 body, emptyWorld) ∧
     get body (u "source") = VStr (u "database-fallback") ∧
     get (get body (u "data")) (u "disclaimer") = VStr modelDisclaimer) ∧
  (∃ body,
     asyncHandler (generatePost online (blackSpotRequest true)) emptyWorld
       = (Json 200 body, emptyWorld) ∧
     get body (u "source") = VStr (u "ai-enhanced") ∧
     get (get body (u "data")) (u "disclaimer") = VStr modelDisclaimer) ∧
  modelDisclaimer ≠ disclaimer ∧
  (∃ d, parseRecommendationResponse (VStr validObject) = Return d ∧
        d ≠ fallbackRecommendation ∧
        get d (u "whenToEscalate") = VUndefined).
Proof.
  split; [eexists; repeat split; by vm_compute|].
  split; [eexists; repeat split; by vm_compute|].
  split; [apply modelDisclaimer_differs|].
  eexists; repeat split; by vm_compute.
Qed.

(** C3, amended: every object that comes out of the parser carries the
    fixed disclaimer and has its summary and its four required lists
    present and not empty (an object that fails this is replaced by the
    fallback; [whenToEscalate] is not checked).  Every response of the
    generate route with a recommendation is of one of three kinds: source
    [ai-generated] with an object of the parser; or source [ai-enhanced] or
    [database-fallback] with the fields of the stored baseline as they are
    and the disclaimer of the Recommendation model, which differs from the
    fixed sentence. *)
Theorem C3_disclaimer_by_source :
  (∀ c d, parseRecommendationResponse c = Return d → parsedInvariant d) ∧
  modelDisclaimer ≠ disclaimer ∧
  ∀ e req w body w',
    asyncHandler (generatePost e req) w = (Json 200 body, w') →
    (get body (u "source") = VStr (u "ai-generated") ∧
     parsedInvariant (get body (u "data")))
    ∨
    ((get body (u "source") = VStr (u "ai-enhanced") ∨
      get body (u "source") = VStr (u "database-fallback")) ∧
     ∃ b, findOne e (normalizeKey (g_diseaseKey req)) = Some b ∧
          get (get body (u "data")) (u "disclaimer") = VStr modelDisclaimer ∧
          ∀ k, k ≠ u "disclaimer" → k ≠ u "aiEnhancements" →
               get (get body (u "data")) k = lookupProp k (toObject b)).
Proof.
  split; [apply parse_invariant|]. split; [apply modelDisclaimer_differs|].
  intros e req w body w'.
  destruct (prepare e req) as [[base c]|err] eqn:Hp;
    [|by rewrite (generatePost_rejected _ _ _ _ Hp)].
  rewrite (generatePost_run _ _ _ _ _ Hp).
  pose proof (prepare_base _ _ _ _ Hp) as Hbase.
  assert (∀ b, base = Some b → findOne e (normalizeKey (g_diseaseKey req)) = Some b) as Hfind.
  { intros b ->. by destruct (g_enhanceExisting req). }
  destruct (generateRecommendation e _ c w) as [[ai|err] w1] eqn:Hg.
  - destruct base as [b|].
    + destruct (enhance b ai) as [enhanced|err] eqn:He; intros [= <- <-]; right.
      * split; [by left|]. exists b. split; [by apply Hfind|].
        change (get (VObj _) (u "data")) with enhanced.
        split; [by eapply enhance_disclaimer|].
        intros k Hk1 Hk2. apply enhance_data in He as (extras & ->). cbn [get].
        rewrite lookup_setProp_ne by done. by apply safe_keeps_fields.
      * split; [by right|]. exists b. split; [by apply Hfind|].
        change (get (VObj _) (u "data")) with (VObj (getSafeRecommendation b)).
        cbn [get]. split; [apply safe_disclaimer|].
        intros k Hk1 Hk2. by apply safe_keeps_fields.
    + intros [= <- <-]. left. split; [done|].
      change (get (VObj _) (u "data")) with ai.
      by eapply generateRecommendation_invariant.
  - destruct base as [b|]; intros [= <- <-].
    right. split; [by right|]. exists b. split; [by apply Hfind|].
    change (get (VObj _) (u "data")) with (VObj (getSafeRecommendation b)).
    cbn [get]. split; [apply safe_disclaimer|].
    intros k Hk1 Hk2. by apply safe_keeps_fields.
Qed.

Lemma C3_witness :
  ∃ body,
    asyncHandler (generatePost online (GenerateRequest (u "canker") emptyContext true))
                 emptyWorld = (Json 200 body, emptyWorld) ∧
    parsedInvariant (get body (u "data")).
Proof.
  eexists. split; [by vm_compute|].
  destruct (proj2 (proj2 C3_disclaimer_by_source) online
              (GenerateRequest (u "canker") emptyContext true) emptyWorld
              _ emptyWorld eq_refl) as [[_ H] | [_ (b & Hb & _)]].
  - exact H.
  - exfalso. by vm_compute in Hb.
Defined.

(** C6, as stated, fails: with [enhanceExisting] unset the route does not
    look the baseline up, so a failure of the gateway is terminal although
    a baseline is stored for the normalized key. *)
Lemma C6_stored_baseline_not_used :
  findOne keyless (normalizeKey (g_diseaseKey (blackSpotRequest false))) = Some blackSpot ∧
  (∃ err, generateRecommendation keyless (u "black-spot") emptyContext emptyWorld
          = (Throw err, emptyWorld)) ∧
  asyncHandler (generatePost keyless (blackSpotRequest false)) emptyWorld
    = (unavailableResponse (u "black-spot"), emptyWorld).
Proof. split; [by vm_compute|]. split; [eexists|]; by vm_compute. Qed.

(** C6, amended: when the call of [generateRecommendation] fails, the
    route answers from the baseline it looked up, and it looks one up only
    when [enhanceExisting] is set: with a baseline, status 200, source
    [database-fallback], a warning, and as data the stored fields of the
    baseline with the model's disclaimer; without one (none stored for the
    normalized key, or [enhanceExisting] unset), status 503 with an error
    and no data.  [BLACK SPOT] normalizes to [black-spot]. *)
Theorem C6_gateway_failure_falls_back
    (e : env) (req : generateRequest) (w w' : world)
    (base : option recommendation) (c : context) (err : exn) :
  prepare e req = Return (base, c) →
  generateRecommendation e (normalizeKey (g_diseaseKey req)) c w = (Throw err, w') →
  base = (if g_enhanceExisting req then findOne e (normalizeKey (g_diseaseKey req))
          else None) ∧
  normalizeKey (u "BLACK SPOT") = u "black-spot" ∧
  ∃ body,
    match base with
    | Some b =>
        asyncHandler (generatePost e req) w = (Json 200 body, w') ∧
        get body (u "source") = VStr (u "database-fallback") ∧
        get body (u "warning")
          = VStr (u "AI enhancement unavailable, returning base recommendation") ∧
        get body (u "data") = VObj (getSafeRecommendation b) ∧
        ∀ k, k ≠ u "disclaimer" →
             get (get body (u "data")) k = lookupProp k (toObject b)
    | None =>
        asyncHandler (generatePost e req) w = (Json 503 body, w') ∧
        get body (u "error") = VStr (u "Unable to generate recommendation at this time") ∧
        get body (u "data") = VUndefined
    end.
Proof.
  intros Hp Hg. split; [by eapply prepare_base|]. split; [by vm_compute|].
  rewrite (generatePost_run _ _ _ _ _ Hp), Hg. destruct base as [b|].
  - eexists. split; [reflexivity|]. repeat split.
    intros k Hk. change (get (VObj _) (u "data")) with (VObj (getSafeRecommendation b)).
    by apply safe_keeps_fields.
  - eexists. split; [reflexivity|]. by split.
Qed.

Lemma C6_witness :
  ∃ body,
    asyncHandler (generatePost keyless (blackSpotRequest true)) emptyWorld
      = (Json 200 body, emptyWorld) ∧
    get body (u "source") = VStr (u "database-fallback") ∧
    get body (u "data") = VObj (getSafeRecommendation blackSpot).
Proof.
  destruct (C6_gateway_failure_falls_back
              keyless (blackSpotRequest true) emptyWorld emptyWorld (Some blackSpot)
              (CtxObject (ContextObject None None None
                            (Some (summary blackSpot, severity blackSpot))))
              (FailedToGenerate ApiKeyNotConfigured))
    as (_ & _ & body & Hr & Hs & _ & Hd & _).
  - reflexivity.
  - reflexivity.
  - exists body. split; [exact Hr|]. split; [exact Hs | exact Hd].
Defined.



(** ** The conversation window *)

Lemma insertDesc_perm (x : chatMessage) (l : list chatMessage) :
  insertDesc x l ≡ₚ x :: l.
Proof.
  induction l as [|y l IH]; [done|]. cbn [insertDesc].
  destruct (createdAt y <=? createdAt x)%Z; [done|].
  by rewrite IH, Permutation_swap.
Qed.

Lemma sortDesc_perm (l : list chatMessage) : sortDesc l ≡ₚ l.
Proof.
  induction l as [|x l IH]; [done|]. unfold sortDesc in *. cbn [foldr].
  by rewrite insertDesc_perm, IH.
Qed.

Lemma insertDesc_sorted (x : chatMessage) (l : list chatMessage) :
  newestFirst l → newestFirst (insertDesc x l).
Proof.
  unfold newestFirst. induction l as [|y l IH]; intros Hl; cbn [insertDesc].
  - by repeat constructor.
  - apply StronglySorted_inv in Hl as [Hl Hy].
    destruct (createdAt y <=? createdAt x)%Z eqn:Hxy.
    + apply Z.leb_le in Hxy. constructor; [by constructor|].
      constructor; [done|]. eapply Forall_impl; [exact Hy|]. cbn. intros; lia.
    + apply Z.leb_gt in Hxy. constructor; [by apply IH|].
      rewrite insertDesc_perm. constructor; [lia | done].
Qed.

Lemma sortDesc_sorted (l : list chatMessage) : newestFirst (sortDesc l).
Proof.
  induction l as [|x l IH]; [constructor|]. by apply insertDesc_sorted.
Qed.

Lemma sorted_rev (l : list chatMessage) : newestFirst l → chronologicalOrder (rev l).
Proof.
  unfold newestFirst, chronologicalOrder. induction 1 as [|x l Hl IH Hx]; [constructor|].
  cbn [rev]. apply StronglySorted_app_2; [| done | by repeat constructor].
  intros a b Ha ->%list_elem_of_singleton.
  rewrite Forall_forall in Hx. apply Hx.
  apply list_elem_of_In, in_rev. by apply list_elem_of_In.
Qed.




(** ** Retention *)


(** * Further properties *)
Import JsArray ChatRoutes RecommendationRoutes Validation ErrorHandler Logger Index.
Import Lookaround Security Notions Cases.

(** ** The adapter and the routes *)

(** X1: [generateRecommendation] never sends a request to the external API and
    never touches the collections.  Its own prompt holds the words [exact
    chemical dosages], which the safety filter takes for an unsafe request:
    with a key configured the canned refusal is parsed and the result is
    the canonical fallback object, whatever the disease key and the
    context; without a key it fails with the wrapped configuration error. *)
Theorem generateRecommendation_never_reaches_api
        (e : env) (key : jsstring) (c : context) (w : world) :
  generateRecommendation e key c w =
  (match groqApiKey e with
   | Some (_ :: _) => Return fallbackRecommendation
   | Some [] | None => Throw (FailedToGenerate ApiKeyNotConfigured)
   end, w).
Proof.
  destruct (groqApiKey e) as [[|c0 k]|] eqn:Hk.
  - apply generateRecommendation_unconfigured. intros (? & ? & ?). congruence.
  - apply generateRecommendation_configured. by exists c0, k.
  - apply generateRecommendation_unconfigured. intros (? & ? & ?). congruence.
Qed.

(** X2: the generate route leaves the world as it found it (no request to the
    external API, no change to the chat collection), whatever the request
    and the configuration; and whenever it answers with the source
    [ai-generated], the data is the canonical fallback object. *)
Theorem generate_route_never_reaches_api (e : env) (req : generateRequest) (w : world) :
  ∃ r, asyncHandler (generatePost e req) w = (r, w) ∧
       ∀ data c, r = generatedResponse data c → data = fallbackRecommendation.
Proof.
  destruct (prepare e req) as [[base c]|err] eqn:Hp.
  - rewrite (generatePost_run _ _ _ _ _ Hp).
    destruct (configured_dec e) as [He|He];
      [rewrite generateRecommendation_configured by done
      |rewrite generateRecommendation_unconfigured by done];
      destruct base as [b|];
      try destruct (enhance b fallbackRecommendation);
      eexists; (split; [reflexivity|]); intros data c'; unfold enhancedResponse,
        generatedResponse, fallbackResponse, unavailableResponse; intros [=]; done.
  - rewrite (generatePost_rejected _ _ _ _ Hp). eexists; split; [done|]. by intros ?? [=].
Qed.

(** X3: a generate request whose [context] is a string (what the request
    validator admits) and for which a baseline is stored, with
    [enhanceExisting] set, does not reach the adapter: the assignment of
    [context.existingRecommendation] raises a TypeError outside the [try],
    which goes to the error middleware; nothing is sent. *)
Theorem generate_string_context_raises
        (e : env) (key s : jsstring) (b : recommendation) (w : world) :
  findOne e (normalizeKey key) = Some b →
  asyncHandler (generatePost e (GenerateRequest key (CtxString s) true)) w
  = (ToErrorHandler TypeError, w).
Proof.
  intros Hb. apply generatePost_rejected.
  unfold prepare. cbn [g_enhanceExisting g_diseaseKey g_context]. by rewrite Hb.
Qed.

Lemma generate_string_context_raises_witness :
  findOne online (normalizeKey (u "black-spot")) = Some blackSpot ∧
  asyncHandler (generatePost online
                  (GenerateRequest (u "black-spot") (CtxString (u "after rain")) true))
               emptyWorld
  = (ToErrorHandler TypeError, emptyWorld).
Proof.
  assert (findOne online (normalizeKey (u "black-spot")) = Some blackSpot) as H
    by (by vm_compute).
  split; [exact H|]. exact (generate_string_context_raises _ _ _ _ _ H).
Defined.

Lemma formatMessages_id (messages : list message) : formatMessages messages = messages.
Proof.
  unfold formatMessages. induction messages as [|[r c] l IH]; [done|].
  cbn [map role_of content_of]. by rewrite IH.
Qed.

Lemma gateway_outcome (e : env) (messages : list message) (o : options) (w : world) :
  ∃ c w', generateChatCompletion e messages o w = (c, w') ∧
    chatMessages w' = chatMessages w ∧
    (sent w' = sent w ∨ sent w' = sent w ++ [buildPayload e messages o]) ∧
    match c with
    | Throw x => ∃ cause, x = FailedToGenerate cause
    | Return r => content r ≠ VStr []
    end.
Proof.
  destruct (generateChatCompletion e messages o w) as [c w'] eqn:Hg.
  exists c, w'. split; [done|].
  assert (match c with Return r => content r ≠ VStr [] | Throw _ => True end) as Hne.
  { destruct c; [|done]. by eapply reply_content_nonempty. }
  revert Hg. unfold generateChatCompletion, tryCatch, attemptChatCompletion.
  destruct (groqApiKey e) as [[|c0 k]|].
  1,3: intros [= <- <-]; split; [done|]; split; [by left|]; by eexists.
  destruct (match findUser messages with
            | Some m => isUnsafeRequest (content_of m)
            | None => false
            end).
  { intros [= <- <-]. split; [done|]. split; [by left|]. done. }
  unfold callGroq, mbind, M_bind, doFetch, liftC, throw, mret, M_ret.
  destruct (fetch e _) as [|[] st tx [result|]];
    try (intros [= <- <-]; cbn [chatMessages sent]; split; [done|]; split;
         [by right|]; by eexists).
  destruct (extractContent result) as [c0'|];
    try (intros [= <- <-]; cbn [chatMessages sent]; split; [done|]; split;
         [by right|]; by eexists).
  destruct (ensureDisclaimer c0') as [c1|];
    try (intros [= <- <-]; cbn [chatMessages sent]; split; [done|]; split;
         [by right|]; by eexists).
  intros [= <- <-]. cbn [chatMessages sent]. split; [done|]. split; [by right|].
  exact Hne.
Qed.

(** X4: [generateChatCompletion] never changes the chat collection and sends
    at most one request.  A request is sent only with a key configured and
    a first user message that passes the filter; it carries the messages
    exactly as given and [stream: false].  Every failure is raised as
    [Failed to generate response: ...]. *)
Theorem gateway_sends_at_most_one_request
        (e : env) (messages : list message) (o : options) (w : world) :
  ∃ c w', generateChatCompletion e messages o w = (c, w') ∧
    chatMessages w' = chatMessages w ∧
    (sent w' = sent w ∨
     ∃ p, sent w' = sent w ++ [p] ∧ p_messages p = messages ∧ p_stream p = false ∧
          configured e ∧ passesFilter messages) ∧
    (∀ x, c = Throw x → ∃ cause, x = FailedToGenerate cause).
Proof.
  destruct (gateway_outcome e messages o w) as (c & w' & Hg & Hc & Hs & Hx).
  exists c, w'. split; [done|]. split; [done|]. split.
  - destruct (configured_dec e) as [He|He].
    + destruct (findUser messages) as [m|] eqn:Hm.
      * destruct (isUnsafeRequest (content_of m)) eqn:Hu.
        -- rewrite (gateway_refuses e _ _ m) in Hg by done.
           injection Hg as [= _ <-]. by left.
        -- destruct Hs as [Hs|Hs]; [by left|]. right. eexists. split; [exact Hs|].
           cbn [buildPayload p_messages p_stream]. rewrite formatMessages_id.
           repeat split; try done. unfold passesFilter. by rewrite Hm.
      * destruct Hs as [Hs|Hs]; [by left|]. right. eexists. split; [exact Hs|].
        cbn [buildPayload p_messages p_stream]. rewrite formatMessages_id.
        repeat split; try done. unfold passesFilter. by rewrite Hm.
    + rewrite gateway_unconfigured in Hg by done. injection Hg as [= _ <-]. by left.
  - intros x ->. exact Hx.
Qed.

(** The chat route, step by step. *)
Lemma chatPost_run (e : env) (req : chatRequest) (w : world) :
  (1 ≤ length (r_message req) ≤ 4000)%nat →
  let sid := r_sessionId req in
  let recent := limit 8 (sortDesc (findSession sid (chatMessages w))) in
  let messages := addSystemMessage (conversationHistory recent (r_message req)) in
  let w1 := World (chatMessages w ++ [ChatMessage sid User (r_message req) (now e)])
                  (sent w) in
  let unavailable := Json 503 (VObj
         [ (u "error", VStr (u "Chat service temporarily unavailable"));
           (u "message", VStr (u "Please try again in a few moments"));
           (u "sessionId", VStr sid) ]) in
  asyncHandler (chatPost e req) w =
  if r_stream req then
    (Streamed 200 streamError,
     (generateChatCompletion e messages
        (Options VUndefined (VNum false 7 (-1)) VUndefined VUndefined) w1).2)
  else
    match generateChatCompletion e messages
            (Options VUndefined (VNum false 7 (-1)) (VNum false 600 0) VUndefined) w1 with
    | (Return r, w2) =>
        match content r with
        | VStr s =>
            if bool_decide (1 ≤ length s ≤ 4000)%nat then
              (Json 200 (VObj
                 [ (u "success", VBool true);
                   (u "data", VObj
                      [ (u "message", VStr s);
                        (u "sessionId", VStr sid);
                        (u "timestamp", VStr (nowISO e));
                        (u "metadata", VObj
                           [ (u "processingTime", number (elapsed e));
                             (u "model", model r) ]) ]) ]),
               World (chatMessages w2 ++ [ChatMessage sid Assistant s (now e)]) (sent w2))
            else (unavailable, w2)
        | _ => (unavailable, w2)
        end
    | (Throw _, w2) => (unavailable, w2)
    end.
Proof.
  intros Hlen sid recent messages w1 unavailable.
  unfold asyncHandler, chatPost, mbind, M_bind, getRecentContext, tryCatch.
  unfold save at 1. rewrite bool_decide_eq_true_2 by done.
  fold sid. fold recent. fold messages. cbn [chatMessages sent]. fold w1.
  destruct (r_stream req).
  - destruct (generateChatCompletion e messages _ w1) as [[r|x] w2]; reflexivity.
  - destruct (generateChatCompletion e messages _ w1) as [[r|x] w2]; [|reflexivity].
    unfold save. destruct (content r) as [| | | |s| |] eqn:Hc; try reflexivity.
    destruct (bool_decide (1 ≤ length s ≤ 4000)%nat); reflexivity.
Qed.

(** X5: a chat request with [stream] set never gets an answer of the model:
    the reply of the gateway has no [body], reading it raises, and under
    status 200 the client receives the text of the error; the user turn is
    stored and no assistant turn is. *)
Theorem chat_stream_never_delivers (e : env) (req : chatRequest) (w : world) :
  r_stream req = true →
  (1 ≤ length (r_message req) ≤ 4000)%nat →
  ∃ w',
    asyncHandler (chatPost e req) w = (Streamed 200 streamError, w') ∧
    chatMessages w' =
      chatMessages w ++ [ChatMessage (r_sessionId req) User (r_message req) (now e)].
Proof.
  intros Hs Hlen. rewrite (chatPost_run e req w Hlen). rewrite Hs.
  eexists. split; [reflexivity|].
  match goal with
  | |- chatMessages (generateChatCompletion ?e ?m ?o ?w1).2 = _ =>
      destruct (gateway_outcome e m o w1) as (c & w' & -> & Hc & _)
  end.
  cbn [snd]. by rewrite Hc.
Qed.

Lemma chat_stream_never_delivers_witness :
  ∃ w',
    asyncHandler (chatPost online (yellowLeaves true))
                 emptyWorld
    = (Streamed 200 streamError, w') ∧
    chatMessages w' =
      chatMessages emptyWorld ++
      [ChatMessage (u "s1") User (u "My leaves are yellow") (now online)].
Proof.
  apply (chat_stream_never_delivers online
           (yellowLeaves true) emptyWorld).
  - reflexivity.
  - split; apply Nat.leb_le; by vm_compute.
Defined.

(** X6: a chat request without [stream], with a message of 1 to 4000 code
    units, is answered either with status 200, in which case the message
    returned is a text of 1 to 4000 code units and is the assistant turn
    stored right after the user turn, or with status 503 and the session
    id, in which case the user turn alone is stored.  The handler never
    passes an error on. *)
Theorem chat_answer_is_stored_or_unavailable (e : env) (req : chatRequest) (w : world) :
  r_stream req = false →
  (1 ≤ length (r_message req) ≤ 4000)%nat →
  let userTurn := ChatMessage (r_sessionId req) User (r_message req) (now e) in
  ∃ status body w',
    asyncHandler (chatPost e req) w = (Json status body, w') ∧
    ((status = 200 ∧
      ∃ answer,
        get (get body (u "data")) (u "message") = VStr answer ∧
        (1 ≤ length answer ≤ 4000)%nat ∧
        chatMessages w' =
          chatMessages w ++
          [userTurn; ChatMessage (r_sessionId req) Assistant answer (now e)])
     ∨
     (status = 503 ∧
      get body (u "sessionId") = VStr (r_sessionId req) ∧
      chatMessages w' = chatMessages w ++ [userTurn])).
Proof.
  intros Hs Hlen userTurn. rewrite (chatPost_run e req w Hlen). rewrite Hs.
  match goal with
  | |- context [generateChatCompletion ?e ?m ?o ?w1] =>
      destruct (gateway_outcome e m o w1) as (c & w2 & -> & Hc & _)
  end.
  cbn [chatMessages] in Hc.
  destruct c as [r|x].
  - destruct (content r) as [| | | |s| |].
    1-4,6-7: do 3 eexists; (split; [reflexivity|]); right; by rewrite Hc.
    destruct (bool_decide (1 ≤ length s ≤ 4000)%nat) eqn:Hb.
    + apply bool_decide_eq_true_1 in Hb. do 3 eexists. split; [reflexivity|]. left.
      split; [done|]. exists s. split; [reflexivity|]. split; [done|].
      cbn [chatMessages]. rewrite Hc. by rewrite <- app_assoc.
    + do 3 eexists. split; [reflexivity|]. right. by rewrite Hc.
  - do 3 eexists. split; [reflexivity|]. right. by rewrite Hc.
Qed.

Lemma chat_answer_is_stored_or_unavailable_witness :
  ∃ status body w',
    asyncHandler (chatPost online (yellowLeaves false))
                 emptyWorld
    = (Json status body, w') ∧
    ((status = 200 ∧
      ∃ answer,
        get (get body (u "data")) (u "message") = VStr answer ∧
        (1 ≤ length answer ≤ 4000)%nat ∧
        chatMessages w' =
          chatMessages emptyWorld ++
          [ChatMessage (u "s1") User (u "My leaves are yellow") (now online);
           ChatMessage (u "s1") Assistant answer (now online)])
     ∨
     (status = 503 ∧
      get body (u "sessionId") = VStr (u "s1") ∧
      chatMessages w' =
        chatMessages emptyWorld ++
        [ChatMessage (u "s1") User (u "My leaves are yellow") (now online)])).
Proof.
  apply (chat_answer_is_stored_or_unavailable online
           (yellowLeaves false) emptyWorld).
  - reflexivity.
  - split; apply Nat.leb_le; by vm_compute.
Defined.

Lemma limit_length (n : nat) (l : list chatMessage) :
  (0 < n)%nat → (length (limit n l) ≤ n)%nat.
Proof. destruct n; [lia|]. intros _. unfold limit. rewrite length_take. lia. Qed.

Lemma limit_subseteq (n : nat) (l : list chatMessage) (x : chatMessage) :
  x ∈ limit n l → x ∈ l.
Proof.
  destruct n; [done|]. unfold limit. intros Hx.
  rewrite <- (take_drop (S n) l). apply elem_of_app. by left.
Qed.

(** X7: whatever the chat route sends to the external API is one request whose
    messages are the system prompt, then at most eight turns of that
    session (role and content), then the message of the request; the
    [stream] flag of the request is not forwarded. *)
Theorem chat_request_shape (e : env) (req : chatRequest) (w : world) :
  (1 ≤ length (r_message req) ≤ 4000)%nat →
  ∃ r w',
    asyncHandler (chatPost e req) w = (r, w') ∧
    (sent w' = sent w ∨
     ∃ p history,
       sent w' = sent w ++ [p] ∧
       p_messages p =
         Message System chatSystemPrompt :: history ++ [Message User (r_message req)] ∧
       (length history ≤ 8)%nat ∧
       (∀ m, m ∈ history →
             ∃ t, t ∈ chatMessages w ∧ sessionId t = r_sessionId req ∧
                  m = Message (msgRole t) (msgContent t)) ∧
       p_stream p = false).
Proof.
  intros Hlen.
  set (recent := limit 8 (sortDesc (findSession (r_sessionId req) (chatMessages w)))).
  assert (∀ o w1, sent w1 = sent w →
            let w2 := (generateChatCompletion e
                         (addSystemMessage (conversationHistory recent (r_message req)))
                         o w1).2 in
            sent w2 = sent w ∨
            ∃ p history,
              sent w2 = sent w ++ [p] ∧
              p_messages p =
                Message System chatSystemPrompt :: history
                  ++ [Message User (r_message req)] ∧
              (length history ≤ 8)%nat ∧
              (∀ m, m ∈ history →
                    ∃ t, t ∈ chatMessages w ∧ sessionId t = r_sessionId req ∧
                         m = Message (msgRole t) (msgContent t)) ∧
              p_stream p = false) as Hsent.
  { intros o w1 Hw1 w2. subst w2.
    destruct (gateway_outcome e
                (addSystemMessage (conversationHistory recent (r_message req))) o w1)
      as (c & w2 & -> & _ & Hs & _).
    cbn [snd]. rewrite Hw1 in Hs. destruct Hs as [Hs|Hs]; [by left|]. right.
    exists (buildPayload e
              (addSystemMessage (conversationHistory recent (r_message req))) o),
           (map (fun msg => Message (msgRole msg) (msgContent msg)) (chronological recent)).
    split; [done|]. cbn [buildPayload p_messages p_stream]. rewrite formatMessages_id.
    split; [reflexivity|]. split.
    { rewrite length_map. unfold chronological. rewrite length_rev.
      apply limit_length. lia. }
    split; [|done].
    intros m [t [-> Ht]]%list_elem_of_fmap.
    unfold chronological in Ht. apply list_elem_of_In, in_rev, list_elem_of_In in Ht.
    apply limit_subseteq in Ht. rewrite (sortDesc_perm _) in Ht.
    apply list_elem_of_filter in Ht as [Hsid Hin]. by exists t. }
  rewrite (chatPost_run e req w Hlen). fold recent.
  destruct (r_stream req).
  - do 2 eexists. split; [reflexivity|]. by apply Hsent.
  - match goal with
    | |- context [generateChatCompletion ?e ?m ?o ?w1] =>
        specialize (Hsent o w1 eq_refl);
        destruct (generateChatCompletion e m o w1) as [[r|x] w2]
    end; cbn [snd] in Hsent.
    + destruct (content r) as [| | | |s| |];
        try (do 2 eexists; split; [reflexivity|]; exact Hsent).
      destruct (bool_decide (1 ≤ length s ≤ 4000)%nat);
        do 2 eexists; (split; [reflexivity|]); exact Hsent.
    + do 2 eexists. split; [reflexivity|]. exact Hsent.
Qed.

Lemma chat_request_shape_witness :
  ∃ r w',
    asyncHandler (chatPost online askForKey) oneTurn = (r, w') ∧
    (sent w' = sent oneTurn ∨
     ∃ p history,
       sent w' = sent oneTurn ++ [p] ∧
       p_messages p =
         Message System chatSystemPrompt :: history
           ++ [Message User (r_message askForKey)] ∧
       (length history ≤ 8)%nat ∧
       (∀ m, m ∈ history →
             ∃ t, t ∈ chatMessages oneTurn ∧ sessionId t = r_sessionId askForKey ∧
                  m = Message (msgRole t) (msgContent t)) ∧
       p_stream p = false).
Proof.
  apply (chat_request_shape online askForKey oneTurn).
  split; apply Nat.leb_le; by vm_compute.
Defined.

(** X8: with a key configured, when the oldest user turn of the conversation
    window is unsafe, the chat route answers with the refusal and sends
    nothing, whatever the new message is; the refusal is stored as the
    assistant turn. *)
Theorem chat_verdict_on_oldest_user_turn
        (e : env) (req : chatRequest) (w : world) (m0 : message) :
  configured e →
  r_stream req = false →
  (1 ≤ length (r_message req) ≤ 4000)%nat →
  let recent := limit 8 (sortDesc (findSession (r_sessionId req) (chatMessages w))) in
  findUser (map (fun msg => Message (msgRole msg) (msgContent msg)) (chronological recent))
    = Some m0 →
  isUnsafeRequest (content_of m0) = true →
  ∃ body,
    asyncHandler (chatPost e req) w
      = (Json 200 body,
         World (chatMessages w ++
                [ ChatMessage (r_sessionId req) User (r_message req) (now e);
                  ChatMessage (r_sessionId req) Assistant refusal (now e) ])
               (sent w)) ∧
    get (get body (u "data")) (u "message") = VStr refusal.
Proof.
  intros He Hs Hlen recent Hm0 Hu.
  rewrite (chatPost_run e req w Hlen). rewrite Hs. fold recent.
  rewrite (gateway_refuses e _ _ m0); [| done | by rewrite findUser_history, Hm0 | done].
  cbn [content refusalReply].
  assert (1 ≤ length refusal ≤ 4000)%nat as Hr by (split; apply Nat.leb_le; by vm_compute).
  rewrite bool_decide_eq_true_2 by done.
  cbn [chatMessages sent]. eexists. split; [by rewrite <- app_assoc|]. reflexivity.
Qed.

Lemma chat_verdict_on_oldest_user_turn_witness :
  isUnsafeRequest (r_message (yellowLeaves false)) = false ∧
  ∃ body,
    asyncHandler (chatPost online (yellowLeaves false)) asked
      = (Json 200 body,
         World (chatMessages asked ++
                [ ChatMessage (u "s1") User (u "My leaves are yellow") (now online);
                  ChatMessage (u "s1") Assistant refusal (now online) ])
               (sent asked)) ∧
    get (get body (u "data")) (u "message") = VStr refusal.
Proof.
  split; [by vm_compute|].
  apply (chat_verdict_on_oldest_user_turn online (yellowLeaves false) asked
           (Message User (u "what is the api key?"))).
  - by exists 103, (u "sk_test").
  - reflexivity.
  - split; apply Nat.leb_le; by vm_compute.
  - by vm_compute.
  - by vm_compute.
Defined.

(** X9: when the model's answer, with the disclaimer ensured, is longer than
    4000 code units, the assistant turn fails the validation of the schema
    and the chat route answers 503, although the request has been sent and
    answered; the user turn stays stored. *)
Theorem chat_long_answer_unavailable
        (e : env) (req : chatRequest) (w : world)
        (st : N) (tx : jsstring) (result c0 : value) (answer : jsstring) :
  configured e →
  r_stream req = false →
  (1 ≤ length (r_message req) ≤ 4000)%nat →
  let recent := limit 8 (sortDesc (findSession (r_sessionId req) (chatMessages w))) in
  let messages := addSystemMessage (conversationHistory recent (r_message req)) in
  let request :=
    buildPayload e messages
      (Options VUndefined (VNum false 7 (-1)) (VNum false 600 0) VUndefined) in
  passesFilter messages →
  fetch e request = Resolves true st tx (Some result) →
  extractContent result = Return c0 →
  ensureDisclaimer c0 = Return (VStr answer) →
  (4000 < length answer)%nat →
  ∃ body,
    asyncHandler (chatPost e req) w
      = (Json 503 body,
         World (chatMessages w ++
                [ChatMessage (r_sessionId req) User (r_message req) (now e)])
               (sent w ++ [request])).
Proof.
  intros He Hs Hlen recent messages request Hp Hf Hc0 Hc1 Hlong.
  rewrite (chatPost_run e req w Hlen). rewrite Hs. fold recent. fold messages.
  rewrite gateway_calls by done. unfold tryCatch.
  rewrite (callGroq_answer _ _ _ _ st tx result) by exact Hf.
  rewrite Hc0, Hc1. cbn [content].
  rewrite bool_decide_eq_false_2 by lia.
  cbn [chatMessages sent]. fold request. by eexists.
Qed.

Lemma chat_long_answer_unavailable_witness :
  ∃ body,
    asyncHandler (chatPost verbose (yellowLeaves false)) emptyWorld
      = (Json 503 body,
         World (chatMessages emptyWorld ++
                [ChatMessage (u "s1") User (u "My leaves are yellow") (now verbose)])
               (sent emptyWorld ++
                [buildPayload verbose
                   (addSystemMessage
                      (conversationHistory
                         (limit 8 (sortDesc (findSession (u "s1") (chatMessages emptyWorld))))
                         (u "My leaves are yellow")))
                   (Options VUndefined (VNum false 7 (-1)) (VNum false 600 0) VUndefined)])).
Proof.
  apply (chat_long_answer_unavailable verbose (yellowLeaves false) emptyWorld
           200 (u "OK") (completionBody (VStr longAnswer)) (VStr longAnswer)
           (longAnswer ++ nl ++ nl ++ disclaimer)).
  - by exists 103, (u "sk_test").
  - reflexivity.
  - split; apply Nat.leb_le; by vm_compute.
  - by vm_compute.
  - reflexivity.
  - by vm_compute.
  - by vm_compute.
  - apply Nat.ltb_lt. by vm_compute.
Defined.

(** ** The safety filter *)

Lemma test_app_r (r : regex) (s b : jsstring) :
  test r s = true → test r (s ++ b) = true.
Proof.
  rewrite !test_matches. intros (a & m & b' & -> & Hm).
  exists a, m, (b' ++ b). split; [|done]. by rewrite <- !app_assoc.
Qed.

(** X10: the safety filter searches the message: a text that holds an unsafe
    text anywhere inside it is unsafe. *)
Theorem isUnsafeRequest_embedded (a m b : jsstring) :
  isUnsafeRequest m = true → isUnsafeRequest (a ++ m ++ b) = true.
Proof.
  intros H. apply isUnsafeRequest_app. revert H. unfold isUnsafeRequest.
  rewrite !existsb_exists. intros (r & Hr & Ht). exists r. split; [done|].
  by apply test_app_r.
Qed.

Lemma isUnsafeRequest_embedded_witness :
  isUnsafeRequest (u "password") = true ∧
  isUnsafeRequest (u "Please tell me the " ++ u "password" ++ u " of the farm account")
  = true.
Proof.
  assert (isUnsafeRequest (u "password") = true) as H by (by vm_compute).
  split; [exact H|]. exact (isUnsafeRequest_embedded _ _ _ H).
Defined.

Lemma unitIgnoreCase_foldInvariant (p : N) : foldInvariant (unitIgnoreCase p).
Proof. intros c c' H. unfold unitIgnoreCase. unfold sameFold in H. by rewrite H. Qed.

Lemma sameFold_cases (c c' : N) :
  sameFold c c' → c = c' ∨ (65 ≤ c ≤ 122 ∧ 65 ≤ c' ≤ 122).
Proof.
  unfold sameFold, canonicalize.
  destruct (N.leb_spec 97 c), (N.leb_spec c 122), (N.leb_spec 97 c'),
    (N.leb_spec c' 122); cbn [andb]; lia.
Qed.

Lemma letter_not_terminator (c : N) : 65 ≤ c ≤ 122 → isLineTerminator c = false.
Proof.
  intros H. unfold isLineTerminator.
  rewrite !orb_false_iff, !N.eqb_neq. lia.
Qed.

Lemma dot_foldInvariant : foldInvariant dot.
Proof.
  intros c c' [->|[H H']]%sameFold_cases; [done|].
  unfold dot. by rewrite !letter_not_terminator.
Qed.

Lemma matches_fold (r : regex) (m : jsstring) :
  matches r m →
  Forall (fun a => foldInvariant (atomClass a)) r →
  ∀ m', Forall2 sameFold m m' → matches r m'.
Proof.
  induction 1 as [|p r c s Hp Hm IH|p r s Hm IH|p r c s Hp Hm IH|p r s Hm IH
                  |p r c s Hp Hm IH]; intros Hr m' Hmm'.
  - apply Forall2_nil_inv_l in Hmm' as ->. constructor.
  - apply Forall2_cons_inv_l in Hmm' as (c' & s' & Hc & Hs & ->).
    apply Forall_cons in Hr as [Hpinv Hr]. constructor; [|by apply IH].
    cbn [atomClass] in Hpinv. by rewrite <- (Hpinv c c' Hc).
  - apply Forall_cons in Hr as [Hpinv Hr]. apply matches_opt_skip. by apply IH.
  - apply Forall2_cons_inv_l in Hmm' as (c' & s' & Hc & Hs & ->).
    apply Forall_cons in Hr as [Hpinv Hr]. apply matches_opt_take; [|by apply IH].
    cbn [atomClass] in Hpinv. by rewrite <- (Hpinv c c' Hc).
  - apply Forall_cons in Hr as [Hpinv Hr]. apply matches_star_stop. by apply IH.
  - apply Forall2_cons_inv_l in Hmm' as (c' & s' & Hc & Hs & ->).
    pose proof Hr as Hr'. apply Forall_cons in Hr' as [Hpinv _].
    apply matches_star_step; [|by apply IH].
    cbn [atomClass] in Hpinv. by rewrite <- (Hpinv c c' Hc).
Qed.

Lemma test_fold (r : regex) (s s' : jsstring) :
  Forall (fun a => foldInvariant (atomClass a)) r →
  Forall2 sameFold s s' → test r s = true → test r s' = true.
Proof.
  intros Hr Hs. rewrite !test_matches. intros (a & m & b & -> & Hm).
  apply Forall2_app_inv_l in Hs as (a' & mb' & Ha & Hmb & ->).
  apply Forall2_app_inv_l in Hmb as (m' & b' & Hm' & Hb & ->).
  exists a', m', b'. split; [done|]. by eapply matches_fold.
Qed.

Lemma litIgnoreCase_fold (s : string) :
  Forall (fun a => foldInvariant (atomClass a)) (litIgnoreCase s).
Proof.
  unfold litIgnoreCase. induction (u s) as [|p l IH]; [by constructor|].
  cbn [map]. constructor; [|done]. apply unitIgnoreCase_foldInvariant.
Qed.

Lemma unsafePatterns_fold :
  Forall (fun r => Forall (fun a => foldInvariant (atomClass a)) r) unsafePatterns.
Proof.
  unfold unsafePatterns.
  repeat first [ apply Forall_nil_2
               | apply Forall_cons_2
               | apply Forall_app_2
               | apply litIgnoreCase_fold
               | exact (unitIgnoreCase_foldInvariant _)
               | exact dot_foldInvariant ].
Qed.

Lemma sameFold_sym (s s' : jsstring) : Forall2 sameFold s s' → Forall2 sameFold s' s.
Proof. intros H. apply Forall2_flip. eapply Forall2_impl; [exact H|]. by intros ?? ->. Qed.

Lemma isUnsafeRequest_fold_true (s s' : jsstring) :
  Forall2 sameFold s s' → isUnsafeRequest s = true → isUnsafeRequest s' = true.
Proof.
  intros Hs. unfold isUnsafeRequest. rewrite !existsb_exists.
  intros (r & Hr & Ht). exists r. split; [done|].
  eapply test_fold; [|exact Hs|exact Ht].
  pose proof unsafePatterns_fold as HF. rewrite Forall_forall in HF.
  apply HF. by apply list_elem_of_In.
Qed.

(** X11: the verdict of the safety filter does not depend on the case of the
    ASCII letters: two texts of the same length whose code units agree
    up to the folding of the patterns get the same verdict. *)
Theorem isUnsafeRequest_ignores_ascii_case (s s' : jsstring) :
  Forall2 (fun c c' => canonicalize c = canonicalize c') s s' →
  isUnsafeRequest s' = isUnsafeRequest s.
Proof.
  intros Hs.
  destruct (isUnsafeRequest s) eqn:E.
  - by apply (isUnsafeRequest_fold_true s s').
  - destruct (isUnsafeRequest s') eqn:E'; [|done].
    apply (isUnsafeRequest_fold_true s' s) in E'; [congruence|].
    by apply sameFold_sym.
Qed.

Lemma isUnsafeRequest_ignores_ascii_case_witness :
  Forall2 (fun c c' => canonicalize c = canonicalize c')
          (u "api key") (u "API Key") ∧
  isUnsafeRequest (u "API Key") = isUnsafeRequest (u "api key").
Proof.
  assert (Forall2 (fun c c' => canonicalize c = canonicalize c')
                  (u "api key") (u "API Key")) as H.
  { repeat (constructor; [by vm_compute|]). constructor. }
  split; [exact H|]. exact (isUnsafeRequest_ignores_ascii_case _ _ H).
Defined.

(** ** Disease keys *)

(** Texts without white space, searches without a match. *)
Lemma trimStart_id (s : jsstring) :
  Forall (fun c => isSpace c = false) s → trimStart s = s.
Proof. destruct s as [|c s]; [done|]. intros [Hc _]%Forall_cons. cbn. by rewrite Hc. Qed.

Lemma trim_id (s : jsstring) :
  Forall (fun c => isSpace c = false) s → trim s = s.
Proof.
  intros H. unfold trim, trimEnd. rewrite (trimStart_id s H).
  rewrite trimStart_id; [apply rev_involutive|].
  apply Forall_forall. intros c Hc. rewrite Forall_forall in H. apply H.
  by apply list_elem_of_In, in_rev, list_elem_of_In in Hc.
Qed.

Lemma exec_first_None (p : N → bool) (r : regex) (s : jsstring) :
  Forall (fun c => p c = false) s → exec (One p :: r) s = None.
Proof.
  induction s as [|c s IH]; [done|]. intros [Hc Hs]%Forall_cons.
  cbn [exec execHere]. rewrite Hc. by rewrite IH.
Qed.

Lemma replaceAll_None (r : regex) (rep s : jsstring) :
  exec r s = None → replaceAll r rep s = s.
Proof. intros H. unfold replaceAll. cbn [replaceLoop]. by rewrite H. Qed.

Lemma replaceAll_step (r : regex) (rep s b m a : jsstring) :
  exec r s = Some (Found b m a) → m ≠ [] →
  replaceAll r rep s = b ++ rep ++ replaceAll r rep a.
Proof.
  intros H Hm. pose proof (exec_split _ _ _ _ _ H) as Hs.
  unfold replaceAll at 1. cbn [replaceLoop]. rewrite H.
  destruct m as [|c m]; [done|]. do 2 f_equal. apply replaceAll_fuel.
  subst s. rewrite !length_app. cbn [length]. lia.
Qed.







Lemma lowerUnit_fixed (c : N) : lowerUnit c = c ↔ ¬ (65 ≤ c ≤ 90).
Proof.
  unfold lowerUnit.
  destruct (N.leb_spec 65 c), (N.leb_spec c 90); cbn [andb]; lia.
Qed.

Lemma lowerUnit_idem (c : N) : lowerUnit (lowerUnit c) = lowerUnit c.
Proof.
  apply lowerUnit_fixed. unfold lowerUnit.
  destruct (N.leb_spec 65 c), (N.leb_spec c 90); cbn [andb]; lia.
Qed.

Lemma toLowerCase_id (s : jsstring) :
  Forall (fun c => lowerUnit c = c) s → toLowerCase s = s.
Proof.
  unfold toLowerCase. induction 1 as [|c s Hc Hs IH]; [done|].
  cbn [map]. by rewrite Hc, IH.
Qed.



Lemma normalizeKey_fixed (key : jsstring) :
  Forall (fun c => isSpace c = false) key →
  Forall (fun c => lowerUnit c = c) key →
  normalizeKey key = key.
Proof.
  intros Hs Hl. unfold normalizeKey. rewrite (toLowerCase_id _ Hl), (trim_id _ Hs).
  apply replaceAll_None. by apply exec_first_None.
Qed.


(** The validator's pattern. *)
Lemma starLoop_endOfInput (p : N → bool) (s : jsstring) :
  is_Some (starLoop p endOfInput s) ↔ Forall (fun c => p c = true) s.
Proof.
  induction s as [|c s IH]; cbn [starLoop endOfInput].
  - split; [by constructor|by eexists].
  - destruct (p c) eqn:Hc.
    + destruct (starLoop p endOfInput s) as [t|].
      * split; [|by eexists]. intros _. constructor; [done|]. apply IH. by eexists.
      * split; [by intros [? [=]]|]. intros [_ Hs]%Forall_cons.
        apply IH in Hs. by destruct Hs.
    + split; [by intros [? [=]]|]. intros [Hc' _]%Forall_cons. congruence.
Qed.

Lemma testWhole_keyPattern (key : jsstring) :
  testWhole keyPattern key = true ↔
  key ≠ [] ∧ Forall (fun c => keyUnit c = true) key.
Proof.
  unfold testWhole, keyPattern. cbn [execThen].
  destruct key as [|c s]; [split; [done|by intros [? _]]|].
  destruct (keyUnit c) eqn:Hc.
  - pose proof (starLoop_endOfInput keyUnit s) as H.
    destruct (starLoop keyUnit endOfInput s) as [t|].
    + split; [|done]. intros _. split; [done|]. constructor; [done|].
      apply H. by eexists.
    + split; [done|]. intros [_ [_ Hs]%Forall_cons]. apply H in Hs. by destruct Hs.
  - split; [done|]. intros [_ [Hc' _]%Forall_cons]. congruence.
Qed.

Lemma keyUnit_plain (c : N) :
  keyUnit c = true → isSpace c = false ∧ lowerUnit c = c.
Proof.
  unfold keyUnit. rewrite !orb_true_iff, !andb_true_iff, !N.leb_le, N.eqb_eq.
  intros H. split.
  - unfold isSpace, isLineTerminator.
    rewrite !orb_false_iff, !andb_false_iff, !N.eqb_neq, !N.leb_gt. lia.
  - apply lowerUnit_fixed. lia.
Qed.

Lemma validDiseaseKey_plain (key : jsstring) :
  validDiseaseKey key = true →
  Forall (fun c => isSpace c = false) key ∧ Forall (fun c => lowerUnit c = c) key.
Proof.
  unfold validDiseaseKey. rewrite !andb_true_iff. intros [_ [_ Hk]%testWhole_keyPattern].
  split; eapply Forall_impl; try exact Hk; intros c Hc;
    by apply keyUnit_plain in Hc as [? ?].
Qed.

(** X13: a disease key that passes the request validator (2 to 50 code units
    among [a-z0-9-]) is left as it is by [normalizeKey]. *)
Theorem normalizeKey_fixes_valid_keys (key : jsstring) :
  validDiseaseKey key = true → normalizeKey key = key.
Proof.
  intros Hvalid. destruct (validDiseaseKey_plain key Hvalid) as [Hspace Hlower].
  by apply normalizeKey_fixed.
Qed.

Lemma normalizeKey_fixes_valid_keys_witness :
  validDiseaseKey (u "black-spot") = true ∧ normalizeKey (u "black-spot") = u "black-spot".
Proof.
  assert (validDiseaseKey (u "black-spot") = true) as H by (by vm_compute).
  split; [exact H|]. exact (normalizeKey_fixes_valid_keys _ H).
Defined.




Lemma toLowerCase_idem (s : jsstring) : toLowerCase (toLowerCase s) = toLowerCase s.
Proof.
  apply toLowerCase_id. unfold toLowerCase. apply Forall_forall.
  intros c [c' [-> _]]%list_elem_of_fmap. apply lowerUnit_idem.
Qed.






(** ** The fences of an answer *)

Lemma execHere_lit (s : string) (r : regex) (x : jsstring) :
  execHere (lit s ++ r) x =
  if startsWith (u s) x then execHere r (drop (length (u s)) x) else None.
Proof.
  unfold lit. revert x. induction (u s) as [|p l IH]; intros x; [done|].
  cbn [map app execHere startsWith length drop]. destruct x as [|c x]; [done|].
  unfold unit at 1. destruct (c =? p); [|done]. apply IH.
Qed.

Lemma exec_here (r : regex) (x rest : jsstring) :
  execHere r x = Some rest →
  exec r x = Some (Found [] (take (length x - length rest) x) rest).
Proof. intros H. destruct x; cbn [exec]; by rewrite H. Qed.

Lemma exec_skip (p : N → bool) (r : regex) (x s : jsstring) :
  Forall (fun c => p c = false) x →
  exec (One p :: r) (x ++ s) =
  match exec (One p :: r) s with
  | Some (Found b m a) => Some (Found (x ++ b) m a)
  | None => None
  end.
Proof.
  induction 1 as [|c x Hc Hx IH].
  - cbn [app]. by destruct (exec (One p :: r) s) as [[b m a]|].
  - cbn [app exec execHere]. rewrite Hc, IH.
    by destruct (exec (One p :: r) s) as [[b m a]|].
Qed.

Lemma starLoop_trimStart (s : jsstring) :
  starLoop isSpace (fun s => Some s) s = Some (trimStart s).
Proof.
  induction s as [|c s IH]; [done|]. cbn [starLoop trimStart].
  destruct (isSpace c); [by rewrite IH|done].
Qed.

Lemma trimStart_app (t x : jsstring) (c : N) :
  isSpace c = false → trimStart (t ++ c :: x) = trimStart t ++ c :: x.
Proof.
  intros Hc. induction t as [|d t IH]; cbn [app trimStart]; [by rewrite Hc|].
  by destruct (isSpace d).
Qed.

Lemma trimStart_length (s : jsstring) : (length (trimStart s) ≤ length s)%nat.
Proof. destruct (trimStart_suffix s) as [a Ha]. rewrite Ha at 2. rewrite length_app. lia. Qed.

Lemma no_backquote (s : jsstring) :
  96 ∉ s → Forall (fun c => unit 96 c = false) s.
Proof.
  intros H. apply Forall_forall. intros c Hc. unfold unit. apply N.eqb_neq.
  intros ->. done.
Qed.

(** A fence pattern on a text whose first backquotes are those of the
    fence. *)
Lemma lit_backquote (fence : string) (t : jsstring) :
  u fence = 96 :: t → ∃ q, lit fence ++ [Star isSpace] = One (unit 96) :: q.
Proof. intros H. unfold lit. rewrite H. by eexists. Qed.

Lemma exec_fence (fence : string) (t a rest : jsstring) :
  u fence = 96 :: t →
  96 ∉ a →
  ∃ m, m ≠ [] ∧
       exec (lit fence ++ [Star isSpace]) (a ++ u fence ++ rest)
       = Some (Found a m (trimStart rest)).
Proof.
  intros Hf Ha. destruct (lit_backquote fence t Hf) as [q Hq].
  rewrite Hq, exec_skip by (by apply no_backquote). rewrite <- Hq.
  assert (execHere (lit fence ++ [Star isSpace]) (u fence ++ rest)
          = Some (trimStart rest)) as Hh.
  { rewrite execHere_lit.
    assert (startsWith (u fence) (u fence ++ rest) = true) as ->
      by (apply startsWith_spec; by eexists).
    rewrite drop_app_length. cbn [execHere]. apply starLoop_trimStart. }
  rewrite (exec_here _ _ _ Hh). eexists. split; [|by rewrite app_nil_r].
  intros Hnil. apply (f_equal length) in Hnil. rewrite length_take in Hnil.
  rewrite length_app, Hf in Hnil. cbn [length] in Hnil.
  pose proof (trimStart_length rest). lia.
Qed.

Lemma exec_fence_None (fence : string) (t s : jsstring) :
  u fence = 96 :: t → 96 ∉ s → exec (lit fence ++ [Star isSpace]) s = None.
Proof.
  intros Hf Hs. destruct (lit_backquote fence t Hf) as [q ->].
  apply exec_first_None. by apply no_backquote.
Qed.

(** The closing fence is no opening fence of the first pattern. *)
Lemma jsonFence_closing (x b : jsstring) :
  96 ∉ x → 96 ∉ b → startsWith (u "json") b = false →
  exec jsonFence (x ++ u "```" ++ b) = None.
Proof.
  intros Hx Hb Hj.
  destruct (lit_backquote "```json" (u "``json") eq_refl) as [q Hq].
  unfold jsonFence. rewrite Hq, exec_skip by (by apply no_backquote). rewrite <- Hq.
  assert (∀ y, 96 ∉ y → startsWith (u "`") y = false) as Hhead.
  { intros [|c y] Hy; [done|]. cbn [u list_ascii_of_string map startsWith].
    apply not_elem_of_cons in Hy as [Hc _].
    destruct (N.eqb_spec c (N_of_ascii "`")) as [->|]; [by destruct Hc|done]. }
  pose proof (Hhead b Hb) as Hb0.
  assert (exec (lit "```json" ++ [Star isSpace]) b = None) as Hin
    by (by apply (exec_fence_None _ (u "``json"))).
  change (u "```" ++ b) with (96 :: 96 :: 96 :: b).
  cbn [exec]. rewrite !execHere_lit.
  assert (startsWith (u "```json") (96 :: 96 :: 96 :: b) = false) as ->.
  { change (startsWith (u "```json") (96 :: 96 :: 96 :: b))
      with (startsWith (u "json") b). exact Hj. }
  assert (startsWith (u "```json") (96 :: 96 :: b) = false) as ->.
  { destruct b as [|c b]; [done|].
    cbn [u list_ascii_of_string map startsWith] in Hb0 |- *.
    rewrite andb_true_r in Hb0. rewrite Hb0. by rewrite ?N.eqb_refl. }
  assert (startsWith (u "```json") (96 :: b) = false) as ->.
  { destruct b as [|c b]; [done|].
    cbn [u list_ascii_of_string map startsWith] in Hb0 |- *.
    rewrite andb_true_r in Hb0. rewrite Hb0. by rewrite ?N.eqb_refl. }
  by rewrite Hin.
Qed.

(** The two replacements on one fenced block. *)
Lemma replace_fences (a t b : jsstring) :
  96 ∉ a → 96 ∉ t → 96 ∉ b →
  startsWith (u "json") b = false →
  replaceAll anyFence [] (replaceAll jsonFence [] (a ++ u "```json" ++ t ++ u "```" ++ b))
  = a ++ trimStart t ++ trimStart b.
Proof.
  intros Ha Ht Hb Hj.
  assert (trimStart (t ++ u "```" ++ b) = trimStart t ++ u "```" ++ b) as Htb
    by (by apply trimStart_app).
  assert (96 ∉ trimStart t) as Ht'.
  { destruct (trimStart_suffix t) as [x Hx]. rewrite Hx in Ht.
    intros H. apply Ht, elem_of_app. by right. }
  assert (96 ∉ trimStart b) as Hb'.
  { destruct (trimStart_suffix b) as [x Hx]. rewrite Hx in Hb.
    intros H. apply Hb, elem_of_app. by right. }
  destruct (exec_fence "```json" (u "``json") a (t ++ u "```" ++ b) eq_refl Ha)
    as (m1 & Hm1 & He1).
  fold jsonFence in He1.
  rewrite (replaceAll_step _ _ _ _ _ _ He1 Hm1). rewrite Htb.
  rewrite (replaceAll_None jsonFence) by (by apply jsonFence_closing).
  cbn [app].
  assert (96 ∉ a ++ trimStart t) as Hat.
  { intros [H|H]%elem_of_app; done. }
  destruct (exec_fence "```" (u "``") (a ++ trimStart t) b eq_refl Hat)
    as (m2 & Hm2 & He2).
  fold anyFence in He2. rewrite <- app_assoc in He2.
  rewrite (replaceAll_step _ _ _ _ _ _ He2 Hm2).
  rewrite (replaceAll_None anyFence)
    by (by apply (exec_fence_None _ (u "``"))).
  cbn [app]. by rewrite <- app_assoc.
Qed.

(** X16: the cleaning step of the parser unwraps one fenced block.  For a text
    [a], an opening fence with [json], a body [t], a closing fence and a
    text [b], none of [a], [t] and [b] holding a backquote and [b] not
    starting with [json], the cleaned text is [a], [t] without its
    leading white space and [b] without its leading white space, trimmed. *)
Theorem cleanContent_unwraps_fence (a t b : jsstring) :
  96 ∉ a → 96 ∉ t → 96 ∉ b →
  startsWith (u "json") b = false →
  cleanContent (a ++ u "```json" ++ t ++ u "```" ++ b)
  = trim (a ++ trimStart t ++ trimStart b).
Proof.
  intros Ha Ht Hb Hj. unfold cleanContent.
  by rewrite (replace_fences a t b Ha Ht Hb Hj).
Qed.

Lemma cleanContent_unwraps_fence_witness :
  cleanContent (u "Here it is: " ++ u "```json" ++ (nl ++ validObject ++ nl) ++ u "```"
                ++ u " Good luck.")
  = trim (u "Here it is: " ++ trimStart (nl ++ validObject ++ nl)
          ++ trimStart (u " Good luck.")).
Proof.
  apply cleanContent_unwraps_fence;
    [apply (bool_decide_unpack _); by vm_compute ..|by vm_compute].
Defined.

Lemma cleanContent_plain (t : jsstring) : 96 ∉ t → cleanContent t = trim t.
Proof.
  intros Ht. unfold cleanContent, jsonFence, anyFence.
  rewrite (replaceAll_None (lit "```json" ++ [Star isSpace]))
    by (by apply (exec_fence_None _ (u "``json"))).
  by rewrite (replaceAll_None (lit "```" ++ [Star isSpace]))
    by (by apply (exec_fence_None _ (u "``"))).
Qed.

Lemma trim_trimStart (t : jsstring) : trim (trimStart t) = trim t.
Proof.
  unfold trim. f_equal. destruct (trimStart t) as [|c s] eqn:E; [done|].
  assert (isSpace c = false) as Hc.
  { revert E. induction t as [|d t IH]; [done|]. cbn [trimStart].
    destruct (isSpace d) eqn:Hd; [done|]. by intros [= <- <-]. }
  cbn [trimStart]. by rewrite Hc.
Qed.

Lemma matchFirst_braces (mid : jsstring) :
  matchFirst braceSpan (123 :: mid ++ [125]) = Some (123 :: mid ++ [125]).
Proof.
  unfold matchFirst.
  destruct (exec braceSpan (123 :: mid ++ [125])) as [[b m a]|] eqn:He.
  - apply exec_braceSpan_Some in He as (Hs & Hb & Ha & mid' & Hm).
    cbn [fmap option_fmap option_map matched]. f_equal.
    destruct b as [|c b].
    + destruct a as [|c a] using rev_ind; [by rewrite app_nil_r in Hs|].
      exfalso. clear IHa. rewrite Hm in Hs. cbn [app] in Hs.
      injection Hs as Hs. rewrite !app_assoc in Hs.
      apply app_inj_tail in Hs as [_ <-]. apply Ha, elem_of_app. right. by left.
    + exfalso. cbn [app] in Hs. injection Hs as <- _. apply Hb. by left.
  - exfalso. apply (exec_braceSpan_None _ He [] (mid ++ [125]) eq_refl).
    apply elem_of_app. right. by left.
Qed.

Lemma filter_all_nil {A} (f : A → bool) (l : list A) :
  (∀ x, x ∈ l → f x = false) → List.filter f l = [].
Proof.
  induction l as [|a l IH]; [done|]. intros H. cbn [List.filter].
  rewrite (H a) by (by left). apply IH. intros x Hx. apply H. by right.
Qed.

(** X17: a well-formed answer is accepted.  When a text without backquotes is,
    once trimmed, an object in braces that [JSON.parse] decodes and in
    which the five required fields are present and not empty lists, the
    parser returns that object with its [disclaimer] set to the fixed
    sentence, whether the text comes bare or inside a [json] fence. *)
Theorem parse_accepts_wellformed_object
        (t mid : jsstring) (props : list (jsstring * value)) :
  96 ∉ t →
  trim t = 123 :: mid ++ [125] →
  Json.parse (trim t) = Some (VObj props) →
  (∀ field, field ∈ required → isMissing (VObj props) field = false) →
  let accepted := Return (VObj (setProp (u "disclaimer") (VStr disclaimer) props)) in
  parseRecommendationResponse (VStr t) = accepted ∧
  parseRecommendationResponse (VStr (u "```json" ++ t ++ u "```")) = accepted.
Proof.
  intros Ht Hj Hp Hreq accepted.
  assert (∀ text, cleanContent text = trim t →
                  parseRecommendationResponse (VStr text) = accepted) as Hrun.
  { intros text Hc. unfold parseRecommendationResponse, attemptParse.
    rewrite Hc, Hj, matchFirst_braces, <- Hj, Hp.
    assert (List.filter (isMissing (VObj props)) required = []) as ->.
    { by apply filter_all_nil. }
    done. }
  split; [by apply Hrun, cleanContent_plain|].
  apply Hrun.
  pose proof (replace_fences [] t [] (not_elem_of_nil _) Ht
                (not_elem_of_nil _) eq_refl) as Hc.
  cbn [app trimStart] in Hc. rewrite !app_nil_r in Hc.
  unfold cleanContent. by rewrite Hc, trim_trimStart.
Qed.

Lemma parse_accepts_wellformed_object_witness :
  ∃ props,
    parseRecommendationResponse (VStr (nl ++ validObject ++ nl))
    = Return (VObj (setProp (u "disclaimer") (VStr disclaimer) props)) ∧
    parseRecommendationResponse
      (VStr (u "```json" ++ (nl ++ validObject ++ nl) ++ u "```"))
    = Return (VObj (setProp (u "disclaimer") (VStr disclaimer) props)).
Proof.
  destruct (Json.parse (trim (nl ++ validObject ++ nl))) as [[| | | | | |props]|] eqn:Hp;
    try (exfalso; by vm_compute in Hp).
  exists props.
  apply (parse_accepts_wellformed_object (nl ++ validObject ++ nl)
           (removelast (tail validObject)) props).
  - apply (bool_decide_unpack _). by vm_compute.
  - by vm_compute.
  - exact Hp.
  - intros field Hf. vm_compute in Hp. injection Hp as <-.
    repeat (apply elem_of_cons in Hf as [->|Hf]; [by vm_compute|]).
    by apply elem_of_nil in Hf.
Defined.

(** ** The history of a session *)

Lemma newestFirst_take (n : nat) (l : list chatMessage) :
  newestFirst l → newestFirst (take n l).
Proof.
  unfold newestFirst. intros H. rewrite <- (take_drop n l) in H.
  by apply StronglySorted_app_1_l in H.
Qed.

Lemma newestFirst_drop (n : nat) (l : list chatMessage) :
  newestFirst l → newestFirst (drop n l).
Proof.
  unfold newestFirst. intros H. rewrite <- (take_drop n l) in H.
  by apply StronglySorted_app_1_r in H.
Qed.

Lemma newestFirst_limit (n : nat) (l : list chatMessage) :
  newestFirst l → newestFirst (limit n l).
Proof. destruct n; [done|]. apply newestFirst_take. Qed.

(** X18: two consecutive pages of the history of a session glue to the page of
    twice the size: the older page first, then the newer one. *)
Theorem history_pages_glue (sid : jsstring) (lim offset : nat) (w : world) :
  (0 < lim)%nat →
  ∃ newer older both,
    getHistory sid lim offset w = (Return newer, w) ∧
    getHistory sid lim (offset + lim) w = (Return older, w) ∧
    getHistory sid (lim + lim) offset w = (Return both, w) ∧
    h_data both = h_data older ++ h_data newer ∧
    h_count both = (h_count older + h_count newer)%nat.
Proof.
  intros Hlim. unfold getHistory. do 3 eexists.
  split; [reflexivity|]. split; [reflexivity|]. split; [reflexivity|].
  cbn [h_data h_count]. unfold skip.
  set (l := sortDesc (findSession sid (chatMessages w))).
  assert (limit (lim + lim) (drop offset l)
          = limit lim (drop offset l) ++ limit lim (drop (offset + lim) l)) as ->.
  { destruct lim as [|n]; [lia|]. unfold limit.
    change (S n + S n)%nat with (S (n + S n)).
    rewrite <- (drop_drop l (S n) offset).
    by rewrite take_take_drop. }
  rewrite fmap_app, rev_app_distr, length_app. split; [done|]. lia.
Qed.

Lemma history_pages_glue_witness :
  ∃ newer older both,
    getHistory (u "s1") 8 0 twentyTurns = (Return newer, twentyTurns) ∧
    getHistory (u "s1") 8 (0 + 8) twentyTurns = (Return older, twentyTurns) ∧
    getHistory (u "s1") (8 + 8) 0 twentyTurns = (Return both, twentyTurns) ∧
    h_data both = h_data older ++ h_data newer ∧
    h_count both = (h_count older + h_count newer)%nat.
Proof. apply (history_pages_glue (u "s1") 8 0 twentyTurns). lia. Defined.

(** X19: for a session id without white space around it, the history route
    returns turns of the requested session only, oldest first, and
    [count] is their number: the limit or what is left of the session
    after the offset, whichever is smaller; a limit of zero gives all that
    is left.  The collection is not changed. *)
Theorem history_is_chronological (sid : jsstring) (lim offset : nat) (w : world) :
  trim sid = sid →
  ∃ h,
    getHistory sid lim offset w = (Return h, w) ∧
    h_sessionId h = sid ∧
    h_count h = length (h_data h) ∧
    h_count h =
      (let rest := (length (findSession sid (chatMessages w)) - offset)%nat in
       match lim with O => rest | S _ => Nat.min lim rest end) ∧
    StronglySorted (fun a b => (s_createdAt a <= s_createdAt b)%Z) (h_data h) ∧
    ∀ x, x ∈ h_data h →
         ∃ m, m ∈ chatMessages w ∧ sessionId m = sid ∧ x = select m.
Proof.
  intros _. unfold getHistory. eexists. split; [reflexivity|].
  cbn [h_sessionId h_count h_data].
  split; [done|]. split; [by rewrite length_rev|]. unfold skip.
  set (l := sortDesc (findSession sid (chatMessages w))).
  assert (length l = length (findSession sid (chatMessages w))) as Hl
    by (unfold l; by rewrite (sortDesc_perm _)).
  split; [|split].
  - rewrite length_fmap. destruct lim; unfold limit.
    + by rewrite length_drop, Hl.
    + by rewrite length_take, length_drop, Hl.
  - assert (newestFirst (limit lim (drop offset l))) as Hs
      by (apply newestFirst_limit, newestFirst_drop, sortDesc_sorted).
    apply sorted_rev in Hs. unfold chronologicalOrder in Hs.
    change (rev (select <$> limit lim (drop offset l)))
      with (rev (map select (limit lim (drop offset l)))).
    rewrite <- map_rev.
    eapply (StronglySorted_fmap select); [|exact Hs]. by intros [] [].
  - intros x Hx. apply list_elem_of_In, in_rev, list_elem_of_In in Hx.
    apply list_elem_of_fmap in Hx as (m & -> & Hm).
    assert (m ∈ l) as Hml.
    { assert (m ∈ drop offset l) as Hd.
      { destruct lim; [exact Hm|]. unfold limit in Hm.
        rewrite <- (take_drop (S lim) (drop offset l)). apply elem_of_app. by left. }
      rewrite <- (take_drop offset l). apply elem_of_app. by right. }
    unfold l in Hml. rewrite (sortDesc_perm _) in Hml.
    apply list_elem_of_filter in Hml as [Hsid Hin]. by exists m.
Qed.

Lemma history_is_chronological_witness :
  ∃ h,
    getHistory (u "s1") 8 0 twentyTurns = (Return h, twentyTurns) ∧
    h_sessionId h = u "s1" ∧
    h_count h = length (h_data h) ∧
    h_count h =
      Nat.min 8 (length (findSession (u "s1") (chatMessages twentyTurns)) - 0) ∧
    StronglySorted (fun a b => (s_createdAt a <= s_createdAt b)%Z) (h_data h) ∧
    ∀ x, x ∈ h_data h →
         ∃ m, m ∈ chatMessages twentyTurns ∧ sessionId m = u "s1" ∧ x = select m.
Proof.
  apply (history_is_chronological (u "s1") 8 0 twentyTurns). by vm_compute.
Defined.

(** X20: deleting a session (its id without white space around it) removes
    all its turns and no other: afterwards the session is empty, every
    other session is as before, and the message of the answer counts the
    turns removed. *)
Theorem deleteSession_removes_one_session (sid : jsstring) (w : world) :
  trim sid = sid →
  ∃ body w',
    asyncHandler (deleteSession sid) w = (Json 200 body, w') ∧
    get body (u "message") =
      VStr (u "Deleted " ++ decimal (length (findSession sid (chatMessages w)))
              ++ u " messages from session") ∧
    findSession sid (chatMessages w') = [] ∧
    (∀ other, other ≠ sid →
              findSession other (chatMessages w') = findSession other (chatMessages w)) ∧
    (length (chatMessages w') + length (findSession sid (chatMessages w))
     = length (chatMessages w))%nat ∧
    sent w' = sent w.
Proof.
  intros _. do 2 eexists. split; [reflexivity|]. cbn [chatMessages sent].
  split; [reflexivity|]. unfold findSession.
  induction (chatMessages w) as [|m l (IH1 & IH2 & IH3 & _)]; [done|].
  rewrite !filter_cons. destruct (decide (sessionId m = sid)) as [Hm|Hm].
  - rewrite decide_False by (by intros []). split; [done|]. split.
    + intros other Ho. rewrite filter_cons. rewrite (decide_False (P := sessionId m = other))
        by congruence. by apply IH2.
    + cbn [length]. split; [lia|done].
  - rewrite decide_True by done. rewrite !filter_cons. rewrite decide_False by done.
    split; [done|]. split.
    + intros other Ho. rewrite !filter_cons.
      destruct (decide (sessionId m = other)); [f_equal|]; by apply IH2.
    + cbn [length]. split; [lia|done].
Qed.

Lemma deleteSession_removes_one_session_witness :
  ∃ body w',
    asyncHandler (deleteSession (u "s1")) twentyTurns = (Json 200 body, w') ∧
    get body (u "message") =
      VStr (u "Deleted "
              ++ decimal (length (findSession (u "s1") (chatMessages twentyTurns)))
              ++ u " messages from session") ∧
    findSession (u "s1") (chatMessages w') = [] ∧
    (∀ other, other ≠ u "s1" →
              findSession other (chatMessages w')
              = findSession other (chatMessages twentyTurns)) ∧
    (length (chatMessages w') + length (findSession (u "s1") (chatMessages twentyTurns))
     = length (chatMessages twentyTurns))%nat ∧
    sent w' = sent twentyTurns.
Proof.
  apply (deleteSession_removes_one_session (u "s1") twentyTurns). by vm_compute.
Defined.

(** ** Retention and the window *)

Section Retention.
Variable cutoff : Z.






End Retention.


(** ** The logger, the error middleware and the origins *)

Lemma levels_levelName (l : level) : levels (levelName l) = Some (rank l).
Proof. by destruct l. Qed.

Lemma levels_Some (name : jsstring) (n : nat) :
  levels name = Some n → ∃ l, name = levelName l ∧ n = rank l.
Proof.
  unfold levels, JsString.eqb.
  repeat case_bool_decide; intros [= <-]; subst name.
  - by exists LogError.
  - by exists LogWarn.
  - by exists LogInfo.
  - by exists LogDebug.
Qed.

(** X22: a method of the logger writes exactly when [LOG_LEVEL] (or [info]
    when it is unset or empty) is the name of one of the four levels and
    the method is at least as severe as that level.  In particular a
    [LOG_LEVEL] that is no such name silences every method, [error]
    included. *)
Theorem shouldLog_threshold (LOG_LEVEL : option jsstring) (l : level) :
  shouldLog LOG_LEVEL l = true ↔
  ∃ threshold : level,
    logLevel LOG_LEVEL = levelName threshold ∧ (rank l ≤ rank threshold)%nat.
Proof.
  unfold shouldLog. rewrite levels_levelName. split.
  - destruct (levels (logLevel LOG_LEVEL)) as [n|] eqn:Hn; [|done].
    apply levels_Some in Hn as (c & Hc & ->). intros H%Nat.leb_le. by exists c.
  - intros (c & -> & H). rewrite levels_levelName. by apply Nat.leb_le.
Qed.

(** The error handler. *)
Lemma statusOf_nonzero (error : errorObject) : statusOf error ≠ 0.
Proof.
  destruct error as [err|m n]; cbn [statusOf].
  - destruct (t_statusCode err) as [[|p]|]; done.
  - destruct n; done.
Qed.

Lemma messageOf_nonempty (error : errorObject) : messageOf error ≠ [].
Proof.
  unfold messageOf.
  destruct (match error with CopyOf err => t_message err | Replaced m _ => m end);
    [by vm_compute|done].
Qed.

(** X23: every answer of the error middleware has a status that is not zero and
    an error text that is not empty; outside development it holds neither
    stack nor details, in development it holds both. *)
Theorem errorHandler_response_invariant
        (development : bool) (err : thrown) (r : errorResponse) :
  errorHandler development err = Return r →
  r_error r ≠ [] ∧ r_status r ≠ 0 ∧
  (development = false → r_stack r = None ∧ r_details r = None) ∧
  (development = true → r_stack r = Some (t_stack err) ∧ is_Some (r_details r)).
Proof.
  unfold errorHandler.
  destruct (bool_decide (t_code err = Some 11000%Z)); [destruct (t_keyValue err)|];
    try done;
    (destruct (isName err "ValidationError"); [destruct (t_errors err)|]; try done);
    intros [= <-]; cbn [r_error r_status r_stack r_details];
    (split; [apply messageOf_nonempty|]); (split; [apply statusOf_nonzero|]);
    destruct development; split; try done; intros _; split; try done; by eexists.
Qed.

Lemma errorHandler_response_invariant_witness :
  errorHandler false plainError = Return (ErrorResponse 500 (u "Server Error") None None) ∧
  r_error (ErrorResponse 500 (u "Server Error") None None) ≠ [] ∧
  r_status (ErrorResponse 500 (u "Server Error") None None) ≠ 0 ∧
  (false = false →
   r_stack (ErrorResponse 500 (u "Server Error") None None) = None ∧
   r_details (ErrorResponse 500 (u "Server Error") None None) = None) ∧
  (false = true →
   r_stack (ErrorResponse 500 (u "Server Error") None None) = Some (t_stack plainError) ∧
   is_Some (r_details (ErrorResponse 500 (u "Server Error") None None))).
Proof.
  split; [reflexivity|].
  exact (errorHandler_response_invariant false plainError
           (ErrorResponse 500 (u "Server Error") None None) eq_refl).
Defined.



(** The origins of CORS. *)
Lemma splitOn_nonempty (sep : N) (s : jsstring) : splitOn sep s ≠ [].
Proof.
  destruct s as [|c s]; [done|]. cbn [splitOn].
  destruct (c =? sep); [done|]. by destruct (splitOn sep s).
Qed.

Lemma splitOn_plain (sep : N) (x : jsstring) :
  sep ∉ x → splitOn sep x = [x].
Proof.
  induction x as [|c x IH]; [done|]. intros [Hc Hx]%not_elem_of_cons.
  cbn [splitOn]. destruct (N.eqb_spec c sep); [congruence|]. by rewrite IH.
Qed.

Lemma splitOn_app (sep : N) (x rest : jsstring) :
  sep ∉ x → splitOn sep (x ++ sep :: rest) = x :: splitOn sep rest.
Proof.
  induction x as [|c x IH].
  - intros _. cbn [app splitOn]. by rewrite N.eqb_refl.
  - intros [Hc Hx]%not_elem_of_cons. cbn [app splitOn].
    destruct (N.eqb_spec c sep); [congruence|]. by rewrite IH.
Qed.

Lemma trim_cons_space (c : N) (x : jsstring) : isSpace c = true → trim (c :: x) = trim x.
Proof. intros Hc. unfold trim. cbn [trimStart]. by rewrite Hc. Qed.

Lemma origins_read_back (pre : jsstring) (xs : list jsstring) :
  xs ≠ [] →
  (pre = [] ∨ pre = [32]) →
  (∀ x, x ∈ xs → (44 ∉ x) ∧ trim x = x) →
  trim <$> splitOn 44 (pre ++ join (u ", ") xs) = xs.
Proof.
  intros Hne Hpre Hxs. revert pre Hpre.
  induction xs as [|x xs IH]; intros pre Hpre; [done|].
  destruct (Hxs x) as [Hx Ht]; [by left|].
  assert (44 ∉ pre ++ x) as Hpx.
  { intros [H|H]%elem_of_app; [|done].
    destruct Hpre as [-> | ->]; [by apply elem_of_nil in H|].
    by apply list_elem_of_singleton in H. }
  assert (trim (pre ++ x) = x) as Hpt.
  { destruct Hpre as [-> | ->]; [done|]. cbn [app]. by rewrite trim_cons_space. }
  destruct xs as [|y ys].
  - cbn [join]. rewrite splitOn_plain by done. cbn [fmap list_fmap]. by rewrite Hpt.
  - change (join (u ", ") (x :: y :: ys))
      with (x ++ 44 :: ([32] ++ join (u ", ") (y :: ys))).
    rewrite app_assoc, splitOn_app by done.
    cbn [fmap list_fmap]. rewrite Hpt. f_equal.
    apply IH; [done| |by right].
    intros z Hz. apply Hxs. by right.
Qed.

(** X26: a list of origins written the way the start-up log prints it (joined
    with a comma and a space) is read back from [CORS_ORIGINS] as that
    list, provided no origin is empty, holds a comma or has white space
    around it. *)
Theorem corsOrigins_reads_joined_list (xs : list jsstring) :
  xs ≠ [] →
  (∀ x, x ∈ xs → x ≠ [] ∧ (44 ∉ x) ∧ trim x = x) →
  corsOrigins (Some (join (u ", ") xs)) = xs.
Proof.
  intros Hne Hxs.
  assert (join (u ", ") xs ≠ []) as Hj.
  { destruct xs as [|x xs]; [done|]. destruct (Hxs x) as [Hx _]; [by left|].
    destruct x; [done|]. by destruct xs. }
  unfold corsOrigins. destruct (join (u ", ") xs) as [|c t] eqn:E; [done|].
  rewrite <- E. apply (origins_read_back []); [done|by left|].
  intros x Hx. by destruct (Hxs x Hx) as (_ & ? & ?).
Qed.

Lemma corsOrigins_reads_joined_list_witness :
  corsOrigins (Some (join (u ", ") [u "https://farm.example"; u "http://localhost:5173"]))
  = [u "https://farm.example"; u "http://localhost:5173"].
Proof.
  apply corsOrigins_reads_joined_list; [done|].
  intros x Hx.
  apply elem_of_cons in Hx as [->|Hx];
    [|apply list_elem_of_singleton in Hx as ->];
    (split; [done|]); (split; [|by vm_compute]);
    apply (bool_decide_unpack _); by vm_compute.
Defined.

(** ** The disclaimer, again *)

(** X27: the statement that ensures the disclaimer is idempotent: applied to
    its own result it returns that result unchanged. *)
Theorem ensureDisclaimer_idempotent (c0 c1 : value) :
  ensureDisclaimer c0 = Return c1 → ensureDisclaimer c1 = Return c1.
Proof.
  destruct c0 as [| | | |s|xs|props]; try done.
  - rewrite ensureDisclaimer_string. intros [= <-]. rewrite ensureDisclaimer_string.
    destruct (includes s guidanceOnly) eqn:Hs; [by rewrite Hs|].
    assert (includes (trim s ++ 10 :: 10 :: disclaimer) guidanceOnly = true) as ->; [|done].
    apply includes_spec. exists (trim s ++ nl ++ nl). eexists.
    by rewrite <- !app_assoc.
  - intros H. assert (c1 = VArr xs) as ->; [|done].
    revert H. unfold ensureDisclaimer. cbn [contentIncludes contentTrim].
    repeat match goal with
           | |- context [existsb ?f xs] => destruct (existsb f xs)
           end; by intros [=].
Qed.

Lemma ensureDisclaimer_idempotent_witness :
  ensureDisclaimer hello = Return (VStr (u "Water the tree in the morning." ++ nl ++ nl ++ disclaimer)) ∧
  ensureDisclaimer (VStr (u "Water the tree in the morning." ++ nl ++ nl ++ disclaimer))
  = Return (VStr (u "Water the tree in the morning." ++ nl ++ nl ++ disclaimer)).
Proof.
  assert (ensureDisclaimer hello
          = Return (VStr (u "Water the tree in the morning." ++ nl ++ nl ++ disclaimer)))
    as H by (by vm_compute).
  split; [exact H|]. exact (ensureDisclaimer_idempotent _ _ H).
Defined.

(** ** The sanitizer of requests *)

Lemma unit_true (p c : N) : unit p c = true ↔ c = p.
Proof. unfold unit. apply N.eqb_eq. Qed.

Lemma notGt_true (c : N) : notGt c = true ↔ c ≠ 62.
Proof. unfold notGt. rewrite negb_true_iff. apply N.eqb_neq. Qed.

Lemma matches_star_gt (m : jsstring) :
  matches [Star notGt; One (unit 62)] m ↔ ∃ x, m = x ++ [62] ∧ 62 ∉ x.
Proof.
  split.
  - remember [Star notGt; One (unit 62)] as r eqn:Hr.
    induction 1 as [|p r c s Hp Hm IH|p r s Hm IH|p r c s Hp Hm IH|p r s Hm IH
                    |p r c s Hp Hm IH]; try done.
    + injection Hr as -> ->. inversion Hm as [|? ? c s' Hc Hs| | | |]; subst.
      inversion Hs; subst. apply unit_true in Hc as ->.
      exists []. split; [done|]. apply not_elem_of_nil.
    + injection Hr as -> ->. destruct (IH eq_refl) as (x & -> & Hx).
      exists (c :: x). split; [done|]. apply notGt_true in Hp.
      apply not_elem_of_cons. split; [congruence|done].
  - intros (x & -> & Hx). induction x as [|c x IH].
    + apply matches_star_stop. constructor; [by apply unit_true|constructor].
    + apply not_elem_of_cons in Hx as [Hc Hx]. apply matches_star_step; [|by apply IH].
      apply notGt_true. congruence.
Qed.

Lemma matches_tag (m : jsstring) : matches tag m ↔ tagText m.
Proof.
  unfold tag, tagText. split.
  - intros H. inversion H as [|? ? c0 m1 Hc0 H1| | | |]; subst.
    inversion H1 as [|? ? c m2 Hc H2| | | |]; subst.
    apply matches_star_gt in H2 as (x & -> & Hx).
    apply unit_true in Hc0 as ->. apply notGt_true in Hc. by exists c, x.
  - intros (c & x & -> & Hc & Hx).
    constructor; [by apply unit_true|]. constructor; [by apply notGt_true|].
    apply matches_star_gt. by exists x.
Qed.

Lemma test_tag (s : jsstring) : test tag s = true ↔ hasTag s.
Proof.
  rewrite test_matches. unfold hasTag.
  split; intros (a & m & b & Hs & Hm); exists a, m, b; (split; [done|]);
    by apply matches_tag.
Qed.

(** The match found is the leftmost one. *)
Lemma exec_leftmost (r : regex) (s b m a : jsstring) :
  exec r s = Some (Found b m a) →
  ∀ b1 b2, b = b1 ++ b2 → b2 ≠ [] → execHere r (b2 ++ m ++ a) = None.
Proof.
  revert b. induction s as [|c s IH]; intros b.
  - cbn [exec]. destruct (execHere r []); [|done].
    intros Heq. inversion Heq; subst. intros [|] [|]; done.
  - cbn [exec]. destruct (execHere r (c :: s)) as [rest|] eqn:Hh.
    { intros Heq. inversion Heq; subst. intros [|] [|]; done. }
    destruct (exec r s) as [[b' m' a']|] eqn:He; [|done].
    intros Heq. inversion Heq; subst. intros b1 b2 Hb Hb2.
    destruct b1 as [|d b1].
    + cbn [app] in Hb. subst b2. cbn [app].
      by rewrite <- (exec_split _ _ _ _ _ He).
    + injection Hb as -> ->. by eapply IH.
Qed.

Lemma tagText_here (s : jsstring) :
  execHere tag s = None → ∀ m rest, s = m ++ rest → ¬ tagText m.
Proof.
  intros Hnone m rest -> Hm. apply matches_tag in Hm.
  destruct (execHere_complete _ _ Hm rest) as [t Ht]. congruence.
Qed.

(** Taking a tag out leaves no tag across the cut. *)
Lemma no_tag_across (s b m a rest : jsstring) :
  exec tag s = Some (Found b m a) → ¬ hasTag rest → ¬ hasTag (b ++ rest).
Proof.
  intros He Hrest (a' & m' & b' & Hs & c & x & -> & Hc & Hx).
  pose proof (exec_sound _ _ _ _ _ He) as Hm. apply matches_tag in Hm.
  destruct Hm as (c1 & x1 & -> & Hc1 & Hx1).
  pose proof (exec_leftmost _ _ _ _ _ He) as Hleft.
  apply app_eq_inv in Hs as [(k & Hb & Hk)|(k & Ha & Hk)].
  - (* the tag starts inside [b] *)
    destruct k as [|d k].
    { apply Hrest. exists [], (60 :: c :: x ++ [62]), b'.
      split; [symmetry; exact Hk|by exists c, x]. }
    cbn [app] in Hk. injection Hk as <- Hk.
    specialize (Hleft a' (60 :: k) Hb ltac:(done)).
    destruct k as [|d k].
    + (* [<] is the last code unit of [b]: it opens the tag taken out *)
      eapply (tagText_here _ Hleft (60 :: 60 :: (c1 :: x1) ++ [62]) a).
      { cbn [app]. by rewrite <- !app_assoc. }
      exists 60, (c1 :: x1). split; [done|]. split; [done|].
      apply not_elem_of_cons. split; [congruence|done].
    + cbn [app] in Hk. injection Hk as <- Hk.
      (* the code unit after [<] is not [>]: a tag ends at the first [>]
         after it *)
      assert (62 ∈ k ++ (60 :: c1 :: x1 ++ [62])) as Hin.
      { apply elem_of_app. right. do 2 right. apply elem_of_app. right. by left. }
      apply list_elem_of_split_l in Hin as (y & z & Hyz & Hy).
      eapply (tagText_here _ Hleft (60 :: c :: y ++ [62]) (z ++ a)); [|by exists c, y].
      cbn [app]. do 2 f_equal.
      change (k ++ 60 :: c1 :: (x1 ++ [62]) ++ a)
        with (k ++ (60 :: c1 :: x1 ++ [62]) ++ a).
      rewrite app_assoc, Hyz. rewrite <- !app_assoc. by cbn [app].
  - (* the tag starts in [rest] *)
    apply Hrest. exists k, (60 :: c :: x ++ [62]), b'. split; [done|by exists c, x].
Qed.

Lemma hasTag_infix (a s b : jsstring) : hasTag s → hasTag (a ++ s ++ b).
Proof.
  intros (a' & m & b' & -> & Hm). exists (a ++ a'), m, (b' ++ b).
  split; [by rewrite <- !app_assoc|done].
Qed.

Lemma replace_tags_free (n : nat) (s : jsstring) :
  (length s ≤ n)%nat → ¬ hasTag (replaceAll tag [] s).
Proof.
  revert s. induction n as [|n IH]; intros s Hlen.
  - destruct s; [|cbn in Hlen; lia]. rewrite replaceAll_None by done.
    intros ([|] & m & b & Hs & c & x & -> & _); done.
  - destruct (exec tag s) as [[b m a]|] eqn:He.
    + pose proof (exec_split _ _ _ _ _ He) as Hs.
      pose proof (exec_sound _ _ _ _ _ He) as Hm. apply matches_tag in Hm.
      assert (m ≠ []) as Hne by (by destruct Hm as (c & x & -> & _)).
      rewrite (replaceAll_step _ _ _ _ _ _ He Hne). cbn [app].
      apply (no_tag_across _ _ _ _ _ He). apply IH.
      subst s. rewrite !length_app in Hlen.
      destruct Hm as (c & x & -> & _). cbn [length] in Hlen. lia.
    + rewrite replaceAll_None by done. intros Htag%test_tag.
      unfold test in Htag. by rewrite He in Htag.
Qed.

Lemma sanitizeString_free (s : jsstring) : test tag (sanitizeString s) = false.
Proof.
  destruct (test tag (sanitizeString s)) eqn:Ht; [|done]. exfalso.
  apply test_tag in Ht. unfold sanitizeString in Ht.
  destruct (trim_infix (replaceAll tag [] (replaceAllAt scriptElement [] s)))
    as (a & b & Hab).
  apply (hasTag_infix a _ b) in Ht. rewrite <- Hab in Ht.
  by apply (replace_tags_free _ _ (Nat.le_refl _)) in Ht.
Qed.

(** Texts on which the rest of a pattern cannot succeed: a property of
    texts that their tails keep, and continuations that fail on it. *)
Section Fails.
Variable Q : jsstring → Prop.
Hypothesis Q_tail : ∀ c s, Q (c :: s) → Q s.

Lemma starLoopAt_fails (p : N → bool) (k : continuation) :
  failsOn Q k → failsOn Q (starLoopAt p k).
Proof.
  intros Hk prev s. revert prev. induction s as [|c s IH]; intros prev Hs.
  - by apply Hk.
  - cbn [starLoopAt]. rewrite (IH (Some c) (Q_tail _ _ Hs)).
    rewrite (Hk prev (c :: s) Hs). by destruct (p c).
Qed.

Lemma step_fails (st : step) (l : list step) (k : continuation) :
  failsOn Q (runSteps l k) → failsOn Q (runSteps (st :: l) k).
Proof.
  intros IH prev s Hs. destruct st as [[p|p|p]| |r]; cbn [runSteps].
  - destruct s as [|c s]; [done|].
    rewrite (IH (Some c) s (Q_tail _ _ Hs)). by destruct (p c).
  - destruct s as [|c s]; [by apply IH|].
    rewrite (IH (Some c) s (Q_tail _ _ Hs)), (IH prev (c :: s) Hs). by destruct (p c).
  - by apply starLoopAt_fails.
  - rewrite (IH prev s Hs). by destruct (xorb _ _).
  - rewrite (IH prev s Hs). by destruct (execHere r s).
Qed.

Lemma runSteps_fails (l : list step) (k : continuation) :
  failsOn Q k → failsOn Q (runSteps l k).
Proof. intros Hk. induction l as [|st l IH]; [done|]. by apply step_fails. Qed.

Lemma repeatLoop_fails (fuel : nat) (l : list step) (k : continuation) :
  failsOn Q k → failsOn Q (repeatLoop fuel l k).
Proof.
  intros Hk. induction fuel as [|fuel IH]; [done|].
  intros prev s Hs. cbn [repeatLoop]. rewrite (Hk prev s Hs).
  rewrite runSteps_fails; [done| |done].
  intros prev' s' Hs'. rewrite (IH prev' s' Hs'). by destruct (_ <? _)%nat.
Qed.

(** The first pattern finds nothing in a text on which its closing
    literal cannot match. *)
Lemma scriptElement_fails :
  (∀ k, failsOn Q (runSteps (map Atom (litIgnoreCase "</script>")) k)) →
  ∀ prev s, Q s → execAt scriptElement prev s = None.
Proof.
  intros Hclose.
  assert (failsOn Q (matchHere scriptElement)) as Hm.
  { unfold matchHere, scriptElement. cbn [runPieces].
    apply runSteps_fails. intros prev' s' Hs'.
    apply repeatLoop_fails; [|done]. apply Hclose. }
  intros prev s. revert prev. induction s as [|c s IH]; intros prev Hs.
  - cbn [execAt]. by rewrite (Hm prev [] Hs).
  - cbn [execAt]. rewrite (Hm prev (c :: s) Hs).
    by rewrite (IH (Some c) (Q_tail _ _ Hs)).
Qed.

End Fails.

(** Texts without [>]. *)
Lemma tag_needs_gt (s : jsstring) : 62 ∉ s → exec tag s = None.
Proof.
  intros Hs. destruct (exec tag s) as [[b m a]|] eqn:He; [|done]. exfalso.
  pose proof (exec_split _ _ _ _ _ He) as ->.
  apply exec_sound, matches_tag in He as (c & x & -> & _).
  apply Hs. apply elem_of_app. right. apply elem_of_app. left.
  do 2 right. apply elem_of_app. right. by left.
Qed.

Lemma unitIgnoreCase_fixed (p c : N) :
  ¬ (65 ≤ p ≤ 90) → ¬ (97 ≤ p ≤ 122) → unitIgnoreCase p c = true → c = p.
Proof.
  intros Hup Hlo. unfold unitIgnoreCase, canonicalize.
  destruct (N.leb_spec 97 c) as [H1|H1], (N.leb_spec c 122) as [H2|H2],
    (N.leb_spec 97 p) as [H3|H3], (N.leb_spec p 122) as [H4|H4];
    cbn [andb]; intros Heq%N.eqb_eq; lia.
Qed.

(** A literal at the start of a text. *)
Lemma runSteps_literal (ps : jsstring) (k : continuation) (prev : option N)
      (s : jsstring) :
  is_Some (runSteps (map Atom (map (fun p => One (unitIgnoreCase p)) ps)) k prev s) →
  ∃ m rest, s = m ++ rest ∧ Forall2 (fun p c => unitIgnoreCase p c = true) ps m.
Proof.
  revert prev s. induction ps as [|p ps IH]; intros prev s.
  - intros _. exists [], s. split; [done|constructor].
  - cbn [map runSteps]. destruct s as [|c s]; [by intros [? [=]]|].
    destruct (unitIgnoreCase p c) eqn:Hc; [|by intros [? [=]]].
    intros (m & rest & -> & Hm)%IH. exists (c :: m), rest. split; [done|].
    by constructor.
Qed.

Lemma unitIgnoreCase_letter (p c : N) :
  97 ≤ p ≤ 122 → unitIgnoreCase p c = true → c ≠ 62.
Proof.
  intros Hp. unfold unitIgnoreCase, canonicalize.
  destruct (N.leb_spec 97 c) as [H1|H1], (N.leb_spec c 122) as [H2|H2],
    (N.leb_spec 97 p) as [H3|H3], (N.leb_spec p 122) as [H4|H4];
    cbn [andb]; intros Heq%N.eqb_eq; lia.
Qed.

(** The literal [</script>] at the start of a text. *)
Lemma closing_literal (k : continuation) (prev : option N) (s : jsstring) :
  is_Some (runSteps (map Atom (litIgnoreCase "</script>")) k prev s) →
  ∃ x rest, s = 60 :: 47 :: x ++ 62 :: rest ∧ 62 ∉ x.
Proof.
  unfold litIgnoreCase. intros (m & rest & -> & Hm)%runSteps_literal.
  change (u "</script>") with [60; 47; 115; 99; 114; 105; 112; 116; 62] in Hm.
  apply Forall2_cons_inv_l in Hm as (c0 & m0 & H0 & Hm & ->).
  apply Forall2_cons_inv_l in Hm as (c1 & m1 & H1 & Hm & ->).
  apply Forall2_cons_inv_l in Hm as (c2 & m2 & H2 & Hm & ->).
  apply Forall2_cons_inv_l in Hm as (c3 & m3 & H3 & Hm & ->).
  apply Forall2_cons_inv_l in Hm as (c4 & m4 & H4 & Hm & ->).
  apply Forall2_cons_inv_l in Hm as (c5 & m5 & H5 & Hm & ->).
  apply Forall2_cons_inv_l in Hm as (c6 & m6 & H6 & Hm & ->).
  apply Forall2_cons_inv_l in Hm as (c7 & m7 & H7 & Hm & ->).
  apply Forall2_cons_inv_l in Hm as (c8 & m8 & H8 & Hm & ->).
  apply Forall2_nil_inv_l in Hm as ->.
  apply (unitIgnoreCase_fixed 60) in H0 as ->; [|lia|lia].
  apply (unitIgnoreCase_fixed 47) in H1 as ->; [|lia|lia].
  apply (unitIgnoreCase_fixed 62) in H8 as ->; [|lia|lia].
  exists [c2; c3; c4; c5; c6; c7], rest. split; [done|].
  apply unitIgnoreCase_letter in H2, H3, H4, H5, H6, H7; try lia.
  repeat (apply not_elem_of_cons; split; [congruence|]). apply not_elem_of_nil.
Qed.

Lemma scriptElement_needs_gt (prev : option N) (s : jsstring) :
  62 ∉ s → execAt scriptElement prev s = None.
Proof.
  apply (scriptElement_fails (fun s => 62 ∉ s)).
  - intros c s' H. by apply not_elem_of_cons in H as [_ H].
  - intros k prev' s' Hs'.
    destruct (runSteps _ k prev' s') as [t|] eqn:E; [|done]. exfalso.
    destruct (closing_literal k prev' s' ltac:(by rewrite E; eexists))
      as (x & rest & -> & _).
    apply Hs'. do 2 right. apply elem_of_app. right. by left.
Qed.

Lemma scriptElement_needs_tag (prev : option N) (s : jsstring) :
  ¬ hasTag s → execAt scriptElement prev s = None.
Proof.
  apply (scriptElement_fails (fun s => ¬ hasTag s)).
  - intros c s' H Htag. apply H. by apply (hasTag_infix [c] s' []) in Htag;
      rewrite app_nil_r in Htag.
  - intros k prev' s' Hs'.
    destruct (runSteps _ k prev' s') as [t|] eqn:E; [|done]. exfalso.
    destruct (closing_literal k prev' s' ltac:(by rewrite E; eexists))
      as (x & rest & -> & Hx).
    apply Hs'. exists [], (60 :: 47 :: x ++ [62]), rest.
    split; [cbn [app]; by rewrite <- app_assoc|]. by exists 47, x.
Qed.

(** X28: a text without [>] is only trimmed by [sanitizeString]: a tag that
    is not closed stays as it is. *)
Theorem sanitizeString_unclosed (s : jsstring) :
  62 ∉ s → sanitizeString s = trim s.
Proof.
  intros Hs. unfold sanitizeString, replaceAllAt. cbn [replaceLoopAt].
  rewrite (scriptElement_needs_gt None s Hs). by rewrite replaceAll_None by (by apply tag_needs_gt).
Qed.

Lemma sanitizeString_unclosed_witness :
  sanitizeString (u " <img src=x onerror=alert(1) ") = trim (u " <img src=x onerror=alert(1) ").
Proof.
  apply sanitizeString_unclosed. apply (bool_decide_unpack _). by vm_compute.
Defined.

(** [trim] is idempotent. *)
Lemma trimStart_head (s r : jsstring) (c : N) :
  trimStart s = c :: r → isSpace c = false.
Proof.
  induction s as [|d s IH]; [done|]. cbn [trimStart].
  destruct (isSpace d) eqn:Hd; [done|]. by intros [= <- <-].
Qed.

Lemma trimStart_fixed (s : jsstring) :
  (∀ c r, s = c :: r → isSpace c = false) → trimStart s = s.
Proof. destruct s as [|c s]; [done|]. intros H. cbn [trimStart]. by rewrite (H c s). Qed.

Lemma trim_trim (s : jsstring) : trim (trim s) = trim s.
Proof.
  unfold trim at 1, trimEnd at 1.
  set (w := trimStart (rev (trimStart s))).
  assert (trim s = rev w) as Hz by done. rewrite Hz.
  assert (trimStart (rev w) = rev w) as ->.
  { apply trimStart_fixed. intros c r Hc.
    destruct (trimStart_suffix (rev (trimStart s))) as [a Ha]. fold w in Ha.
    apply (f_equal (@rev N)) in Ha. rewrite rev_involutive, rev_app_distr, Hc in Ha.
    by apply (trimStart_head s (r ++ rev a) c). }
  rewrite rev_involutive. f_equal. apply trimStart_fixed.
  intros c r Hc. by apply (trimStart_head (rev (trimStart s)) r c).
Qed.

(** X29: [sanitizeString] is idempotent. *)
Theorem sanitizeString_idempotent (s : jsstring) :
  sanitizeString (sanitizeString s) = sanitizeString s.
Proof.
  pose proof (sanitizeString_free s) as Hfree.
  assert (¬ hasTag (sanitizeString s)) as Hno.
  { intros H%test_tag. congruence. }
  unfold sanitizeString at 1. unfold replaceAllAt. cbn [replaceLoopAt].
  rewrite (scriptElement_needs_tag None _ Hno).
  rewrite replaceAll_None.
  - unfold sanitizeString. apply trim_trim.
  - unfold test in Hfree. by destruct (exec tag (sanitizeString s)).
Qed.

(** Induction on values. *)
Section ValueInduction.
Variable P : value → Prop.
Hypothesis P_undefined : P VUndefined.
Hypothesis P_null : P VNull.
Hypothesis P_bool : ∀ b, P (VBool b).
Hypothesis P_num : ∀ neg digits exp10, P (VNum neg digits exp10).
Hypothesis P_str : ∀ s, P (VStr s).
Hypothesis P_arr : ∀ xs, Forall P xs → P (VArr xs).
Hypothesis P_obj : ∀ props, Forall (fun kv => P (snd kv)) props → P (VObj props).

Lemma value_induction : ∀ v, P v.
Proof.
  fix IH 1. intros [| |b|neg digits exp10|s|xs|props].
  - exact P_undefined.
  - exact P_null.
  - apply P_bool.
  - apply P_num.
  - apply P_str.
  - apply P_arr. induction xs as [|x xs IHxs]; constructor; [apply IH|exact IHxs].
  - apply P_obj. induction props as [|kv props IHprops]; constructor;
      [apply IH|exact IHprops].
Qed.

End ValueInduction.

Lemma sanitizeValue_free (v : value) (x : jsstring) :
  x ∈ stringsIn (sanitizeValue v) → test tag x = false.
Proof.
  revert v x. apply (value_induction (fun v => ∀ x, x ∈ stringsIn (sanitizeValue v) →
                                                   test tag x = false));
    cbn [sanitizeValue stringsIn].
  - intros x H. by apply elem_of_nil in H.
  - intros x H. by apply elem_of_nil in H.
  - intros b x H. by apply elem_of_nil in H.
  - intros neg digits exp10 x H. by apply elem_of_nil in H.
  - intros s x ->%list_elem_of_singleton. apply sanitizeString_free.
  - intros xs IH x Hx. apply list_elem_of_In, in_flat_map in Hx as (v' & Hv' & Hx).
    apply in_map_iff in Hv' as (v & <- & Hv).
    rewrite Forall_forall in IH. apply (IH v); by apply list_elem_of_In.
  - intros props IH x Hx. apply list_elem_of_In, in_flat_map in Hx as (kv' & Hkv' & Hx).
    apply in_map_iff in Hkv' as (kv & <- & Hkv). cbn [snd] in Hx.
    rewrite Forall_forall in IH. apply (IH kv); by apply list_elem_of_In.
Qed.

(** X30: after the sanitizer no string holds a tag.  The result of
    [sanitizeString] has no [<] followed by one or more code units other
    than [>] and a [>]; and in the body that [sanitizeInput] leaves, every
    string value, at any depth, is such a text, unless the body itself is
    a string, which is not touched. *)
Theorem sanitizeInput_leaves_no_tag :
  (∀ s, test tag (sanitizeString s) = false) ∧
  (∀ body x, x ∈ stringsIn (sanitizeInput body) →
             test tag x = false ∨ body = VStr x).
Proof.
  split; [apply sanitizeString_free|].
  intros body x. destruct body as [| | | |s|xs|props]; cbn [sanitizeInput stringsIn];
    try (intros H; by apply elem_of_nil in H).
  - intros ->%list_elem_of_singleton. by right.
  - intros H. left. by apply (sanitizeValue_free (VArr xs)).
  - intros H. left. by apply (sanitizeValue_free (VObj props)).
Qed.
